(** * K-space Explorer: the slice transform engine of [kspace.py]

    A shallow embedding of [ImageManipulators] and of [MainApp.image_change].
    Array samples (numpy [float32] / [complex64]) are idealised as real and
    complex numbers over [R]; scalar parameters coming from the user interface
    (percentages, radii, factors) are exact rationals [Q], so that every index
    computation ([round], [int], [//], slices) evaluates. *)

From Stdlib Require Import ZArith QArith Qround Qreals Reals List Bool Lia Lra Psatz.
Import ListNotations.

Set Implicit Arguments.

Open Scope nat_scope.

(** ** Python scalars *)

Module Py.

Local Open Scope Q_scope.

(** [int(x)] on a float: truncation towards zero. *)
Definition int (x : Q) : Z := Z.quot (Qnum x) (Zpos (Qden x)).

(** [round(x)] on a float: nearest integer, ties to the even one. *)
Definition round (x : Q) : Z :=
  let f := Qfloor x in
  match Qcompare (x - inject_Z f) (1 # 2) with
  | Lt => f
  | Gt => (f + 1)%Z
  | Eq => if Z.even f then f else (f + 1)%Z
  end.

(** [x < y] on floats *)
Definition ltb (x y : Q) : bool := negb (Qle_bool y x).

(** [x // y] on floats. *)
Definition floordiv (x y : Q) : Q := inject_Z (Qfloor (x / y)).

(** Exceptions the engine can raise. *)
Inductive exn := ValueError | IndexError | ZeroDivisionError.

(** Outcome of a call that mutates a receiver: the receiver as the call left
    it, and the exception when one was raised. *)
Inductive outcome (S : Type) : Type :=
| Done (s : S)
| Raised (e : exn) (s : S).
Arguments Done {S} s.
Arguments Raised {S} e s.

Definition final {S} (o : outcome S) : S :=
  match o with Done s => s | Raised _ s => s end.

Definition bind {S} (o : outcome S) (f : S -> outcome S) : outcome S :=
  match o with Done s => f s | Raised e s => Raised e s end.

(** *** Slices [start:stop:step] *)

Record slice := Slice { start : option Z; stop : option Z; step : option Z }.

(** [PySlice_AdjustIndices] for one bound. *)
Definition adjust (len st i : Z) : Z :=
  if (i <? 0)%Z then
    let i' := (i + len)%Z in
    if (i' <? 0)%Z then (if (st <? 0)%Z then (-1)%Z else 0%Z) else i'
  else if (len <=? i)%Z then (if (st <? 0)%Z then (len - 1)%Z else len)
  else i.

(** The indices a slice selects on an axis of length [len], in order.  A zero
    step raises in Python; the engine never builds one (literal steps, and
    the undersampling factor is guarded by [factor > 1]), the model selects
    nothing there. *)
Definition indices (s : slice) (len : nat) : list nat :=
  let n := Z.of_nat len in
  let st := match step s with Some k => k | None => 1%Z end in
  let a := match start s with
           | Some i => adjust n st i
           | None => if (st <? 0)%Z then (n - 1)%Z else 0%Z
           end in
  let b := match stop s with
           | Some i => adjust n st i
           | None => if (st <? 0)%Z then (-1)%Z else n
           end in
  let count :=
    if (st <? 0)%Z then (if (b <? a)%Z then ((a - b - 1) / (- st) + 1)%Z else 0%Z)
    else if (st =? 0)%Z then 0%Z
    else (if (a <? b)%Z then ((b - a - 1) / st + 1)%Z else 0%Z) in
  map (fun t => Z.to_nat (a + Z.of_nat t * st)) (seq 0 (Z.to_nat count)).

(** [a:b], [a:], [:b], [a::k] *)
Definition from_to (a b : Z) : slice := Slice (Some a) (Some b) None.
Definition from (a : Z) : slice := Slice (Some a) None None.
Definition upto (b : Z) : slice := Slice None (Some b) None.
Definition from_step (a k : Z) : slice := Slice (Some a) None (Some k).
Definition all : slice := Slice None None None.
Definition reversed : slice := Slice None None (Some (-1)%Z).

(** Position of [i] in a list of selected indices. *)
Fixpoint index_of (i : nat) (l : list nat) : option nat :=
  match l with
  | [] => None
  | x :: l' => if Nat.eqb i x then Some 0%nat
               else option_map S (index_of i l')
  end.

Definition selects (l : list nat) (i : nat) : bool :=
  match index_of i l with Some _ => true | None => false end.

End Py.


(** ** Samples: reals and complex numbers *)

Class Zero (A : Type) := zero : A.

#[global] Instance R_zero : Zero R := 0%R.
#[global] Instance Z_zero : Zero Z := 0%Z.
#[global] Instance bool_zero : Zero bool := false.

Record complex := mkC { re : R; im : R }.

#[global] Instance complex_zero : Zero complex := mkC 0 0.

Local Open Scope R_scope.

Definition Rleb (x y : R) : bool := if Rle_dec x y then true else false.
Definition Rltb (x y : R) : bool := if Rlt_dec x y then true else false.
Definition Reqb (x y : R) : bool := if Req_dec_T x y then true else false.

(** [np.floor] and the C cast of a float to an integer (truncation). *)
Definition Rfloor (x : R) : Z := (up x - 1)%Z.
Definition Rtrunc (x : R) : Z := if Rle_dec 0 x then Rfloor x else (- Rfloor (- x))%Z.

Local Close Scope R_scope.

Module C.

Local Open Scope R_scope.

Definition of_real (x : R) : complex := mkC x 0.
Definition one : complex := mkC 1 0.
Definition add (a b : complex) : complex := mkC (re a + re b) (im a + im b).
Definition opp (a : complex) : complex := mkC (- re a) (- im a).
Definition sub (a b : complex) : complex := mkC (re a - re b) (im a - im b).
Definition mul (a b : complex) : complex :=
  mkC (re a * re b - im a * im b) (re a * im b + im a * re b).
(** a complex sample times a real factor *)
Definition scale (a : complex) (x : R) : complex := mkC (re a * x) (im a * x).
Definition conj (a : complex) : complex := mkC (re a) (- im a).
(** [np.absolute] *)
Definition abs (a : complex) : R := sqrt (re a * re a + im a * im a).
(** e^{i t} *)
Definition cis (t : R) : complex := mkC (cos t) (sin t).

(** numpy orders complex numbers lexicographically: by real part, then by
    imaginary part.  [geb a b] is [a >= b] in that order. *)
Definition geb (a b : complex) : bool :=
  Rltb (re b) (re a) || (Reqb (re a) (re b) && Rleb (im b) (im a)).

Fixpoint sum (n : nat) (f : nat -> complex) : complex :=
  match n with
  | O => zero
  | S n' => add (sum n' f) (f n')
  end.

End C.

(** ** numpy arrays (two-dimensional, row-major) *)

Record ndarray (A : Type) := mkarr { nrows : nat; ncols : nat; flat : list A }.

Module Np.

Section Arrays.
Context {A : Type} {ZA : Zero A}.

Definition shape (a : ndarray A) : nat * nat := (nrows a, ncols a).
Definition size (a : ndarray A) : nat := nrows a * ncols a.

(** The buffer holds exactly [rows * cols] samples. *)
Definition well_shaped (a : ndarray A) : Prop := length (flat a) = size a.

(** [a[i, j]] for in-range non-negative indices *)
Definition cell (a : ndarray A) (i j : nat) : A :=
  nth (i * ncols a + j) (flat a) zero.

Definition tabulate (m n : nat) (f : nat -> nat -> A) : ndarray A :=
  mkarr m n (map (fun t => f (t / n) (t mod n)) (seq 0 (m * n))).

(** [np.zeros_like], [np.full] *)
Definition full (m n : nat) (v : A) : ndarray A := tabulate m n (fun _ _ => v).

(** [a[mask] = v] with [mask] a boolean array of the shape of [a] *)
Definition where_set (mask : nat -> nat -> bool) (v : A) (a : ndarray A) : ndarray A :=
  tabulate (nrows a) (ncols a) (fun i j => if mask i j then v else cell a i j).

(** [a[rs] = v] and [a[rs, cs] = v] with a scalar [v] *)
Definition set_rows (rs : Py.slice) (v : A) (a : ndarray A) : ndarray A :=
  where_set (fun i _ => Py.selects (Py.indices rs (nrows a)) i) v a.

Definition set_block (rs cs : Py.slice) (v : A) (a : ndarray A) : ndarray A :=
  where_set (fun i j => Py.selects (Py.indices rs (nrows a)) i
                        && Py.selects (Py.indices cs (ncols a)) j) v a.

(** [a.flat[s] = v] *)
Definition set_flat (s : Py.slice) (v : A) (a : ndarray A) : ndarray A :=
  tabulate (nrows a) (ncols a)
    (fun i j => if Py.selects (Py.indices s (size a)) (i * ncols a + j)
                then v else cell a i j).

(** [a[rs, cs]]: a new array of the selected rows and columns *)
Definition take (rs cs : Py.slice) (a : ndarray A) : ndarray A :=
  let ri := Py.indices rs (nrows a) in
  let ci := Py.indices cs (ncols a) in
  tabulate (length ri) (length ci) (fun k l => cell a (nth k ri 0) (nth l ci 0)).

(** Broadcasting of a value of shape [(r, c)] to a target of shape [(m, n)] *)
Definition broadcasts (v : ndarray A) (m n : nat) : bool :=
  ((nrows v =? m) || (nrows v =? 1)) && ((ncols v =? n) || (ncols v =? 1)).

Definition bcell (v : ndarray A) (i j : nat) : A :=
  cell v (if nrows v =? 1 then 0 else i) (if ncols v =? 1 then 0 else j).

(** [out[:] = v], and the [out=] argument of a ufunc *)
Definition store (v : ndarray A) (out : ndarray A) : Py.outcome (ndarray A) :=
  if broadcasts v (nrows out) (ncols out)
  then Py.Done (tabulate (nrows out) (ncols out) (bcell v))
  else Py.Raised Py.ValueError out.

(** [a[rs] = v] with an array [v] *)
Definition assign_rows (rs : Py.slice) (v : ndarray A) (a : ndarray A)
  : Py.outcome (ndarray A) :=
  let ri := Py.indices rs (nrows a) in
  if broadcasts v (length ri) (ncols a)
  then Py.Done (tabulate (nrows a) (ncols a)
                  (fun i j => match Py.index_of i ri with
                              | Some k => bcell v k j
                              | None => cell a i j
                              end))
  else Py.Raised Py.ValueError a.

(** [np.roll(a, (s0, s1), axis=(0, 1))] *)
Definition roll (s0 s1 : Z) (a : ndarray A) : ndarray A :=
  tabulate (nrows a) (ncols a)
    (fun i j => cell a (Z.to_nat ((Z.of_nat i - s0) mod Z.of_nat (nrows a)))
                       (Z.to_nat ((Z.of_nat j - s1) mod Z.of_nat (ncols a)))).

(** [np.fft.fftshift] rolls every axis by [n // 2], [np.fft.ifftshift] by
    [-(n // 2)]. *)
Definition fftshift (a : ndarray A) : ndarray A :=
  roll (Z.of_nat (nrows a / 2)) (Z.of_nat (ncols a / 2)) a.

Definition ifftshift (a : ndarray A) : ndarray A :=
  roll (- Z.of_nat (nrows a / 2)) (- Z.of_nat (ncols a / 2)) a.

(** [a.resize((m, n))] in place: the flat buffer is cut or padded with zeros *)
Definition resize (m n : nat) (a : ndarray A) : ndarray A :=
  mkarr m n (firstn (m * n) (flat a) ++ repeat zero (m * n - length (flat a))).

(** [a[mask]] with a boolean array: the selected samples, in raster order *)
Definition compress (mask : ndarray bool) (a : ndarray A) : list A :=
  map snd (filter fst (combine (flat mask) (flat a))).

(** [q.reshape(m, n)] of a one-dimensional array *)
Definition reshape (m n : nat) (q : list A) : ndarray A := mkarr m n q.

End Arrays.

(** Element-wise application of a function *)
Definition map {A B} (f : A -> B) (a : ndarray A) : ndarray B :=
  mkarr (nrows a) (ncols a) (List.map f (flat a)).

(** Element-wise combination with broadcasting of the second operand, as in
    [a += b] and [a *= b] *)
Definition zip_into {A B} {ZA : Zero A} {ZB : Zero B} (f : A -> B -> A)
  (a : ndarray A) (b : ndarray B) : Py.outcome (ndarray A) :=
  if broadcasts b (nrows a) (ncols a)
  then Py.Done (tabulate (nrows a) (ncols a) (fun i j => f (cell a i j) (bcell b i j)))
  else Py.Raised Py.ValueError a.

(** [np.zeros_like(a, dtype=...)] *)
Definition zeros_like {A B} {ZB : Zero B} (a : ndarray A) : ndarray B :=
  full (nrows a) (ncols a) zero.

(** [a[i, j] = v] and [a[i, j]] with non-negative in-range indices *)
Definition set_cell {A} {ZA : Zero A} (i j : nat) (v : A) (a : ndarray A) : ndarray A :=
  where_set (fun i' j' => (i' =? i) && (j' =? j)) v a.

(** A Python index on an axis of length [len]: negative indices count from
    the end, anything else out of range is an [IndexError]. *)
Definition norm_index (len : nat) (i : Z) : option nat :=
  if ((0 <=? i) && (i <? Z.of_nat len))%Z then Some (Z.to_nat i)
  else if ((- Z.of_nat len <=? i) && (i <? 0))%Z then Some (Z.to_nat (i + Z.of_nat len))
  else None.

(** [f(a[rs])] written back into [a[rs]] *)
Definition map_rows {A} {ZA : Zero A} (rs : Py.slice) (f : A -> A) (a : ndarray A)
  : ndarray A :=
  tabulate (nrows a) (ncols a)
    (fun i j => if Py.selects (Py.indices rs (nrows a)) i
                then f (cell a i j) else cell a i j).

Section Numerics.
Local Open Scope R_scope.

(** [np.fft.fft2]:
    A[k, l] = sum_i sum_j a[i, j] exp (-2 pi i (i k / M + j l / N)) *)
Definition fft2 (a : ndarray complex) : ndarray complex :=
  let M := nrows a in
  let N := ncols a in
  tabulate M N (fun k l =>
    C.sum M (fun i => C.sum N (fun j =>
      C.mul (cell a i j)
        (C.cis (- (2 * PI * (INR i * INR k / INR M + INR j * INR l / INR N))))))).

(** [np.fft.ifft2]:
    a[i, j] = 1/(M N) sum_k sum_l A[k, l] exp (2 pi i (i k / M + j l / N)) *)
Definition ifft2 (a : ndarray complex) : ndarray complex :=
  let M := nrows a in
  let N := ncols a in
  tabulate M N (fun i j =>
    C.scale
      (C.sum M (fun k => C.sum N (fun l =>
         C.mul (cell a k l)
           (C.cis (2 * PI * (INR k * INR i / INR M + INR l * INR j / INR N))))))
      (/ (INR M * INR N))).

Definition hypot (a b : R) : R := sqrt (a * a + b * b).

(** [a.max()], [a.min()] of a real array; [None] stands for the [ValueError]
    numpy raises on an empty array. *)
Definition amax (a : ndarray R) : option R :=
  match flat a with
  | [] => None
  | x :: l => Some (fold_left Rmax l x)
  end.

Definition amin (a : ndarray R) : option R :=
  match flat a with
  | [] => None
  | x :: l => Some (fold_left Rmin l x)
  end.

(** [a.max()] of a complex array: the reduction keeps the accumulator when it
    is greater or equal in the lexicographic order. *)
Definition cmax (a : ndarray complex) : option complex :=
  match flat a with
  | [] => None
  | x :: l => Some (fold_left (fun acc y => if C.geb acc y then acc else y) l x)
  end.

(** [np.mean] *)
Definition mean (a : ndarray R) : R :=
  fold_right Rplus 0 (flat a) / INR (length (flat a)).

(** [np.piecewise(x, condlist, funclist)] on one sample: the result starts at
    0 and every condition that holds overwrites it in turn; with one function
    more than conditions, the last one applies where no condition holds. *)
Definition piecewise1 (condlist : list (R -> bool)) (funclist : list (R -> R))
  (x : R) : R :=
  let conds :=
    if (length funclist =? S (length condlist))%nat
    then condlist ++ [fun v => negb (existsb (fun c => c v) condlist)]
    else condlist in
  fold_left (fun y (cf : (R -> bool) * (R -> R)) => if fst cf x then snd cf x else y)
    (combine conds funclist) 0.

Definition piecewise (x : ndarray R) (condlist : list (R -> bool))
  (funclist : list (R -> R)) : ndarray R :=
  map (piecewise1 condlist funclist) x.

(** [np.hamming(M)] and [np.outer] *)
Definition np_hamming (M : nat) : list R :=
  if (M <=? 1)%nat then repeat 1 M
  else List.map (fun n => 0.54 - 0.46 * cos (2 * PI * INR n / INR (M - 1))) (seq 0 M).

Definition outer (x y : list R) : ndarray R :=
  tabulate (length x) (length y) (fun i j => nth i x 0 * nth j y 0).

(** the C cast behind [astype(np.uint8)]: truncation, then wrap-around *)
Definition to_uint8 (x : R) : Z := (Rtrunc x mod 256)%Z.

End Numerics.

End Np.

(** ** [class ImageManipulators] *)

Record Window := mkWindow { ww : Q; wc : Q }.

Record ImageManipulators := mkIM {
  img : ndarray R;
  kspacedata : ndarray complex;
  image_display_data : ndarray Z;
  kspace_display_data : ndarray Z;
  orig_kspacedata : ndarray complex;
  kspace_abs : ndarray R;
  noise_map : ndarray R;
  signal_to_noise : Q;
  spikes : list (Z * Z);
  patches : list (Z * Z * Z)
}.

(** The constructor receives an image or raw k-space data ([is_image]). *)
Inductive pixel_data :=
| Image (a : ndarray R)
| RawData (a : ndarray complex).

Definition with_img (s : ImageManipulators) (a : ndarray R) :=
  mkIM a (kspacedata s) (image_display_data s) (kspace_display_data s)
    (orig_kspacedata s) (kspace_abs s) (noise_map s) (signal_to_noise s)
    (spikes s) (patches s).

Definition with_kspacedata (s : ImageManipulators) (a : ndarray complex) :=
  mkIM (img s) a (image_display_data s) (kspace_display_data s)
    (orig_kspacedata s) (kspace_abs s) (noise_map s) (signal_to_noise s)
    (spikes s) (patches s).

Definition with_image_display_data (s : ImageManipulators) (a : ndarray Z) :=
  mkIM (img s) (kspacedata s) a (kspace_display_data s)
    (orig_kspacedata s) (kspace_abs s) (noise_map s) (signal_to_noise s)
    (spikes s) (patches s).

Definition with_kspace_display_data (s : ImageManipulators) (a : ndarray Z) :=
  mkIM (img s) (kspacedata s) (image_display_data s) a
    (orig_kspacedata s) (kspace_abs s) (noise_map s) (signal_to_noise s)
    (spikes s) (patches s).

Definition with_orig_kspacedata (s : ImageManipulators) (a : ndarray complex) :=
  mkIM (img s) (kspacedata s) (image_display_data s) (kspace_display_data s)
    a (kspace_abs s) (noise_map s) (signal_to_noise s) (spikes s) (patches s).

Definition with_kspace_abs (s : ImageManipulators) (a : ndarray R) :=
  mkIM (img s) (kspacedata s) (image_display_data s) (kspace_display_data s)
    (orig_kspacedata s) a (noise_map s) (signal_to_noise s) (spikes s) (patches s).

Definition with_noise_map (s : ImageManipulators) (a : ndarray R) :=
  mkIM (img s) (kspacedata s) (image_display_data s) (kspace_display_data s)
    (orig_kspacedata s) (kspace_abs s) a (signal_to_noise s) (spikes s) (patches s).

Definition with_signal_to_noise (s : ImageManipulators) (q : Q) :=
  mkIM (img s) (kspacedata s) (image_display_data s) (kspace_display_data s)
    (orig_kspacedata s) (kspace_abs s) (noise_map s) q (spikes s) (patches s).

(** A call on one attribute of [self]: the attribute is updated with what the
    call left in it, whether it returned or raised. *)
Definition upd {T} (o : Py.outcome T) (set : T -> ImageManipulators)
  : Py.outcome ImageManipulators :=
  match o with
  | Py.Done t => Py.Done (set t)
  | Py.Raised e t => Py.Raised e (set t)
  end.

(** A call on a local array [t]; when it raises, the exception leaves the
    enclosing receiver [s] as it is. *)
Definition try {T S} (o : Py.outcome T) (s : S) (f : T -> Py.outcome S)
  : Py.outcome S :=
  match o with
  | Py.Done t => f t
  | Py.Raised e _ => Py.Raised e s
  end.

Section Transforms.
Local Open Scope R_scope.

(** [np.absolute(fftshift(ifft2(ifftshift(kspace))), out=out)];
    the FFT raises on an array with an axis of length 0. *)
Definition np_ifft (kspace : ndarray complex) (out : ndarray R)
  : Py.outcome (ndarray R) :=
  if (Np.size kspace =? 0)%nat then Py.Raised Py.ValueError out
  else Np.store (Np.map C.abs (Np.fftshift (Np.ifft2 (Np.ifftshift kspace)))) out.

(** [out[:] = fftshift(fft2(ifftshift(img)))] *)
Definition np_fft (img : ndarray R) (out : ndarray complex)
  : Py.outcome (ndarray complex) :=
  if (Np.size img =? 0)%nat then Py.Raised Py.ValueError out
  else Np.store (Np.fftshift (Np.fft2 (Np.ifftshift (Np.map C.of_real img)))) out.

Definition normalise (f : ndarray R) : Py.outcome (ndarray R) :=
  match Np.amin f, Np.amax f with
  | Some fmin, Some fmax =>
      if Reqb fmax fmin then Py.Done f
      else
        let coeff := fmax - fmin in
        Py.Done (Np.map (fun v => IZR (Rfloor ((v - fmin) / coeff * 255))) f)
  | _, _ => Py.Raised Py.ValueError f
  end.

Definition apply_window (f : ndarray R) (window_val : option Window)
  : Py.outcome (ndarray R) :=
  match Np.amax f, Np.amin f with
  | Some fmax, Some fmin =>
      if Reqb fmax fmin then Py.Done f
      else
        let ww := match window_val with Some w => Q2R (ww w) * fmax | None => fmax end in
        let wc := match window_val with Some w => Q2R (wc w) * fmax | None => ww / 2 end in
        let w_low := wc - ww / 2 in
        let w_high := wc + ww / 2 in
        Py.Done (Np.piecewise f
                   [fun v => Rleb v w_low; fun v => Rltb w_high v]
                   [fun _ => 0; fun _ => 255; fun x => ((x - wc) / ww + 0.5) * 255])
  | _, _ => Py.Raised Py.ValueError f
  end.

Definition prepare_displays (kscale : Z) (lut : option Window)
  (self : ImageManipulators) : Py.outcome ImageManipulators :=
  (* 1. Apply window to image *)
  Py.bind (upd (apply_window (img self) lut) (with_img self)) (fun s1 =>
  (* 2. Prepare kspace display *)
  Py.bind (upd (Np.store (Np.map C.abs (kspacedata s1)) (kspace_abs s1))
               (with_kspace_abs s1)) (fun s2 =>
  Py.bind (match Np.amax (kspace_abs s2) with
           | None => Py.Raised Py.ValueError s2
           | Some m =>
               if Rltb 0 m then
                 let scaling_c := powerRZ 10 kscale in
                 Py.bind (upd (Np.store
                                 (Np.map (fun v => ln (1 + v * scaling_c)) (kspace_abs s2))
                                 (kspace_abs s2))
                              (with_kspace_abs s2)) (fun s3 =>
                 upd (normalise (kspace_abs s3)) (with_kspace_abs s3))
               else Py.Done s2
           end) (fun s4 =>
  (* 3. Obtain uint8 type arrays *)
  Py.bind (upd (Np.store (Np.map Np.to_uint8 (img s4)) (image_display_data s4))
               (with_image_display_data s4)) (fun s5 =>
  upd (Np.store (Np.map Np.to_uint8 (kspace_abs s5)) (kspace_display_data s5))
      (with_kspace_display_data s5))))).

End Transforms.

Definition resize_arrays (size : nat * nat) (self : ImageManipulators)
  : ImageManipulators :=
  let (m, n) := size in
  mkIM (Np.resize m n (img self))
       (Np.resize m n (kspacedata self))
       (Np.resize m n (image_display_data self))
       (Np.resize m n (kspace_display_data self))
       (orig_kspacedata self)
       (Np.resize m n (kspace_abs self))
       (noise_map self) (signal_to_noise self) (spikes self) (patches self).

(** *** The k-space filters *)

Definition reduced_scan_percentage (kspace : ndarray complex) (percentage : Q)
  : ndarray complex :=
  if (Py.int percentage <? 100)%Z then
    let percentage_delete := (1 - percentage / 100)%Q in
    let lines_to_delete :=
      Py.round (percentage_delete * inject_Z (Z.of_nat (nrows kspace)) / 2)%Q in
    if (lines_to_delete =? 0)%Z then kspace
    else
      Np.set_rows (Py.from (- lines_to_delete)) zero
        (Np.set_rows (Py.from_to 0 lines_to_delete) zero kspace)
  else kspace.

(** [mask = x * x + y * y <= r * r] on the centred grids
    [y, x = np.ogrid[-a:rows - a, -b:cols - b]] *)
Definition circle_mask (rows cols : nat) (radius : Q) (i j : nat) : bool :=
  let r := (Np.hypot (INR rows) (INR cols) / 2 * Q2R radius / 100)%R in
  let a := rows / 2 in
  let b := cols / 2 in
  let y := (Z.of_nat i - Z.of_nat a)%Z in
  let x := (Z.of_nat j - Z.of_nat b)%Z in
  Rleb (IZR (x * x + y * y)) (r * r).

Definition high_pass_filter (kspace : ndarray complex) (radius : Q)
  : ndarray complex :=
  if Py.ltb 0 radius then
    Np.where_set (circle_mask (nrows kspace) (ncols kspace) radius) zero kspace
  else kspace.

Definition low_pass_filter (kspace : ndarray complex) (radius : Q)
  : ndarray complex :=
  if Py.ltb radius 100 then
    Np.where_set
      (fun i j => negb (circle_mask (nrows kspace) (ncols kspace) radius i j))
      zero kspace
  else kspace.

(** [randn] stands for the sample that [np.random.randn], called with the
    shape of [kspace], returns. *)
Definition add_noise (kspace : ndarray complex) (signal_to_noise : Q)
  (current_noise : ndarray R) (generate_new_noise : bool)
  (randn : nat -> nat -> R)
  : Py.outcome (ndarray complex * ndarray R) :=
  if Py.ltb signal_to_noise 30 then
    let regenerated :=
      if generate_new_noise then
        let mean_signal := Np.mean (Np.map C.abs kspace) in
        let std_noise := (mean_signal / Rpower 10 (Q2R signal_to_noise / 20))%R in
        Np.store (Np.map (Rmult std_noise)
                    (Np.tabulate (nrows kspace) (ncols kspace) randn))
                 current_noise
      else Py.Done current_noise in
    match regenerated with
    | Py.Raised e noise => Py.Raised e (kspace, noise)
    | Py.Done noise =>
        match Np.zip_into (fun z x => C.add z (C.of_real x)) kspace noise with
        | Py.Done k => Py.Done (k, noise)
        | Py.Raised e k => Py.Raised e (k, noise)
        end
    end
  else Py.Done (kspace, current_noise).

Definition partial_fourier (kspace : ndarray complex) (percentage : Q) (zf : bool)
  : Py.outcome (ndarray complex) :=
  if negb (Py.int percentage =? 100)%Z then
    let percentage := (1 - percentage / 100)%Q in
    let rows_to_skip :=
      Py.round (percentage * (inject_Z (Z.of_nat (nrows kspace)) / 2 - 1))%Q in
    if negb (rows_to_skip =? 0)%Z && zf then
      Py.Done (Np.set_rows (Py.from (- rows_to_skip)) zero kspace)
    else if negb (rows_to_skip =? 0)%Z then
      let shift_hor := if Nat.even (ncols kspace) then 1%Z else 0%Z in
      let shift_ver := if (nrows kspace mod 2 =? 0)%nat then 1%Z else 0%Z in
      let mirrored :=
        Np.roll shift_ver shift_hor (Np.take Py.reversed Py.reversed kspace) in
      Py.bind
        (Np.assign_rows (Py.from (- rows_to_skip))
           (Np.take (Py.from (- rows_to_skip)) Py.all mirrored) kspace)
        (fun k => Py.Done (Np.map_rows (Py.from (- rows_to_skip)) C.conj k))
    else Py.Done kspace
  else Py.Done kspace.

Definition hamming (kspace : ndarray complex) : Py.outcome (ndarray complex) :=
  let window := Np.outer (Np.np_hamming (nrows kspace)) (Np.np_hamming (ncols kspace)) in
  Np.zip_into C.scale kspace window.

(** [undersample] is called on [im.kspacedata] and resizes the arrays of the
    slice [im] when it compresses: the model takes the slice. *)
Definition undersample (self : ImageManipulators) (factor : Z) (compress : bool)
  : Py.outcome ImageManipulators :=
  let kspace := kspacedata self in
  if (1 <? factor)%Z then
    let mask := Np.full (nrows kspace) (ncols kspace) true in
    let midline := Z.of_nat (nrows kspace / 2) in
    let mask := Np.set_rows (Py.from_step midline factor) false mask in
    let mask := Np.set_rows (Py.from_step midline (- factor)) false mask in
    if compress then
      let q := Np.compress (Np.map negb mask) kspace in
      if ncols kspace =? 0 then Py.Raised Py.ZeroDivisionError self
      else
        let r := length q / ncols kspace in
        if r * ncols kspace =? length q then
          let self' := resize_arrays (r, ncols kspace) self in
          upd (Np.store (Np.reshape r (ncols kspace) q) (kspacedata self'))
              (with_kspacedata self')
        else Py.Raised Py.ValueError self
    else
      Py.Done (with_kspacedata self
                 (Np.where_set (fun i j => Np.cell mask i j) zero kspace))
  else Py.Done self.

Definition decrease_dc (kspace : ndarray complex) (percentage : Z)
  : Py.outcome (ndarray complex) :=
  let x := nrows kspace / 2 in
  let y := ncols kspace / 2 in
  if (x <? nrows kspace) && (y <? ncols kspace) then
    Py.Done (Np.set_cell x y
               (C.scale (Np.cell kspace x y) (Q2R ((100 - inject_Z percentage) / 100)))
               kspace)
  else Py.Raised Py.IndexError kspace.

(** the loop [for spike in spikes: kspace[spike] = spike_intensity] *)
Fixpoint write_spikes (spike_intensity : complex) (spikes : list (Z * Z))
  (kspace : ndarray complex) : Py.outcome (ndarray complex) :=
  match spikes with
  | [] => Py.Done kspace
  | (r, c) :: rest =>
      match Np.norm_index (nrows kspace) r, Np.norm_index (ncols kspace) c with
      | Some i, Some j =>
          write_spikes spike_intensity rest (Np.set_cell i j spike_intensity kspace)
      | _, _ => Py.Raised Py.IndexError kspace
      end
  end.

Definition apply_spikes (kspace : ndarray complex) (spikes : list (Z * Z))
  : Py.outcome (ndarray complex) :=
  match Np.cmax kspace with
  | None => Py.Raised Py.ValueError kspace
  | Some m =>
      let spike_intensity := C.scale m 2 in
      write_spikes spike_intensity spikes kspace
  end.

Definition apply_patches (kspace : ndarray complex) (patches : list (Z * Z * Z))
  : ndarray complex :=
  fold_left
    (fun k (patch : Z * Z * Z) =>
       let '(x, y, size) := patch in
       Np.set_block (Py.from_to (Z.max (x - size) 0) (x + size + 1))
                    (Py.from_to (Z.max (y - size) 0) (y + size + 1)) zero k)
    patches kspace.

Definition filling_linear (kspace : ndarray complex) (value : Q) : ndarray complex :=
  Np.set_flat
    (Py.from (Py.int (Py.floordiv (inject_Z (Z.of_nat (Np.size kspace)) * value) 100)))
    zero kspace.

Definition filling_centric (kspace : ndarray complex) (value : Q)
  : Py.outcome (ndarray complex) :=
  let ksp_centric : ndarray complex := Np.zeros_like kspace in
  let half := Z.of_nat (nrows kspace / 2) in
  let even_rows := Py.from_step 0 2 in
  let odd_rows := Py.from_step 1 2 in
  let upper := Py.from_step (half - 1) (-1) in
  let lower := Py.from half in
  (* reorder *)
  try (Np.assign_rows even_rows (Np.take lower Py.all kspace) ksp_centric) kspace
    (fun c1 =>
  try (Np.assign_rows odd_rows (Np.take upper Py.all kspace) c1) kspace
    (fun c2 =>
  let c3 :=
    Np.set_flat
      (Py.from (Py.int (inject_Z (Z.of_nat (Np.size kspace)) * value / 100)))
      zero c2 in
  (* original order *)
  Py.bind (Np.assign_rows upper (Np.take odd_rows Py.all c3) kspace) (fun k1 =>
  Np.assign_rows lower (Np.take even_rows Py.all c3) k1))).

Definition filling_ss_epi_blipped (kspace : ndarray complex) (value : Q)
  : Py.outcome (ndarray complex) :=
  let ksp_epi : ndarray complex := Np.zeros_like kspace in
  let even_rows := Py.Slice None None (Some 2%Z) in
  let odd_rows := Py.from_step 1 2 in
  try (Np.assign_rows even_rows (Np.take even_rows Py.all kspace) ksp_epi) kspace
    (fun e1 =>
  try (Np.assign_rows odd_rows (Np.take odd_rows Py.reversed kspace) e1) kspace
    (fun e2 =>
  let e3 :=
    Np.set_flat
      (Py.from (Py.int (inject_Z (Z.of_nat (Np.size kspace)) * value / 100)))
      zero e2 in
  Py.bind (Np.assign_rows even_rows (Np.take even_rows Py.all e3) kspace) (fun k1 =>
  Np.assign_rows odd_rows (Np.take odd_rows Py.reversed e3) k1))).

Definition filling (kspace : ndarray complex) (value : Q) (mode : Z)
  : Py.outcome (ndarray complex) :=
  if (mode =? 0)%Z then Py.Done (filling_linear kspace value)
  else if (mode =? 1)%Z then filling_centric kspace value
  else if (mode =? 2)%Z then filling_ss_epi_blipped kspace value
  else Py.Done kspace.

(** *** Construction: [__init__] *)

Definition init (pd : pixel_data) : Py.outcome ImageManipulators :=
  let img0 : ndarray R :=
    match pd with Image a => a | RawData a => Np.zeros_like a end in
  let kspacedata0 : ndarray complex :=
    match pd with Image a => Np.zeros_like a | RawData a => a end in
  let image_display_data0 := Np.map Np.to_uint8 img0 in
  let kspace_abs0 : ndarray R := Np.zeros_like kspacedata0 in
  let self :=
    mkIM img0 kspacedata0 image_display_data0
      (Np.zeros_like image_display_data0)
      (Np.zeros_like kspacedata0)
      kspace_abs0
      (Np.zeros_like kspace_abs0)
      30 [] [] in
  Py.bind
    (match pd with
     | Image _ => upd (np_fft (img self) (kspacedata self)) (with_kspacedata self)
     | RawData _ => upd (np_ifft (kspacedata self) (img self)) (with_img self)
     end) (fun s1 =>
  Py.bind (upd (Np.store (kspacedata s1) (orig_kspacedata s1))
               (with_orig_kspacedata s1)) (fun s2 =>
  prepare_displays (-3) None s2)).

(** ** [MainApp.image_change] *)

(** The values read from the user interface controls during one recompute. *)
Record Controls := mkControls {
  noise_slider : Q;
  rdc_slider_enabled : bool;
  rdc_slider : Q;
  partial_fourier_slider_enabled : bool;
  partial_fourier_slider : Q;
  zero_fill : bool;
  high_pass_slider : Q;
  low_pass_slider : Q;
  undersample_kspace : Q;
  compress : bool;
  decrease_dc_value : Q;
  hamming_checked : bool;
  filling_value : Q;
  filling_mode : Z;
  ksp_const : Q;
  window_ww : Q;
  window_wc : Q
}.

Definition image_change (ui : Controls) (randn : nat -> nat -> R)
  (im : ImageManipulators) : Py.outcome ImageManipulators :=
  (* Get a copy of the original k-space data to play with *)
  let im := resize_arrays (Np.shape (orig_kspacedata im)) im in
  Py.bind (upd (Np.store (orig_kspacedata im) (kspacedata im))
               (with_kspacedata im)) (fun im =>
  (* 01 - Noise *)
  let new_snr := noise_slider ui in
  let generate_new := negb (Qeq_bool new_snr (signal_to_noise im)) in
  let im := if generate_new then with_signal_to_noise im new_snr else im in
  Py.bind (upd (add_noise (kspacedata im) new_snr (noise_map im) generate_new randn)
               (fun kn => with_noise_map (with_kspacedata im (fst kn)) (snd kn)))
    (fun im =>
  (* 02 - Spikes *)
  Py.bind (upd (apply_spikes (kspacedata im) (spikes im)) (with_kspacedata im))
    (fun im =>
  (* 03 - Patches *)
  let im := with_kspacedata im (apply_patches (kspacedata im) (patches im)) in
  (* 04 - Reduced scan percentage *)
  let im :=
    if rdc_slider_enabled ui
    then with_kspacedata im (reduced_scan_percentage (kspacedata im) (rdc_slider ui))
    else im in
  (* 05 - Partial fourier *)
  Py.bind (if partial_fourier_slider_enabled ui
           then upd (partial_fourier (kspacedata im) (partial_fourier_slider ui)
                       (zero_fill ui))
                    (with_kspacedata im)
           else Py.Done im) (fun im =>
  (* 06 - High pass filter *)
  let im := with_kspacedata im (high_pass_filter (kspacedata im) (high_pass_slider ui)) in
  (* 07 - Low pass filter *)
  let im := with_kspacedata im (low_pass_filter (kspacedata im) (low_pass_slider ui)) in
  (* 08 - Undersample k-space *)
  Py.bind (if negb (Py.int (undersample_kspace ui) =? 0)%Z
           then undersample im (Py.int (undersample_kspace ui)) (compress ui)
           else Py.Done im) (fun im =>
  (* 09 - DC signal decrease *)
  Py.bind (if (1 <? Py.int (decrease_dc_value ui))%Z
           then upd (decrease_dc (kspacedata im) (Py.int (decrease_dc_value ui)))
                    (with_kspacedata im)
           else Py.Done im) (fun im =>
  (* 10 - Hamming filter *)
  Py.bind (if hamming_checked ui
           then upd (hamming (kspacedata im)) (with_kspacedata im)
           else Py.Done im) (fun im =>
  (* 11 - Acquisition simulation progress *)
  Py.bind (if Py.ltb (filling_value ui) 100
           then upd (filling (kspacedata im) (filling_value ui) (filling_mode ui))
                    (with_kspacedata im)
           else Py.Done im) (fun im =>
  (* Get the resulting image *)
  Py.bind (upd (np_ifft (kspacedata im) (img im)) (with_img im)) (fun im =>
  (* Get display properties *)
  prepare_displays (Py.int (ksp_const ui))
    (Some (mkWindow (window_ww ui) (window_wc ui))) im))))))))).

(** ** [MainApp]: the recorded spikes and patches *)

Definition with_spikes (s : ImageManipulators) (l : list (Z * Z)) :=
  mkIM (img s) (kspacedata s) (image_display_data s) (kspace_display_data s)
    (orig_kspacedata s) (kspace_abs s) (noise_map s) (signal_to_noise s)
    l (patches s).

Definition with_patches (s : ImageManipulators) (l : list (Z * Z * Z)) :=
  mkIM (img s) (kspacedata s) (image_display_data s) (kspace_display_data s)
    (orig_kspacedata s) (kspace_abs s) (noise_map s) (signal_to_noise s)
    (spikes s) l.

(** [im.spikes.append((int(mouse_y), int(mouse_x)))] *)
Definition add_spike (mouse_x mouse_y : Q) (im : ImageManipulators) :=
  with_spikes im (spikes im ++ [(Py.int mouse_y, Py.int mouse_x)]).

(** [im.patches.append((int(mouse_y), int(mouse_x), radius))] *)
Definition add_patch (mouse_x mouse_y : Q) (radius : Z) (im : ImageManipulators) :=
  with_patches im (patches im ++ [(Py.int mouse_y, Py.int mouse_x, radius)]).

Definition delete_spikes (im : ImageManipulators) := with_spikes im [].

Definition delete_patches (im : ImageManipulators) := with_patches im [].

(** [if im.patches: del im.patches[-1]] *)
Definition undo_patch (im : ImageManipulators) :=
  match patches im with
  | [] => im
  | _ :: _ => with_patches im (removelast (patches im))
  end.

Definition undo_spike (im : ImageManipulators) :=
  match spikes im with
  | [] => im
  | _ :: _ => with_spikes im (removelast (spikes im))
  end.

(** * Vocabulary of the specification *)



(** Partial Fourier: position [i] of an axis of length [n], once the axis is
    reversed and then, when [n] is even, circularly shifted by 1, holds the
    sample of index [n - 1 - ((i - s) mod n)] with [s = 1] for even [n] and
    [s = 0] for odd [n]. *)
Definition mirror_index (n i : nat) : nat :=
  let s := if Nat.even n then 1%Z else 0%Z in
  n - 1 - Z.to_nat ((Z.of_nat i - s) mod Z.of_nat n).

(** Spikes: whether one of the recorded coordinates designates cell [(i, j)]
    of an array of shape [(rows, cols)]. *)
Definition spike_at (rows cols : nat) (spikes : list (Z * Z)) (i j : nat) : bool :=
  existsb (fun s : Z * Z =>
             match Np.norm_index rows (fst s), Np.norm_index cols (snd s) with
             | Some i', Some j' => (i =? i') && (j =? j')
             | _, _ => false
             end) spikes.

(** numpy's order on complex numbers, as a proposition *)
Definition lex_ge (a b : complex) : Prop :=
  (re b < re a)%R \/ (re a = re b /\ (im b <= im a)%R).

(** Fourier kernels: the point of the unit circle at the fraction [x / M] of a
    full turn. *)
Definition rot (M : nat) (x : R) : complex := C.cis (2 * PI * x / INR M).

(** The shape invariant of a slice: the image buffer, the two display buffers
    and the working k-space have one shape. *)
Definition shapes_agree (s : ImageManipulators) : Prop :=
  Np.shape (img s) = Np.shape (kspacedata s) /\
  Np.shape (image_display_data s) = Np.shape (kspacedata s) /\
  Np.shape (kspace_display_data s) = Np.shape (kspacedata s).

(** The operations of the engine, each on the buffers of the slice it is
    invoked on, with the arguments [image_change] passes. *)
Inductive operation :=
| AddNoise (snr : Q) (generate_new_noise : bool) (randn : nat -> nat -> R)
| ApplySpikes
| ApplyPatches
| ReducedScanPercentage (percentage : Q)
| PartialFourier (percentage : Q) (zf : bool)
| HighPassFilter (radius : Q)
| LowPassFilter (radius : Q)
| Undersample (factor : Z) (compress : bool)
| DecreaseDc (percentage : Z)
| Hamming
| Filling (value : Q) (mode : Z)
| ForwardTransform
| InverseTransform
| PrepareDisplays (kscale : Z) (lut : option Window)
| ResizeArrays (size : nat * nat)
| ImageChange (ui : Controls) (randn : nat -> nat -> R).

Definition run (op : operation) (s : ImageManipulators)
  : Py.outcome ImageManipulators :=
  match op with
  | AddNoise snr g randn =>
      upd (add_noise (kspacedata s) snr (noise_map s) g randn)
          (fun kn => with_noise_map (with_kspacedata s (fst kn)) (snd kn))
  | ApplySpikes => upd (apply_spikes (kspacedata s) (spikes s)) (with_kspacedata s)
  | ApplyPatches =>
      Py.Done (with_kspacedata s (apply_patches (kspacedata s) (patches s)))
  | ReducedScanPercentage p =>
      Py.Done (with_kspacedata s (reduced_scan_percentage (kspacedata s) p))
  | PartialFourier p zf =>
      upd (partial_fourier (kspacedata s) p zf) (with_kspacedata s)
  | HighPassFilter r => Py.Done (with_kspacedata s (high_pass_filter (kspacedata s) r))
  | LowPassFilter r => Py.Done (with_kspacedata s (low_pass_filter (kspacedata s) r))
  | Undersample factor compress => undersample s factor compress
  | DecreaseDc p => upd (decrease_dc (kspacedata s) p) (with_kspacedata s)
  | Hamming => upd (hamming (kspacedata s)) (with_kspacedata s)
  | Filling v mode => upd (filling (kspacedata s) v mode) (with_kspacedata s)
  | ForwardTransform => upd (np_fft (img s) (kspacedata s)) (with_kspacedata s)
  | InverseTransform => upd (np_ifft (kspacedata s) (img s)) (with_img s)
  | PrepareDisplays kscale lut => prepare_displays kscale lut s
  | ResizeArrays size => Py.Done (resize_arrays size s)
  | ImageChange ui randn => image_change ui randn s
  end.

(** The operations that call [resize_arrays]. *)
Definition calls_resize_arrays (op : operation) : bool :=
  match op with
  | Undersample _ true | ResizeArrays _ | ImageChange _ _ => true
  | _ => false
  end.

(** The four buffers of [s'] have the shapes they have in [s]. *)
Definition same_shapes (s s' : ImageManipulators) : Prop :=
  Np.shape (img s') = Np.shape (img s) /\
  Np.shape (kspacedata s') = Np.shape (kspacedata s) /\
  Np.shape (image_display_data s') = Np.shape (image_display_data s) /\
  Np.shape (kspace_display_data s') = Np.shape (kspace_display_data s).

(** The settings of the controls under which [image_change] skips or
    neutralises every filter. *)
Definition filters_disabled (ui : Controls) : Prop :=
  (30 <= noise_slider ui)%Q /\
  (rdc_slider_enabled ui = false \/ (100 <= Py.int (rdc_slider ui))%Z) /\
  (partial_fourier_slider_enabled ui = false
   \/ Py.int (partial_fourier_slider ui) = 100%Z) /\
  (high_pass_slider ui <= 0)%Q /\
  (100 <= low_pass_slider ui)%Q /\
  (Py.int (undersample_kspace ui) <= 1)%Z /\
  (Py.int (decrease_dc_value ui) <= 1)%Z /\
  hamming_checked ui = false /\
  (100 <= filling_value ui)%Q.

(** Patches: whether cell [(i, j)] lies in the square of half width [size]
    centred at [(x, y)]. *)
Definition in_patch (i j : nat) (patch : Z * Z * Z) : bool :=
  let '(x, y, size) := patch in
  ((x - size <=? Z.of_nat i) && (Z.of_nat i <=? x + size)
   && (y - size <=? Z.of_nat j) && (Z.of_nat j <=? y + size))%Z.

(** The index of the opposite frequency on an axis of length [M]. *)
Definition opposite (M k : nat) : nat := if k =? 0 then 0 else M - k.

(** Undersampling: the rows at a multiple of [factor] from the midline. *)
Definition row_kept (rows : nat) (factor : Z) (i : nat) : bool :=
  ((Z.of_nat i - Z.of_nat (rows / 2)) mod factor =? 0)%Z.

(** Echo-planar filling: the position of sample [(i, j)] on the zig-zag
    trajectory, odd rows being traversed from right to left. *)
Definition zigzag (cols i j : nat) : nat :=
  i * cols + (if Nat.even i then j else cols - 1 - j).

(** Centric filling: the rank of row [i] in the acquisition order, which
    starts at the midline [rows // 2] and alternates below and above it. *)
Definition centric_row (rows i : nat) : nat :=
  let half := rows / 2 in
  if half <=? i then 2 * (i - half) else 2 * (half - 1 - i) + 1.

(** * Properties *)

(** ** The Python scalars and slices on concrete inputs *)

Example round_ties_to_even :
  (Py.round (1 # 2), Py.round (3 # 2), Py.round (5 # 2), Py.round (- (1 # 2)),
   Py.round (7 # 4), Py.round (- (7 # 4)))
  = (0, 2, 2, 0, 2, -2)%Z.
Proof. reflexivity. Qed.

Example int_truncates :
  (Py.int (999 # 10), Py.int (- (7 # 2)), Py.int (1005 # 10)) = (99, -3, 100)%Z.
Proof. reflexivity. Qed.

Example slices_on_five_rows :
  Py.indices (Py.from_to 0 2) 5 = [0; 1] /\
  Py.indices (Py.from (-2)) 5 = [3; 4] /\
  Py.indices (Py.from (-7)) 5 = [0; 1; 2; 3; 4] /\
  Py.indices (Py.from_step 2 2) 5 = [2; 4] /\
  Py.indices (Py.from_step 2 (-2)) 5 = [2; 0] /\
  Py.indices (Py.from_step 1 (-1)) 5 = [1; 0] /\
  Py.indices Py.reversed 5 = [4; 3; 2; 1; 0] /\
  Py.indices (Py.from_step (-1) (-1)) 1 = [0].
Proof. repeat split. Qed.

Example mirror_of_four_and_three :
  map (mirror_index 4) [0; 1; 2; 3] = [0; 3; 2; 1] /\
  map (mirror_index 3) [0; 1; 2] = [2; 1; 0].
Proof. split; reflexivity. Qed.

(** Undersampling five rows by 2 keeps the rows 0, 2 and 4. *)
Example undersample_five_rows (im : ImageManipulators) (a b c d e : complex) :
  let s := with_kspacedata im (mkarr 5 1 [a; b; c; d; e]) in
  kspacedata (Py.final (undersample s 2 false))
  = mkarr 5 1 [a; zero; c; zero; e] /\
  kspacedata (Py.final (undersample s 2 true)) = mkarr 3 1 [a; c; e].
Proof. split; reflexivity. Qed.

(** ** Arrays *)

Section ArrayFacts.
Context {A : Type} {ZA : Zero A}.

Lemma tabulate_nrows m n (f : nat -> nat -> A) : nrows (Np.tabulate m n f) = m.
Proof. reflexivity. Qed.

Lemma tabulate_ncols m n (f : nat -> nat -> A) : ncols (Np.tabulate m n f) = n.
Proof. reflexivity. Qed.

Lemma tabulate_well_shaped m n (f : nat -> nat -> A) :
  Np.well_shaped (Np.tabulate m n f).
Proof.
  unfold Np.well_shaped, Np.size, Np.tabulate; simpl.
  now rewrite length_map, length_seq.
Qed.

Lemma index_in_range m n i j : i < m -> j < n -> i * n + j < m * n.
Proof. intros Hi Hj. nia. Qed.

Lemma index_div n i j : j < n -> (i * n + j) / n = i.
Proof.
  intros Hj. rewrite Nat.div_add_l by lia.
  rewrite Nat.div_small by lia. lia.
Qed.

Lemma index_mod n i j : j < n -> (i * n + j) mod n = j.
Proof.
  intros Hj. rewrite Nat.add_comm, Nat.Div0.mod_add.
  now apply Nat.mod_small.
Qed.

Lemma cell_tabulate m n (f : nat -> nat -> A) i j :
  i < m -> j < n -> Np.cell (Np.tabulate m n f) i j = f i j.
Proof.
  intros Hi Hj. unfold Np.cell, Np.tabulate; simpl.
  pose proof (index_in_range Hi Hj) as Hlt.
  rewrite nth_indep with (d' := f (0 / n) (0 mod n))
    by now rewrite length_map, length_seq.
  rewrite (map_nth (fun t => f (t / n) (t mod n)) (seq 0 (m * n)) 0).
  rewrite seq_nth by exact Hlt. simpl.
  now rewrite index_div, index_mod.
Qed.

(** Two well-shaped arrays of one shape with the same cells are equal. *)
Lemma array_ext (a b : ndarray A) :
  Np.well_shaped a -> Np.well_shaped b ->
  nrows a = nrows b -> ncols a = ncols b ->
  (forall i j, i < nrows a -> j < ncols a -> Np.cell a i j = Np.cell b i j) ->
  a = b.
Proof.
  destruct a as [m n la], b as [m' n' lb].
  unfold Np.well_shaped, Np.size, Np.cell; simpl.
  intros Ha Hb -> -> Hc. f_equal.
  apply nth_ext with (d := zero) (d' := zero); [congruence|].
  intros t Ht. rewrite Ha in Ht.
  assert (Hn : n' <> 0) by (intros ->; lia).
  specialize (Hc (t / n') (t mod n')).
  rewrite (Nat.mul_comm (t / n')), <- Nat.div_mod_eq in Hc.
  apply Hc.
  - apply Nat.Div0.div_lt_upper_bound; lia.
  - now apply Nat.mod_upper_bound.
Qed.

Lemma tabulate_cell (a : ndarray A) :
  Np.well_shaped a ->
  Np.tabulate (nrows a) (ncols a) (Np.cell a) = a.
Proof.
  intros Ha. apply array_ext; auto using tabulate_well_shaped.
  intros i j Hi Hj. now rewrite cell_tabulate.
Qed.

End ArrayFacts.

(** ** Slices *)

Lemma index_of_In i l : (exists k, Py.index_of i l = Some k) <-> In i l.
Proof.
  induction l as [|x l IH]; simpl.
  - split; [intros [k Hk]; discriminate | tauto].
  - destruct (Nat.eqb_spec i x) as [->|Hne].
    + split; [auto | intros _; now exists 0].
    + split.
      * intros [k Hk]. right. apply IH.
        destruct (Py.index_of i l) as [k'|]; [now exists k' | discriminate].
      * intros [Heq | Hin]; [congruence|].
        apply IH in Hin as [k ->]. now exists (S k).
Qed.

Lemma selects_In i l : Py.selects l i = true <-> In i l.
Proof.
  rewrite <- index_of_In. unfold Py.selects.
  destruct (Py.index_of i l) as [k|].
  - split; [intros _; now exists k | reflexivity].
  - split; [discriminate | intros [k Hk]; discriminate].
Qed.

Lemma selects_iff i l (P : Prop) :
  (In i l <-> P) -> forall b : bool, (b = true <-> P) -> Py.selects l i = b.
Proof.
  intros HP b Hb. destruct b.
  - apply selects_In, HP, Hb. reflexivity.
  - destruct (Py.selects l i) eqn:E; [|reflexivity].
    apply selects_In, HP, Hb in E. discriminate.
Qed.

(** With the default step a slice selects the interval between its adjusted
    bounds. *)
Lemma in_unit_step (a b : Z) (i : nat) :
  (0 <= a)%Z ->
  In i (map (fun t => Z.to_nat (a + Z.of_nat t * 1))
          (seq 0 (Z.to_nat (if (a <? b)%Z then ((b - a - 1) / 1 + 1)%Z else 0%Z))))
  <-> (a <= Z.of_nat i < b)%Z.
Proof.
  intros Ha. rewrite in_map_iff. setoid_rewrite in_seq.
  destruct (Z.ltb_spec a b) as [Hab|Hab].
  - rewrite Z.div_1_r. split.
    + intros [t [<- Ht]]. lia.
    + intros Hi. exists (Z.to_nat (Z.of_nat i - a)). lia.
  - split; [intros [t [_ Ht]]; simpl in Ht; lia | lia].
Qed.

Lemma adjust_unit_range len i :
  (0 <= len)%Z -> (0 <= Py.adjust len 1 i <= len)%Z.
Proof.
  intros Hlen. unfold Py.adjust.
  repeat match goal with
         | |- context [(?x <? ?y)%Z] => destruct (Z.ltb_spec x y)
         | |- context [(?x <=? ?y)%Z] => destruct (Z.leb_spec x y)
         end; lia.
Qed.

Lemma in_from_to a b len i :
  In i (Py.indices (Py.from_to a b) len)
  <-> (Py.adjust (Z.of_nat len) 1 a <= Z.of_nat i < Py.adjust (Z.of_nat len) 1 b)%Z.
Proof.
  unfold Py.indices, Py.from_to; simpl.
  apply in_unit_step. apply adjust_unit_range. lia.
Qed.

Lemma in_from a len i :
  In i (Py.indices (Py.from a) len)
  <-> (Py.adjust (Z.of_nat len) 1 a <= Z.of_nat i < Z.of_nat len)%Z.
Proof.
  unfold Py.indices, Py.from; simpl.
  apply in_unit_step. apply adjust_unit_range. lia.
Qed.

(** ** Python scalars *)

Lemma percent_complement_pos (p : Q) : (p < 100)%Q -> (0 < 1 - p / 100)%Q.
Proof.
  intros Hp. assert (p / 100 < 1)%Q by (apply Qlt_shift_div_r; [reflexivity | lra]).
  lra.
Qed.

Lemma int_lt_100 (p : Q) : (p < 100)%Q -> (Py.int p < 100)%Z.
Proof.
  destruct p as [n d]. unfold Qlt, Py.int; simpl. intros H.
  destruct (Z.le_gt_cases 0 n) as [Hn|Hn].
  - apply Z.quot_lt_upper_bound; lia.
  - assert (0 <= (- n) ÷ Z.pos d)%Z by (apply Z.quot_pos; lia).
    rewrite <- (Z.opp_involutive n), Z.quot_opp_l by lia. lia.
Qed.


Lemma round_nonneg (q : Q) : (0 <= q)%Q -> (0 <= Py.round q)%Z.
Proof.
  intros Hq. unfold Py.round.
  assert (0 <= Qfloor q)%Z.
  { rewrite <- (Qfloor_Z 0). now apply Qfloor_resp_le. }
  destruct (Qcompare _ _); [destruct (Z.even _) | |]; lia.
Qed.

(** ** Masked assignment *)

Section MaskFacts.
Context {A : Type} {ZA : Zero A}.

Lemma cell_where_set mask (v : A) a i j :
  i < nrows a -> j < ncols a ->
  Np.cell (Np.where_set mask v a) i j = if mask i j then v else Np.cell a i j.
Proof. intros. unfold Np.where_set. now rewrite cell_tabulate. Qed.

Lemma where_set_well_shaped mask (v : A) a : Np.well_shaped (Np.where_set mask v a).
Proof. apply tabulate_well_shaped. Qed.

Lemma cell_set_rows rs (v : A) a i j :
  i < nrows a -> j < ncols a ->
  Np.cell (Np.set_rows rs v a) i j =
  if Py.selects (Py.indices rs (nrows a)) i then v else Np.cell a i j.
Proof. intros. unfold Np.set_rows. now rewrite cell_where_set. Qed.

(** [a[-n:] = v] reaches the rows from [rows - n] on, for [n > 0]. *)
Lemma selects_last n rows i :
  (0 < n)%Z -> i < rows ->
  Py.selects (Py.indices (Py.from (- n)) rows) i = (Z.of_nat rows - n <=? Z.of_nat i)%Z.
Proof.
  intros Hn Hi. apply selects_iff with (P := (Z.of_nat rows - n <= Z.of_nat i)%Z).
  - rewrite in_from. unfold Py.adjust.
    destruct (Z.ltb_spec (- n) 0); [|lia].
    destruct (Z.ltb_spec (- n + Z.of_nat rows) 0); simpl; lia.
  - apply Z.leb_le.
Qed.


End MaskFacts.

(** ** Reduced scan percentage *)





(** ** Linear filling *)

Section FlatFacts.
Context {A : Type} {ZA : Zero A}.


Lemma cell_div_mod (a : ndarray A) t :
  Np.cell a (t / ncols a) (t mod ncols a) = nth t (flat a) zero.
Proof.
  unfold Np.cell. f_equal.
  pose proof (Nat.div_mod_eq t (ncols a)). lia.
Qed.


(** [a.flat[start:] = v] reaches the flat indices from [start] on. *)
Lemma selects_tail start len t :
  (0 <= start)%Z -> t < len ->
  Py.selects (Py.indices (Py.from start) len) t = (start <=? Z.of_nat t)%Z.
Proof.
  intros Hs Ht. apply selects_iff with (P := (start <= Z.of_nat t)%Z).
  - rewrite in_from. unfold Py.adjust.
    change (1 <? 0)%Z with false; cbv iota.
    destruct (Z.ltb_spec start 0); [lia|].
    destruct (Z.leb_spec (Z.of_nat len) start); lia.
  - apply Z.leb_le.
Qed.

End FlatFacts.

Lemma int_floordiv (x y : Q) : Py.int (Py.floordiv x y) = Qfloor (x / y).
Proof. unfold Py.floordiv, Py.int; simpl. apply Z.quot_1_r. Qed.




(** ** Boundary parameters *)

Lemma ltb_false_of_le (x y : Q) : (y <= x)%Q -> Py.ltb x y = false.
Proof.
  intros H. unfold Py.ltb. apply negb_false_iff. now apply Qle_bool_iff.
Qed.

Lemma ltb_true_of_lt (x y : Q) : (x < y)%Q -> Py.ltb x y = true.
Proof.
  intros H. unfold Py.ltb. apply negb_true_iff.
  destruct (Qle_bool y x) eqn:E; [|reflexivity].
  apply Qle_bool_iff in E. lra.
Qed.

(** C8. Boundary parameters disable a filter instead of raising:
    [undersample] with an acceleration factor [<= 1] returns and leaves the
    slice, hence the k-space and its shape, unchanged, and [high_pass_filter]
    with a radius [<= 0] leaves the k-space unchanged. *)
Theorem boundary_parameters_disable
  (im : ImageManipulators) (k : ndarray complex)
  (factor : Z) (compress : bool) (radius : Q) :
  (factor <= 1)%Z -> (radius <= 0)%Q ->
  undersample im factor compress = Py.Done im /\
  high_pass_filter k radius = k.
Proof.
  intros Hf Hr. split.
  - unfold undersample.
    destruct (Z.ltb_spec 1 factor); [lia | reflexivity].
  - unfold high_pass_filter. now rewrite ltb_false_of_le.
Qed.

(** ** Noise *)

Section BroadcastFacts.
Context {A : Type} {ZA : Zero A}.

Lemma broadcasts_same (v : ndarray A) : Np.broadcasts v (nrows v) (ncols v) = true.
Proof. unfold Np.broadcasts. now rewrite !Nat.eqb_refl. Qed.

Lemma bcell_same (v : ndarray A) i j :
  i < nrows v -> j < ncols v -> Np.bcell v i j = Np.cell v i j.
Proof.
  intros Hi Hj. unfold Np.bcell.
  destruct (Nat.eqb_spec (nrows v) 1), (Nat.eqb_spec (ncols v) 1);
    f_equal; lia.
Qed.

Lemma store_same (v out : ndarray A) :
  Np.well_shaped v -> nrows v = nrows out -> ncols v = ncols out ->
  Np.store v out = Py.Done v.
Proof.
  intros Hv Hr Hc. unfold Np.store. rewrite <- Hr, <- Hc, broadcasts_same.
  f_equal. apply array_ext; auto using tabulate_well_shaped.
  intros i j Hi Hj. rewrite cell_tabulate by assumption. now apply bcell_same.
Qed.

End BroadcastFacts.

Lemma zip_into_same {A B} {ZA : Zero A} {ZB : Zero B} (f : A -> B -> A)
  (a : ndarray A) (b : ndarray B) :
  nrows b = nrows a -> ncols b = ncols a ->
  Np.zip_into f a b
  = Py.Done (Np.tabulate (nrows a) (ncols a)
               (fun i j => f (Np.cell a i j) (Np.bcell b i j))).
Proof.
  intros Hr Hc. unfold Np.zip_into.
  now rewrite <- Hr, <- Hc, broadcasts_same.
Qed.

Lemma add_noise_cached_once (k : ndarray complex) (snr : Q) (noise : ndarray R)
  (randn : nat -> nat -> R) :
  (snr < 30)%Q -> nrows noise = nrows k -> ncols noise = ncols k ->
  exists k1,
    add_noise k snr noise false randn = Py.Done (k1, noise) /\
    Np.shape k1 = Np.shape k /\
    forall i j, i < nrows k -> j < ncols k ->
      Np.cell k1 i j = C.add (Np.cell k i j) (C.of_real (Np.cell noise i j)).
Proof.
  intros Hs Hr Hc. unfold add_noise.
  rewrite ltb_true_of_lt by exact Hs.
  rewrite zip_into_same by assumption.
  eexists. split; [reflexivity|]. split; [reflexivity|].
  intros i j Hi Hj. rewrite cell_tabulate by assumption.
  rewrite bcell_same by lia. reflexivity.
Qed.

(** C7. With a requested SNR [>= 30] [add_noise] leaves the k-space and the
    cached noise map unchanged.  With an SNR [< 30] and
    [generate_new_noise = false] it adds the cached map sample by sample and
    returns the map as it was, so that a second such call, on a k-space [k']
    of the same shape, adds the very same map again. *)
Theorem add_noise_reuses_cached_map
  (k k' : ndarray complex) (snr : Q) (noise : ndarray R)
  (gen : bool) (randn randn' : nat -> nat -> R) :
  ((30 <= snr)%Q -> add_noise k snr noise gen randn = Py.Done (k, noise)) /\
  ((snr < 30)%Q ->
   Np.shape noise = Np.shape k -> Np.shape k' = Np.shape k ->
   exists k1 k2 noise1,
     add_noise k snr noise false randn = Py.Done (k1, noise1) /\
     add_noise k' snr noise1 false randn' = Py.Done (k2, noise1) /\
     noise1 = noise /\
     Np.shape k1 = Np.shape k /\ Np.shape k2 = Np.shape k' /\
     forall i j, i < nrows k -> j < ncols k ->
       Np.cell k1 i j = C.add (Np.cell k i j) (C.of_real (Np.cell noise i j)) /\
       Np.cell k2 i j = C.add (Np.cell k' i j) (C.of_real (Np.cell noise i j))).
Proof.
  split.
  - intros Hs. unfold add_noise. now rewrite ltb_false_of_le.
  - intros Hs Hn Hk'. unfold Np.shape in Hn, Hk'.
    injection Hn as Hnr Hnc. injection Hk' as Hkr Hkc.
    destruct (@add_noise_cached_once k snr noise randn Hs Hnr Hnc)
      as [k1 [E1 [S1 C1]]].
    destruct (@add_noise_cached_once k' snr noise randn' Hs) as [k2 [E2 [S2 C2]]];
      [congruence | congruence |].
    exists k1, k2, noise. repeat split; try assumption.
    + now apply C1.
    + apply C2; congruence.
Qed.

(** ** High-pass and low-pass filters *)

Lemma Q2R_inject_Z (z : Z) : Q2R (inject_Z z) = IZR z.
Proof. unfold Q2R; simpl. field. Qed.







(** ** Partial Fourier *)

Lemma indices_all len : Py.indices Py.all len = seq 0 len.
Proof.
  cbv [Py.indices Py.all Py.step Py.start Py.stop].
  change (1 <? 0)%Z with false; change (1 =? 0)%Z with false; cbv iota.
  replace (Z.to_nat (if (0 <? Z.of_nat len)%Z
                     then ((Z.of_nat len - 0 - 1) / 1 + 1)%Z else 0%Z)) with len
    by (destruct (Z.ltb_spec 0 (Z.of_nat len)); [rewrite Z.div_1_r|]; lia).
  rewrite <- (map_id (seq 0 len)) at 2.
  apply map_ext. intros t. lia.
Qed.

Lemma indices_reversed len :
  Py.indices Py.reversed len = map (fun t => len - 1 - t) (seq 0 len).
Proof.
  cbv [Py.indices Py.reversed Py.step Py.start Py.stop].
  change (-1 <? 0)%Z with true; cbv iota.
  replace (Z.to_nat (if (-1 <? Z.of_nat len - 1)%Z
                     then ((Z.of_nat len - 1 - -1 - 1) / - -1 + 1)%Z else 0%Z))
    with len
    by (destruct (Z.ltb_spec (-1) (Z.of_nat len - 1));
        [change (- -1)%Z with 1%Z; rewrite Z.div_1_r|]; lia).
  apply map_ext_in. intros t Ht. apply in_seq in Ht. lia.
Qed.

Lemma index_of_nth i l k :
  Py.index_of i l = Some k -> k < length l /\ nth k l 0 = i.
Proof.
  revert k. induction l as [|x l IH]; simpl; intros k; [discriminate|].
  destruct (Nat.eqb_spec i x) as [->|Hne].
  - intros [= <-]. split; [lia | reflexivity].
  - destruct (Py.index_of i l) as [k'|]; simpl; [|discriminate].
    intros [= <-]. destruct (IH k' eq_refl). split; [lia | assumption].
Qed.

Section TakeFacts.
Context {A : Type} {ZA : Zero A}.

Lemma cell_take rs cs (a : ndarray A) p q :
  p < length (Py.indices rs (nrows a)) -> q < length (Py.indices cs (ncols a)) ->
  Np.cell (Np.take rs cs a) p q
  = Np.cell a (nth p (Py.indices rs (nrows a)) 0) (nth q (Py.indices cs (ncols a)) 0).
Proof. intros. unfold Np.take. now rewrite cell_tabulate. Qed.

Lemma cell_roll s0 s1 (a : ndarray A) i j :
  i < nrows a -> j < ncols a ->
  Np.cell (Np.roll s0 s1 a) i j
  = Np.cell a (Z.to_nat ((Z.of_nat i - s0) mod Z.of_nat (nrows a)))
              (Z.to_nat ((Z.of_nat j - s1) mod Z.of_nat (ncols a))).
Proof. intros. unfold Np.roll. now rewrite cell_tabulate. Qed.

Lemma roll_index_range n (z : Z) : 0 < n -> Z.to_nat (z mod Z.of_nat n) < n.
Proof.
  intros Hn. pose proof (Z.mod_pos_bound z (Z.of_nat n)). lia.
Qed.

Lemma cell_flip (a : ndarray A) i j :
  i < nrows a -> j < ncols a ->
  Np.cell (Np.take Py.reversed Py.reversed a) i j
  = Np.cell a (nrows a - 1 - i) (ncols a - 1 - j).
Proof.
  intros Hi Hj. rewrite cell_take; rewrite !indices_reversed.
  - rewrite !(nth_indep _ 0 ((fun t => 0 - 1 - t) 0))
      by (rewrite length_map, length_seq; assumption).
    rewrite (nth_indep _ _ ((fun t => nrows a - 1 - t) 0))
      by (rewrite length_map, length_seq; assumption).
    rewrite (nth_indep (map (fun t => ncols a - 1 - t) _) _ ((fun t => ncols a - 1 - t) 0))
      by (rewrite length_map, length_seq; assumption).
    rewrite !map_nth, !seq_nth by assumption. reflexivity.
  - now rewrite length_map, length_seq.
  - now rewrite length_map, length_seq.
Qed.

Lemma cell_assign_rows rs (v a a' : ndarray A) i j :
  Np.assign_rows rs v a = Py.Done a' -> i < nrows a -> j < ncols a ->
  Np.cell a' i j
  = match Py.index_of i (Py.indices rs (nrows a)) with
    | Some p => Np.bcell v p j
    | None => Np.cell a i j
    end.
Proof.
  unfold Np.assign_rows. destruct (Np.broadcasts _ _ _); [|discriminate].
  intros [= <-] Hi Hj. now rewrite cell_tabulate.
Qed.

Lemma cell_map_rows rs f (a : ndarray A) i j :
  i < nrows a -> j < ncols a ->
  Np.cell (Np.map_rows rs f a) i j
  = if Py.selects (Py.indices rs (nrows a)) i then f (Np.cell a i j) else Np.cell a i j.
Proof. intros. unfold Np.map_rows. now rewrite cell_tabulate. Qed.

(** [a[rs] = b[rs]] for two arrays of one shape copies the selected rows. *)
Lemma assign_rows_same_slice rs (a b : ndarray A) :
  nrows b = nrows a -> ncols b = ncols a ->
  exists a',
    Np.assign_rows rs (Np.take rs Py.all b) a = Py.Done a' /\
    nrows a' = nrows a /\ ncols a' = ncols a /\
    forall i j, i < nrows a -> j < ncols a ->
      Np.cell a' i j
      = if Py.selects (Py.indices rs (nrows a)) i then Np.cell b i j else Np.cell a i j.
Proof.
  intros Hr Hc. unfold Np.assign_rows.
  assert (Hb : Np.broadcasts (Np.take rs Py.all b)
                 (length (Py.indices rs (nrows a))) (ncols a) = true).
  { unfold Np.broadcasts, Np.take; simpl.
    rewrite Hr, indices_all, length_seq, Hc, !Nat.eqb_refl. reflexivity. }
  rewrite Hb. eexists. split; [reflexivity|]. split; [reflexivity|].
  split; [reflexivity|].
  intros i j Hi Hj. rewrite cell_tabulate by assumption.
  unfold Py.selects.
  destruct (Py.index_of i (Py.indices rs (nrows a))) as [p|] eqn:E; [|reflexivity].
  apply index_of_nth in E as [Hp Hn].
  rewrite bcell_same.
  - rewrite cell_take.
    + rewrite Hr, Hn, indices_all.
      rewrite seq_nth by lia. reflexivity.
    + now rewrite Hr.
    + rewrite indices_all, length_seq. lia.
  - unfold Np.take; simpl. now rewrite Hr.
  - unfold Np.take; simpl. rewrite indices_all, length_seq. lia.
Qed.

End TakeFacts.

Lemma selects_trailing skip rows i :
  skip <> 0%Z -> ((skip < 0)%Z -> rows <= 1) -> i < rows ->
  Py.selects (Py.indices (Py.from (- skip)) rows) i
  = (Z.of_nat rows - skip <=? Z.of_nat i)%Z.
Proof.
  intros Hne Hneg Hi. destruct (Z.lt_ge_cases 0 skip) as [Hpos|Hnp].
  - now apply selects_last.
  - apply selects_iff with (P := (Z.of_nat rows - skip <= Z.of_nat i)%Z).
    + rewrite in_from. unfold Py.adjust.
      change (1 <? 0)%Z with false; cbv iota.
      destruct (Z.ltb_spec (- skip) 0); [lia|].
      destruct (Z.leb_spec (Z.of_nat rows) (- skip)); lia.
    + apply Z.leb_le.
Qed.

Lemma skip_negative_rows (pct : Q) (rows : nat) :
  (pct < 100)%Q ->
  (Py.round ((1 - pct / 100) * (inject_Z (Z.of_nat rows) / 2 - 1))%Q < 0)%Z ->
  rows <= 1.
Proof.
  intros Hp Hskip. destruct (le_gt_dec rows 1) as [|Hrows]; [assumption|exfalso].
  apply Z.lt_nge in Hskip. apply Hskip, round_nonneg.
  apply Qmult_le_0_compat.
  - apply Qlt_le_weak. now apply percent_complement_pos.
  - assert (2 <= inject_Z (Z.of_nat rows))%Q by (rewrite <- (Zle_Qle 2); lia).
    assert (1 <= inject_Z (Z.of_nat rows) / 2)%Q
      by (apply Qle_shift_div_l; [reflexivity | lra]).
    lra.
Qed.

Lemma even_mod2 n : (n mod 2 =? 0) = Nat.even n.
Proof.
  destruct (Nat.even n) eqn:E.
  - apply Nat.even_spec in E as [m ->]. apply Nat.eqb_eq.
    now rewrite Nat.mul_comm, Nat.Div0.mod_mul.
  - apply Nat.eqb_neq. intros H.
    apply Nat.Div0.mod_divides in H as [m ->].
    now rewrite Nat.even_mul in E.
Qed.

Lemma cell_mirrored (k : ndarray complex) i j :
  i < nrows k -> j < ncols k ->
  Np.cell (Np.roll (if (nrows k mod 2 =? 0) then 1%Z else 0%Z)
                   (if Nat.even (ncols k) then 1%Z else 0%Z)
                   (Np.take Py.reversed Py.reversed k)) i j
  = Np.cell k (mirror_index (nrows k) i) (mirror_index (ncols k) j).
Proof.
  intros Hi Hj.
  assert (Hr : nrows (Np.take Py.reversed Py.reversed k) = nrows k)
    by (unfold Np.take; simpl; now rewrite indices_reversed, length_map, length_seq).
  assert (Hc : ncols (Np.take Py.reversed Py.reversed k) = ncols k)
    by (unfold Np.take; simpl; now rewrite indices_reversed, length_map, length_seq).
  rewrite cell_roll by lia. rewrite Hr, Hc.
  rewrite cell_flip by (apply roll_index_range; lia).
  rewrite even_mod2. reflexivity.
Qed.



(** ** Spikes *)

Lemma geb_lex_ge a b : C.geb a b = true <-> lex_ge a b.
Proof.
  unfold C.geb, lex_ge, Rltb, Reqb, Rleb.
  destruct (Rlt_dec (re b) (re a)), (Req_dec_T (re a) (re b)),
           (Rle_dec (im b) (im a)); simpl; split; intros H;
    try reflexivity; try discriminate; try lra; tauto.
Qed.

Lemma lex_ge_refl a : lex_ge a a.
Proof. right. split; [reflexivity | apply Rle_refl]. Qed.

Lemma lex_ge_total a b : lex_ge a b \/ lex_ge b a.
Proof.
  unfold lex_ge.
  destruct (Rtotal_order (re a) (re b)) as [H|[H|H]].
  - right; left; exact H.
  - destruct (Rle_dec (im b) (im a)).
    + left; right; tauto.
    + right; right; split; [now symmetry | lra].
  - left; left; exact H.
Qed.

Lemma lex_ge_trans a b c : lex_ge a b -> lex_ge b c -> lex_ge a c.
Proof.
  unfold lex_ge. intros [H1|[H1 H1']] [H2|[H2 H2']].
  - left; lra.
  - left; lra.
  - left; lra.
  - right; split; [congruence | lra].
Qed.

Lemma cmax_fold_spec l x :
  let m := fold_left (fun acc y => if C.geb acc y then acc else y) l x in
  In m (x :: l) /\ forall c, In c (x :: l) -> lex_ge m c.
Proof.
  revert x. induction l as [|y l IH]; intros x; simpl.
  - split; [now left|]. intros c [<-|[]]. apply lex_ge_refl.
  - destruct (C.geb x y) eqn:E.
    + destruct (IH x) as [Hin Hge]. split.
      * destruct Hin as [<-|Hin]; [now left | right; now right].
      * intros c [<-|[<-|Hc]].
        -- apply Hge. now left.
        -- apply lex_ge_trans with x; [apply Hge; now left | now apply geb_lex_ge].
        -- apply Hge. now right.
    + destruct (IH y) as [Hin Hge]. split.
      * right. exact Hin.
      * assert (Hyx : lex_ge y x).
        { destruct (lex_ge_total x y) as [H|H]; [|exact H].
          apply geb_lex_ge in H. congruence. }
        intros c [<-|[<-|Hc]].
        -- apply lex_ge_trans with y; [apply Hge; now left | exact Hyx].
        -- apply Hge. now left.
        -- apply Hge. now right.
Qed.

Lemma cmax_spec (k : ndarray complex) m :
  Np.cmax k = Some m -> In m (flat k) /\ forall c, In c (flat k) -> lex_ge m c.
Proof.
  unfold Np.cmax. destruct (flat k) as [|x l]; [discriminate|].
  intros [= <-]. apply cmax_fold_spec.
Qed.

Lemma norm_index_in_range len z :
  (- Z.of_nat len <= z < Z.of_nat len)%Z ->
  exists i, Np.norm_index len z = Some i /\ i < len.
Proof.
  intros Hz. unfold Np.norm_index.
  destruct (Z.leb_spec 0 z), (Z.ltb_spec z (Z.of_nat len)); simpl;
    try (eexists; split; [reflexivity | lia]).
  - lia.
  - destruct (Z.leb_spec (- Z.of_nat len) z), (Z.ltb_spec z 0); simpl;
      try lia. eexists; split; [reflexivity | lia].
  - lia.
Qed.

Lemma write_spikes_cells v spikes : forall k : ndarray complex,
  Forall (fun s : Z * Z =>
            (- Z.of_nat (nrows k) <= fst s < Z.of_nat (nrows k))%Z /\
            (- Z.of_nat (ncols k) <= snd s < Z.of_nat (ncols k))%Z) spikes ->
  exists k',
    write_spikes v spikes k = Py.Done k' /\
    nrows k' = nrows k /\ ncols k' = ncols k /\
    forall i j, i < nrows k -> j < ncols k ->
      Np.cell k' i j
      = if spike_at (nrows k) (ncols k) spikes i j then v else Np.cell k i j.
Proof.
  induction spikes as [|[r c] rest IH]; intros k Hall.
  - exists k. repeat split; reflexivity.
  - inversion Hall as [|s l [Hr Hc] Hrest]; subst. simpl in Hr, Hc.
    destruct (@norm_index_in_range _ _ Hr) as [i0 [Ei Hi0]].
    destruct (@norm_index_in_range _ _ Hc) as [j0 [Ej Hj0]].
    simpl. rewrite Ei, Ej.
    destruct (IH (Np.set_cell i0 j0 v k) Hrest) as [k' [E [Hnr [Hnc Hcell]]]].
    exists k'. split; [exact E|]. split; [exact Hnr|]. split; [exact Hnc|].
    intros i j Hi Hj. rewrite Hcell by assumption.
    change (nrows (Np.set_cell i0 j0 v k)) with (nrows k).
    change (ncols (Np.set_cell i0 j0 v k)) with (ncols k).
    unfold Np.set_cell. rewrite cell_where_set by assumption.
    destruct (spike_at (nrows k) (ncols k) rest i j);
      [now rewrite orb_true_r | now rewrite orb_false_r].
Qed.

(** C2 (as amended). On a non-empty k-space and for spike coordinates within
    the array bounds (negative ones counting from the end), [apply_spikes]
    returns, and each listed cell holds twice [kspace.max()], the greatest
    sample in numpy's lexicographic order on complex numbers (by real part,
    then by imaginary part), taken on the k-space as it was before any spike
    was written; all other cells are unchanged. *)
Theorem apply_spikes_cells (k : ndarray complex) (spikes : list (Z * Z)) :
  flat k <> [] ->
  Forall (fun s : Z * Z =>
            (- Z.of_nat (nrows k) <= fst s < Z.of_nat (nrows k))%Z /\
            (- Z.of_nat (ncols k) <= snd s < Z.of_nat (ncols k))%Z) spikes ->
  exists k' m,
    apply_spikes k spikes = Py.Done k' /\
    Np.shape k' = Np.shape k /\
    In m (flat k) /\ (forall c, In c (flat k) -> lex_ge m c) /\
    forall i j, i < nrows k -> j < ncols k ->
      Np.cell k' i j
      = if spike_at (nrows k) (ncols k) spikes i j
        then C.scale m 2 else Np.cell k i j.
Proof.
  intros Hne Hall. unfold apply_spikes.
  destruct (Np.cmax k) as [m|] eqn:Em.
  - destruct (cmax_spec k Em) as [Hin Hge].
    destruct (@write_spikes_cells (C.scale m 2) spikes k Hall)
      as [k' [E [Hnr [Hnc Hcell]]]].
    exists k', m. split; [exact E|]. split.
    { unfold Np.shape. now rewrite Hnr, Hnc. }
    auto.
  - unfold Np.cmax in Em. destruct (flat k); [contradiction | discriminate].
Qed.

(** C2 (as stated) fails: on the k-space [[-5, 1]] the greatest magnitude is
    5, at the sample -5, but [kspace.max()] is the sample 1, so the spike
    written at (0, 0) is 2 and not twice a bound of the magnitudes. *)
Lemma spike_intensity_counterexample :
  let k := mkarr 1 2 [mkC (-5) 0; mkC 1 0] in
  exists k',
    apply_spikes k [(0, 0)%Z] = Py.Done k' /\
    Np.cell k' 0 0 = mkC 2 0 /\
    forall M : R,
      (forall i j, i < 1 -> j < 2 -> (C.abs (Np.cell k i j) <= M)%R) ->
      Np.cell k' 0 0 <> C.of_real (2 * M).
Proof.
  intros k.
  assert (Hmax : Np.cmax k = Some (mkC 1 0)).
  { unfold Np.cmax, k; simpl.
    replace (C.geb (mkC (-5) 0) (mkC 1 0)) with false; [reflexivity|].
    symmetry. destruct (C.geb _ _) eqn:E; [|reflexivity].
    apply geb_lex_ge in E. unfold lex_ge in E; simpl in E. lra. }
  unfold apply_spikes. rewrite Hmax.
  exists (Np.set_cell 0 0 (C.scale (mkC 1 0) 2) k). split; [reflexivity|].
  assert (Hcell : Np.cell (Np.set_cell 0 0 (C.scale (mkC 1 0) 2) k) 0 0 = mkC 2 0).
  { unfold Np.set_cell. rewrite cell_where_set by (simpl; lia).
    simpl. unfold C.scale; simpl. f_equal; lra. }
  split; [exact Hcell|].
  intros M HM. rewrite Hcell. unfold C.of_real. intros [= H2].
  specialize (HM 0 0 ltac:(lia) ltac:(lia)).
  unfold Np.cell, k, C.abs in HM; simpl in HM.
  replace (-5 * -5 + 0 * 0)%R with (5 * 5)%R in HM by lra.
  rewrite sqrt_square in HM by lra. lra.
Qed.

(** ** Windowing *)

Lemma window_piece (lo hi : R) (g : R -> R) (x : R) :
  Np.piecewise1 [fun v => Rleb v lo; fun v => Rltb hi v]
                [fun _ => 0%R; fun _ => 255%R; g] x
  = if Rltb hi x then 255%R else if Rleb x lo then 0%R else g x.
Proof.
  unfold Np.piecewise1; simpl.
  destruct (Rleb x lo), (Rltb hi x); reflexivity.
Qed.

Lemma cell_map {A B} {ZA : Zero A} {ZB : Zero B} (g : A -> B) (a : ndarray A) i j :
  Np.well_shaped a -> i < nrows a -> j < ncols a ->
  Np.cell (Np.map g a) i j = g (Np.cell a i j).
Proof.
  intros Ha Hi Hj. unfold Np.cell, Np.map; simpl.
  assert (Hlt : i * ncols a + j < length (flat a))
    by (rewrite Ha; now apply index_in_range).
  rewrite nth_indep with (d' := g zero) by now rewrite length_map.
  apply map_nth.
Qed.

Lemma map_well_shaped {A B} (g : A -> B) (a : ndarray A) :
  Np.well_shaped a -> Np.well_shaped (Np.map g a).
Proof.
  unfold Np.well_shaped, Np.size, Np.map; simpl. now rewrite length_map.
Qed.

Lemma apply_window_cells (f : ndarray R) (w : Window) (fmax fmin : R) :
  Np.well_shaped f ->
  Np.amax f = Some fmax -> Np.amin f = Some fmin -> fmax <> fmin ->
  let width := (Q2R (ww w) * fmax)%R in
  let centre := (Q2R (wc w) * fmax)%R in
  exists f',
    apply_window f (Some w) = Py.Done f' /\
    Np.shape f' = Np.shape f /\
    forall i j, i < nrows f -> j < ncols f ->
      Np.cell f' i j
      = if Rltb (centre + width / 2) (Np.cell f i j) then 255%R
        else if Rleb (Np.cell f i j) (centre - width / 2) then 0%R
        else (((Np.cell f i j - centre) / width + 0.5) * 255)%R.
Proof.
  intros Hf Hmax Hmin Hne width centre.
  unfold apply_window. rewrite Hmax, Hmin.
  replace (Reqb fmax fmin) with false
    by (unfold Reqb; destruct (Req_dec_T fmax fmin); [contradiction | reflexivity]).
  fold width centre.
  eexists. split; [reflexivity|]. split; [reflexivity|].
  intros i j Hi Hj. unfold Np.piecewise.
  rewrite cell_map by assumption. now rewrite window_piece.
Qed.

(** C10 (as amended). On a well-shaped array whose maximum [fmax] exceeds its
    minimum and for a window [{ww, wc}], fractions of [fmax], of non-negative
    width [ww * fmax], [apply_window] returns and maps every cell less than or
    equal to the low bound [wc * fmax - (ww * fmax) / 2] to 0, the bound
    included, and every cell strictly greater than the high bound
    [wc * fmax + (ww * fmax) / 2] to 255; whatever the sign of the width, the
    cells above the high bound are mapped to 255. *)
Theorem apply_window_clips (f : ndarray R) (w : Window) (fmax fmin : R) :
  Np.well_shaped f ->
  Np.amax f = Some fmax -> Np.amin f = Some fmin -> (fmin < fmax)%R ->
  let width := (Q2R (ww w) * fmax)%R in
  let centre := (Q2R (wc w) * fmax)%R in
  let w_low := (centre - width / 2)%R in
  let w_high := (centre + width / 2)%R in
  exists f',
    apply_window f (Some w) = Py.Done f' /\
    Np.shape f' = Np.shape f /\
    forall i j, i < nrows f -> j < ncols f ->
      ((w_high < Np.cell f i j)%R -> Np.cell f' i j = 255%R) /\
      ((0 <= width)%R -> (Np.cell f i j <= w_low)%R -> Np.cell f' i j = 0%R).
Proof.
  intros Hf Hmax Hmin Hlt width centre w_low w_high.
  destruct (@apply_window_cells f w fmax fmin Hf Hmax Hmin) as [f' [E [Hs Hcell]]];
    [lra|].
  exists f'. split; [exact E|]. split; [exact Hs|].
  intros i j Hi Hj. rewrite Hcell by assumption.
  fold width centre w_low w_high. unfold Rltb, Rleb. split.
  - intros Hv. destruct (Rlt_dec w_high (Np.cell f i j)); [reflexivity | contradiction].
  - intros Hw Hv.
    destruct (Rlt_dec w_high (Np.cell f i j)); [unfold w_low, w_high in *; lra|].
    destruct (Rle_dec (Np.cell f i j) w_low); [reflexivity | contradiction].
Qed.

(** C10 (as stated) fails for a window of negative width: on the array
    [[0, 1]] (maximum 1) with [ww = -1] and [wc = 0] the low bound is 1/2 and
    the high bound -1/2; the cell 0 is below the low bound and is mapped to
    255, because the second condition of [np.piecewise] overwrites the
    first. *)
Lemma negative_width_counterexample :
  let f := mkarr 1 2 [0%R; 1%R] in
  let w := mkWindow (-1) 0 in
  Np.amax f = Some 1%R /\ Np.amin f = Some 0%R /\
  (Np.cell f 0 0 <= Q2R (wc w) * 1 - (Q2R (ww w) * 1) / 2)%R /\
  (255 <> 0)%R /\
  exists f', apply_window f (Some w) = Py.Done f' /\ Np.cell f' 0 0 = 255%R.
Proof.
  intros f w.
  assert (Hmax : Np.amax f = Some 1%R)
    by (unfold Np.amax, f; simpl; f_equal; apply Rmax_right; lra).
  assert (Hmin : Np.amin f = Some 0%R)
    by (unfold Np.amin, f; simpl; f_equal; apply Rmin_left; lra).
  assert (Hww : Q2R (ww w) = (-1)%R) by (unfold Q2R; simpl; lra).
  assert (Hwc : Q2R (wc w) = 0%R) by (unfold Q2R; simpl; lra).
  split; [exact Hmax|]. split; [exact Hmin|].
  split; [rewrite Hww, Hwc; unfold Np.cell, f; simpl; lra|].
  split; [lra|].
  destruct (@apply_window_cells f w 1%R 0%R) as [f' [E [_ Hcell]]];
    try assumption; try reflexivity; try lra.
  exists f'. split; [exact E|].
  rewrite Hcell by (simpl; lia). rewrite Hww, Hwc.
  unfold Rltb. destruct (Rlt_dec _ _) as [_|Hn]; [reflexivity|].
  exfalso. apply Hn. unfold Np.cell, f; simpl. lra.
Qed.

(** ** Complex arithmetic *)

Lemma C_ring : ring_theory (zero : complex) C.one C.add C.mul C.sub C.opp eq.
Proof.
  constructor; intros;
    repeat match goal with x : complex |- _ => destruct x end;
    unfold C.add, C.mul, C.sub, C.opp, C.one, zero, complex_zero;
    simpl; f_equal; ring.
Qed.

Add Ring complex_ring : C_ring.

Lemma C_eta (a : complex) : mkC (re a) (im a) = a.
Proof. now destruct a. Qed.

Lemma scale_mul (a : complex) (x : R) : C.scale a x = C.mul a (C.of_real x).
Proof. unfold C.scale, C.mul, C.of_real; simpl. f_equal; ring. Qed.

Lemma cis_add (x y : R) : C.cis (x + y) = C.mul (C.cis x) (C.cis y).
Proof.
  unfold C.cis, C.mul; simpl. rewrite cos_plus, sin_plus. f_equal; ring.
Qed.

Lemma cis_0 : C.cis 0 = C.one.
Proof. unfold C.cis, C.one. now rewrite cos_0, sin_0. Qed.

Lemma cis_2PI_nat (n : nat) : C.cis (2 * PI * INR n) = C.one.
Proof.
  unfold C.cis, C.one.
  replace (2 * PI * INR n)%R with (0 + 2 * INR n * PI)%R by ring.
  now rewrite cos_period, sin_period, cos_0, sin_0.
Qed.

Lemma cis_2PI_int (d : Z) : C.cis (2 * PI * IZR d) = C.one.
Proof.
  destruct (Z.le_gt_cases 0 d) as [Hd|Hd].
  - rewrite <- (Z2Nat.id d Hd), <- INR_IZR_INZ. apply cis_2PI_nat.
  - replace (2 * PI * IZR d)%R with (- (2 * PI * INR (Z.to_nat (- d))))%R.
    + pose proof (cis_2PI_nat (Z.to_nat (- d))) as H.
      unfold C.cis, C.one in *. injection H as Hc Hs.
      rewrite cos_neg, sin_neg, Hc, Hs. f_equal; ring.
    + rewrite INR_IZR_INZ, Z2Nat.id, opp_IZR by lia. ring.
Qed.

(** A complex number of modulus 1 other than 1 itself: the angle lies strictly
    between 0 and a full turn, in either direction. *)
Lemma cis_neq_one (t : R) :
  (0 < t < 2 * PI)%R \/ (- (2 * PI) < t < 0)%R -> C.cis t <> C.one.
Proof.
  assert (Hpos : forall s, (0 < s < 2 * PI)%R -> (cos s < 1)%R).
  { intros s Hs. replace s with (2 * (s / 2))%R by field.
    rewrite cos_2a_sin.
    assert (0 < sin (s / 2))%R by (apply sin_gt_0; lra).
    nra. }
  intros Ht H. unfold C.cis, C.one in H. injection H as Hc _.
  destruct Ht as [Ht|Ht].
  - specialize (Hpos t Ht). lra.
  - specialize (Hpos (- t)%R). rewrite cos_neg in Hpos. lra.
Qed.

Lemma C_mul_eq_0 (a b : complex) : C.mul a b = zero -> a <> zero -> b = zero.
Proof.
  destruct a as [x y], b as [p q]. unfold C.mul, zero, complex_zero; simpl.
  intros [= H1 H2] Ha.
  assert (Hn : (0 < x * x + y * y)%R).
  { destruct (Req_dec x 0) as [->|Hx]; [|nra].
    destruct (Req_dec y 0) as [->|Hy]; [contradiction Ha; reflexivity | nra]. }
  assert (Hp : ((x * x + y * y) * p = 0)%R).
  { replace ((x * x + y * y) * p)%R
      with (x * (x * p - y * q) + y * (x * q + y * p))%R by ring.
    rewrite H1, H2. ring. }
  assert (Hq : ((x * x + y * y) * q = 0)%R).
  { replace ((x * x + y * y) * q)%R
      with (x * (x * q + y * p) - y * (x * p - y * q))%R by ring.
    rewrite H1, H2. ring. }
  apply Rmult_integral in Hp, Hq.
  f_equal; lra.
Qed.

(** ** Finite sums of complex numbers *)

Lemma sum_ext n (f g : nat -> complex) :
  (forall i, i < n -> f i = g i) -> C.sum n f = C.sum n g.
Proof.
  induction n as [|n IH]; simpl; intros H; [reflexivity|].
  rewrite IH, H by auto. reflexivity.
Qed.

Lemma sum_zero n : C.sum n (fun _ => zero) = zero.
Proof. induction n as [|n IH]; simpl; [reflexivity|]. rewrite IH. ring. Qed.

Lemma sum_add n (f g : nat -> complex) :
  C.sum n (fun i => C.add (f i) (g i)) = C.add (C.sum n f) (C.sum n g).
Proof. induction n as [|n IH]; simpl; [ring|]. rewrite IH. ring. Qed.

Lemma sum_mul_r n (f : nat -> complex) (c : complex) :
  C.mul (C.sum n f) c = C.sum n (fun i => C.mul (f i) c).
Proof. induction n as [|n IH]; simpl; [ring|]. rewrite <- IH. ring. Qed.

Lemma sum_mul_l n (f : nat -> complex) (c : complex) :
  C.mul c (C.sum n f) = C.sum n (fun i => C.mul c (f i)).
Proof. induction n as [|n IH]; simpl; [ring|]. rewrite <- IH. ring. Qed.

Lemma sum_exchange m n (f : nat -> nat -> complex) :
  C.sum m (fun i => C.sum n (fun j => f i j))
  = C.sum n (fun j => C.sum m (fun i => f i j)).
Proof.
  induction m as [|m IH]; simpl.
  - now rewrite sum_zero.
  - now rewrite IH, sum_add.
Qed.

(** A sum whose terms vanish except at [i0] *)
Lemma sum_single n (f : nat -> complex) i0 :
  i0 < n -> (forall i, i < n -> i <> i0 -> f i = zero) -> C.sum n f = f i0.
Proof.
  induction n as [|n IH]; intros Hi H; [lia|]. simpl.
  destruct (Nat.eq_dec i0 n) as [->|Hne].
  - rewrite (@sum_ext n f (fun _ => zero)) by (intros i Hlt; apply H; lia).
    rewrite sum_zero. ring.
  - rewrite IH by (try lia; intros i Hlt Hd; apply H; lia).
    rewrite (H n) by lia. ring.
Qed.

(** ** Roots of unity *)

Lemma rot_add M (x y : R) : rot M (x + y) = C.mul (rot M x) (rot M y).
Proof.
  unfold rot. rewrite <- cis_add. f_equal. unfold Rdiv. ring.
Qed.

Lemma rot_0 M : rot M 0 = C.one.
Proof.
  unfold rot. replace (2 * PI * 0 / INR M)%R with 0%R by (unfold Rdiv; ring).
  apply cis_0.
Qed.

Lemma rot_full M (d : Z) : 0 < M -> rot M (INR M * IZR d) = C.one.
Proof.
  intros HM. unfold rot.
  replace (2 * PI * (INR M * IZR d) / INR M)%R with (2 * PI * IZR d)%R.
  - apply cis_2PI_int.
  - field. apply not_0_INR. lia.
Qed.

Lemma rot_neq_one M (d : Z) :
  (0 < Z.abs d < Z.of_nat M)%Z -> rot M (IZR d) <> C.one.
Proof.
  intros Hd. unfold rot. apply cis_neq_one.
  assert (HM : (0 < INR M)%R) by (apply lt_0_INR; lia).
  pose proof PI_RGT_0 as Hpi.
  set (q := (IZR d / INR M)%R).
  assert (Hq : (q * INR M = IZR d)%R) by (unfold q; field; lra).
  replace (2 * PI * IZR d / INR M)%R with (2 * PI * q)%R
    by (unfold q, Rdiv; ring).
  rewrite INR_IZR_INZ in *.
  destruct (Z.lt_trichotomy d 0) as [Hneg|[->|Hpos]]; [right | lia | left].
  - assert (IZR d < 0)%R by (apply IZR_lt; lia).
    assert (- IZR (Z.of_nat M) < IZR d)%R
      by (rewrite <- opp_IZR; apply IZR_lt; lia).
    assert (- 1 < q < 0)%R by nra. nra.
  - assert (0 < IZR d)%R by (apply IZR_lt; lia).
    assert (IZR d < IZR (Z.of_nat M))%R by (apply IZR_lt; lia).
    assert (0 < q < 1)%R by nra. nra.
Qed.

Lemma geometric_sum M (delta : R) n :
  C.mul (C.sub (rot M delta) C.one) (C.sum n (fun k => rot M (INR k * delta)))
  = C.sub (rot M (INR n * delta)) C.one.
Proof.
  induction n as [|n IH].
  - simpl. rewrite Rmult_0_l, rot_0. ring.
  - cbn [C.sum]. rewrite S_INR.
    replace ((INR n + 1) * delta)%R with (delta + INR n * delta)%R by ring.
    rewrite rot_add.
    transitivity (C.add (C.mul (C.sub (rot M delta) C.one)
                               (C.sum n (fun k => rot M (INR k * delta))))
                        (C.mul (C.sub (rot M delta) C.one) (rot M (INR n * delta))));
      [ring|].
    rewrite IH. ring.
Qed.

Lemma sum_const n (c : complex) : C.sum n (fun _ => c) = C.mul (C.of_real (INR n)) c.
Proof.
  induction n as [|n IH].
  - simpl. unfold C.of_real, C.mul, zero, complex_zero; simpl. f_equal; ring.
  - cbn [C.sum]. rewrite IH, S_INR.
    destruct c as [x y]. unfold C.of_real, C.mul, C.add; simpl. f_equal; ring.
Qed.

(** Orthogonality of the Fourier kernels *)
Lemma rot_sum M (d : Z) :
  (Z.abs d < Z.of_nat M)%Z ->
  C.sum M (fun k => rot M (INR k * IZR d))
  = if (d =? 0)%Z then C.of_real (INR M) else zero.
Proof.
  intros Hd. destruct (Z.eqb_spec d 0) as [->|Hne].
  - rewrite (@sum_ext M _ (fun _ => C.one)).
    + rewrite sum_const. unfold C.of_real, C.mul, C.one; simpl. f_equal; ring.
    + intros k _. rewrite Rmult_0_r. apply rot_0.
  - apply C_mul_eq_0 with (a := C.sub (rot M (IZR d)) C.one).
    + rewrite geometric_sum, rot_full by lia. ring.
    + intros H. apply (@rot_neq_one M d); [lia|].
      transitivity (C.add (C.sub (rot M (IZR d)) C.one) C.one); [ring|].
      rewrite H. ring.
Qed.

(** ** The inverse transform inverts the forward transform *)

Lemma kernel_product M N (i i' k j j' l : nat) :
  C.mul (C.cis (- (2 * PI * (INR i' * INR k / INR M + INR j' * INR l / INR N))))
        (C.cis (2 * PI * (INR k * INR i / INR M + INR l * INR j / INR N)))
  = C.mul (rot M (INR k * (INR i - INR i'))) (rot N (INR l * (INR j - INR j'))).
Proof. unfold rot. rewrite <- !cis_add. f_equal. unfold Rdiv. ring. Qed.

Lemma rot_sum_nat M i i' :
  i < M -> i' < M ->
  C.sum M (fun k => rot M (INR k * (INR i - INR i')))
  = if i =? i' then C.of_real (INR M) else zero.
Proof.
  intros Hi Hi'.
  rewrite (@sum_ext M _ (fun k => rot M (INR k * IZR (Z.of_nat i - Z.of_nat i')))).
  - rewrite rot_sum by lia.
    destruct (Z.eqb_spec (Z.of_nat i - Z.of_nat i') 0), (Nat.eqb_spec i i');
      try reflexivity; lia.
  - intros k _. now rewrite minus_IZR, <- !INR_IZR_INZ.
Qed.

Lemma sum4_swap M N M' N' (X : nat -> nat -> nat -> nat -> complex) :
  C.sum M (fun k => C.sum N (fun l => C.sum M' (fun i => C.sum N' (fun j => X k l i j))))
  = C.sum M' (fun i => C.sum N' (fun j => C.sum M (fun k => C.sum N (fun l => X k l i j)))).
Proof.
  rewrite (@sum_ext M _
             (fun k => C.sum M' (fun i => C.sum N (fun l => C.sum N' (fun j => X k l i j)))))
    by (intros k _; apply sum_exchange).
  rewrite sum_exchange.
  apply sum_ext. intros i _.
  rewrite (@sum_ext M _
             (fun k => C.sum N' (fun j => C.sum N (fun l => X k l i j))))
    by (intros k _; apply sum_exchange).
  apply sum_exchange.
Qed.

Lemma sum_product M N (a : complex) (A B : nat -> complex) :
  C.sum M (fun k => C.sum N (fun l => C.mul a (C.mul (A k) (B l))))
  = C.mul a (C.mul (C.sum M A) (C.sum N B)).
Proof.
  rewrite (@sum_ext M _ (fun k => C.mul (A k) (C.mul a (C.sum N B)))).
  - rewrite <- sum_mul_r. ring.
  - intros k _.
    transitivity (C.mul (C.mul (A k) a) (C.sum N B)); [|ring].
    rewrite sum_mul_l. apply sum_ext. intros l _. ring.
Qed.

Lemma ifft2_fft2 (a : ndarray complex) :
  Np.well_shaped a -> Np.ifft2 (Np.fft2 a) = a.
Proof.
  intros Ha. apply array_ext; try reflexivity; try assumption.
  - apply tabulate_well_shaped.
  - intros i j Hi Hj.
    change (nrows (Np.ifft2 (Np.fft2 a))) with (nrows a) in Hi.
    change (ncols (Np.ifft2 (Np.fft2 a))) with (ncols a) in Hj.
    set (M := nrows a) in *. set (N := ncols a) in *.
    unfold Np.ifft2.
    change (nrows (Np.fft2 a)) with M. change (ncols (Np.fft2 a)) with N.
    rewrite cell_tabulate by assumption.
    (* the double sum of the forward coefficients, with the kernels merged *)
    rewrite (@sum_ext M _
      (fun k => C.sum N (fun l => C.sum M (fun i' => C.sum N (fun j' =>
         C.mul (Np.cell a i' j')
               (C.mul (rot M (INR k * (INR i - INR i')))
                      (rot N (INR l * (INR j - INR j'))))))))).
    2:{ intros k Hk. apply sum_ext. intros l Hl.
        unfold Np.fft2. fold M N. rewrite cell_tabulate by assumption.
        rewrite sum_mul_r. apply sum_ext. intros i' _.
        rewrite sum_mul_r. apply sum_ext. intros j' _.
        rewrite <- kernel_product. ring. }
    rewrite sum4_swap.
    rewrite (@sum_ext M _
      (fun i' => C.sum N (fun j' =>
         C.mul (Np.cell a i' j')
               (C.mul (if i =? i' then C.of_real (INR M) else zero)
                      (if j =? j' then C.of_real (INR N) else zero))))).
    2:{ intros i' Hi'. apply sum_ext. intros j' Hj'.
        rewrite sum_product. now rewrite !rot_sum_nat. }
    rewrite (@sum_single M _ i); [|assumption|].
    2:{ intros i' _ Hne.
        rewrite (@sum_ext N _ (fun _ => zero)); [apply sum_zero|].
        intros j' _. destruct (Nat.eqb_spec i i'); [congruence | ring]. }
    rewrite (@sum_single N _ j); [|assumption|].
    2:{ intros j' _ Hne. destruct (Nat.eqb_spec j j'); [congruence | ring]. }
    rewrite !Nat.eqb_refl.
    assert (INR M <> 0%R) by (apply not_0_INR; lia).
    assert (INR N <> 0%R) by (apply not_0_INR; lia).
    destruct (Np.cell a i j) as [x y].
    unfold C.scale, C.mul, C.of_real; simpl. f_equal; field; split; assumption.
Qed.

(** ** Shifts *)

Section ShiftFacts.
Context {A : Type} {ZA : Zero A}.

Lemma roll_back n (s t : Z) i :
  (s + t = 0)%Z -> i < n ->
  Z.to_nat ((Z.of_nat (Z.to_nat ((Z.of_nat i - s) mod Z.of_nat n)) - t) mod Z.of_nat n) = i.
Proof.
  intros Hst Hi.
  pose proof (Z.mod_pos_bound (Z.of_nat i - s) (Z.of_nat n) ltac:(lia)) as Hb.
  rewrite Z2Nat.id by lia.
  replace ((Z.of_nat i - s) mod Z.of_nat n - t)%Z
    with ((Z.of_nat i - s) mod Z.of_nat n + s)%Z by lia.
  rewrite Zplus_mod_idemp_l.
  replace (Z.of_nat i - s + s)%Z with (Z.of_nat i) by lia.
  rewrite Z.mod_small by lia. lia.
Qed.

Lemma roll_roll (s0 s1 t0 t1 : Z) (a : ndarray A) :
  Np.well_shaped a -> (s0 + t0 = 0)%Z -> (s1 + t1 = 0)%Z ->
  Np.roll s0 s1 (Np.roll t0 t1 a) = a.
Proof.
  intros Ha H0 H1. apply array_ext; try reflexivity; try assumption.
  - apply tabulate_well_shaped.
  - intros i j Hi Hj.
    change (nrows (Np.roll s0 s1 (Np.roll t0 t1 a))) with (nrows a) in Hi.
    change (ncols (Np.roll s0 s1 (Np.roll t0 t1 a))) with (ncols a) in Hj.
    rewrite cell_roll by assumption.
    change (nrows (Np.roll t0 t1 a)) with (nrows a).
    change (ncols (Np.roll t0 t1 a)) with (ncols a).
    rewrite cell_roll by (apply roll_index_range; lia).
    now rewrite !roll_back.
Qed.

Lemma fftshift_ifftshift (a : ndarray A) :
  Np.well_shaped a -> Np.fftshift (Np.ifftshift a) = a.
Proof. intros Ha. unfold Np.fftshift, Np.ifftshift. apply roll_roll; auto; simpl; lia. Qed.

Lemma ifftshift_fftshift (a : ndarray A) :
  Np.well_shaped a -> Np.ifftshift (Np.fftshift a) = a.
Proof. intros Ha. unfold Np.fftshift, Np.ifftshift. apply roll_roll; auto; simpl; lia. Qed.

End ShiftFacts.

(** ** Round trip of the centred transforms *)

Lemma abs_of_real (x : R) : C.abs (C.of_real x) = Rabs x.
Proof.
  unfold C.abs, C.of_real; simpl.
  replace (x * x + 0 * 0)%R with (Rsqr x) by (unfold Rsqr; ring).
  apply sqrt_Rsqr_abs.
Qed.

Lemma round_trip_magnitude (img : ndarray R) (out : ndarray complex) (out' : ndarray R) :
  Np.well_shaped img -> Np.size img <> 0 ->
  Np.shape out = Np.shape img -> Np.shape out' = Np.shape img ->
  exists k,
    np_fft img out = Py.Done k /\
    Np.shape k = Np.shape img /\
    np_ifft k out' = Py.Done (Np.map Rabs img).
Proof.
  intros Himg Hsize Hout Hout'. unfold Np.shape in Hout, Hout'.
  injection Hout as Hr Hc. injection Hout' as Hr' Hc'.
  set (G := Np.ifftshift (Np.map C.of_real img)).
  exists (Np.fftshift (Np.fft2 G)). split; [|split].
  - unfold np_fft. apply Nat.eqb_neq in Hsize. rewrite Hsize. fold G.
    apply store_same; [apply tabulate_well_shaped | now symmetry | now symmetry].
  - reflexivity.
  - unfold np_ifft.
    replace (Np.size (Np.fftshift (Np.fft2 G)) =? 0) with false
      by (symmetry; apply Nat.eqb_neq; exact Hsize).
    rewrite ifftshift_fftshift by apply tabulate_well_shaped.
    rewrite ifft2_fft2 by apply tabulate_well_shaped.
    unfold G. rewrite fftshift_ifftshift by now apply map_well_shaped.
    replace (Np.map C.abs (Np.map C.of_real img)) with (Np.map Rabs img).
    + apply store_same; [now apply map_well_shaped | now symmetry | now symmetry].
    + unfold Np.map; simpl. f_equal. rewrite map_map.
      apply map_ext. intros x. symmetry. apply abs_of_real.
Qed.

(** C1 (as amended). In exact arithmetic, for every real 2D image of any
    non-empty shape, the forward transform [np_fft] followed by the inverse
    transform [np_ifft] on the unmodified k-space yields the magnitude of the
    image, sample by sample; it reproduces the image itself when no sample is
    negative. *)
Theorem transform_round_trip
  (img : ndarray R) (out : ndarray complex) (out' : ndarray R) :
  Np.well_shaped img -> Np.size img <> 0 ->
  Np.shape out = Np.shape img -> Np.shape out' = Np.shape img ->
  exists k,
    np_fft img out = Py.Done k /\
    np_ifft k out' = Py.Done (Np.map Rabs img) /\
    ((forall x, In x (flat img) -> (0 <= x)%R) -> np_ifft k out' = Py.Done img).
Proof.
  intros Himg Hsize Hout Hout'.
  destruct (@round_trip_magnitude img out out' Himg Hsize Hout Hout')
    as [k [Hk [_ Hinv]]].
  exists k. split; [exact Hk|]. split; [exact Hinv|].
  intros Hpos. rewrite Hinv. f_equal.
  destruct img as [m n l]. unfold Np.map; simpl in *. f_equal.
  rewrite <- (map_id l) at 2. apply map_ext_in.
  intros x Hx. apply Rabs_pos_eq. now apply Hpos.
Qed.

(** C1 (as stated) fails on an image with a negative sample: the round trip
    of the 1x1 image [[-1]] is [[1]], at distance 2 from the original. *)
Lemma negative_image_counterexample :
  let img := mkarr 1 1 [(-1)%R] in
  exists k img',
    np_fft img (Np.zeros_like img) = Py.Done k /\
    np_ifft k (Np.zeros_like img) = Py.Done img' /\
    Np.cell img 0 0 = (-1)%R /\
    Np.cell img' 0 0 = 1%R /\
    Rabs (Np.cell img' 0 0 - Np.cell img 0 0) = 2%R.
Proof.
  intros img.
  destruct (@round_trip_magnitude img (Np.zeros_like img) (Np.zeros_like img))
    as [k [Hk [_ Hinv]]]; try reflexivity; [discriminate|].
  exists k, (Np.map Rabs img). split; [exact Hk|]. split; [exact Hinv|].
  assert (H1 : Np.cell (Np.map Rabs img) 0 0 = 1%R).
  { unfold Np.cell, img; simpl. rewrite Rabs_left by lra. lra. }
  split; [reflexivity|]. split; [exact H1|].
  rewrite H1. unfold Np.cell, img; simpl.
  rewrite Rabs_pos_eq; lra.
Qed.

(** ** Shapes *)

Section ShapeFacts.
Context {A : Type} {ZA : Zero A}.

Lemma store_shape (v out : ndarray A) :
  Np.shape (Py.final (Np.store v out)) = Np.shape out.
Proof. unfold Np.store. destruct (Np.broadcasts _ _ _); reflexivity. Qed.

Lemma assign_rows_shape rs (v a : ndarray A) :
  Np.shape (Py.final (Np.assign_rows rs v a)) = Np.shape a.
Proof. unfold Np.assign_rows. destruct (Np.broadcasts _ _ _); reflexivity. Qed.

Lemma assign_rows_done_shape rs (v a a' : ndarray A) :
  Np.assign_rows rs v a = Py.Done a' -> Np.shape a' = Np.shape a.
Proof.
  intros H. pose proof (assign_rows_shape rs v a) as Hs. now rewrite H in Hs.
Qed.

End ShapeFacts.

Lemma zip_into_shape {A B} {ZA : Zero A} {ZB : Zero B} (f : A -> B -> A)
  (a : ndarray A) (b : ndarray B) :
  Np.shape (Py.final (Np.zip_into f a b)) = Np.shape a.
Proof. unfold Np.zip_into. destruct (Np.broadcasts _ _ _); reflexivity. Qed.

Lemma reduced_scan_percentage_shape k p :
  Np.shape (reduced_scan_percentage k p) = Np.shape k.
Proof.
  unfold reduced_scan_percentage.
  destruct (_ <? _)%Z; [destruct (_ =? _)%Z|]; reflexivity.
Qed.

Lemma high_pass_filter_shape k r : Np.shape (high_pass_filter k r) = Np.shape k.
Proof. unfold high_pass_filter. destruct (Py.ltb _ _); reflexivity. Qed.

Lemma low_pass_filter_shape k r : Np.shape (low_pass_filter k r) = Np.shape k.
Proof. unfold low_pass_filter. destruct (Py.ltb _ _); reflexivity. Qed.

Lemma add_noise_shape k snr noise g randn :
  Np.shape (fst (Py.final (add_noise k snr noise g randn))) = Np.shape k.
Proof.
  unfold add_noise. destruct (Py.ltb _ _); [|reflexivity].
  destruct (if g then _ else _) as [n|e n]; [|reflexivity].
  pose proof (zip_into_shape (fun z x => C.add z (C.of_real x)) k n) as H.
  destruct (Np.zip_into _ _ _); exact H.
Qed.

Lemma partial_fourier_shape k p zf :
  Np.shape (Py.final (partial_fourier k p zf)) = Np.shape k.
Proof.
  unfold partial_fourier.
  destruct (negb _); [|reflexivity].
  destruct (negb _ && zf); [reflexivity|].
  destruct (negb _); [|reflexivity].
  match goal with
  | |- context [Py.bind (Np.assign_rows ?rs ?v k) _] =>
      pose proof (assign_rows_shape rs v k) as H;
      destruct (Np.assign_rows rs v k) as [a|e a]
  end; simpl in *; exact H.
Qed.

Lemma hamming_shape k : Np.shape (Py.final (hamming k)) = Np.shape k.
Proof. unfold hamming. apply zip_into_shape. Qed.

Lemma decrease_dc_shape k p : Np.shape (Py.final (decrease_dc k p)) = Np.shape k.
Proof. unfold decrease_dc. destruct (_ && _); reflexivity. Qed.

Lemma write_spikes_shape v spikes : forall k,
  Np.shape (Py.final (write_spikes v spikes k)) = Np.shape k.
Proof.
  induction spikes as [|[r c] rest IH]; intros k; simpl; [reflexivity|].
  destruct (Np.norm_index _ r); [|reflexivity].
  destruct (Np.norm_index _ c); [|reflexivity].
  now rewrite IH.
Qed.

Lemma apply_spikes_shape k spikes :
  Np.shape (Py.final (apply_spikes k spikes)) = Np.shape k.
Proof.
  unfold apply_spikes. destruct (Np.cmax k); [apply write_spikes_shape | reflexivity].
Qed.

Lemma apply_patches_shape patches : forall k,
  Np.shape (apply_patches k patches) = Np.shape k.
Proof.
  unfold apply_patches.
  induction patches as [|[[x y] size] rest IH]; intros k; simpl; [reflexivity|].
  now rewrite IH.
Qed.

Lemma filling_linear_shape k v : Np.shape (filling_linear k v) = Np.shape k.
Proof. reflexivity. Qed.

(** Two row assignments in sequence keep the shape of the receiver. *)
Lemma assign_twice_shape rs1 rs2 (v1 v2 k : ndarray complex) :
  Np.shape (Py.final (Py.bind (Np.assign_rows rs1 v1 k)
                        (fun k1 => Np.assign_rows rs2 v2 k1))) = Np.shape k.
Proof.
  pose proof (assign_rows_shape rs1 v1 k) as H1.
  destruct (Np.assign_rows rs1 v1 k) as [k1|e k1]; simpl in *; [|exact H1].
  now rewrite assign_rows_shape.
Qed.

Lemma filling_centric_shape k v :
  Np.shape (Py.final (filling_centric k v)) = Np.shape k.
Proof.
  unfold filling_centric, try.
  destruct (Np.assign_rows _ _ _) as [c1|]; [|reflexivity].
  destruct (Np.assign_rows _ _ c1) as [c2|]; [|reflexivity].
  apply assign_twice_shape.
Qed.

Lemma filling_ss_epi_blipped_shape k v :
  Np.shape (Py.final (filling_ss_epi_blipped k v)) = Np.shape k.
Proof.
  unfold filling_ss_epi_blipped, try.
  destruct (Np.assign_rows _ _ _) as [e1|]; [|reflexivity].
  destruct (Np.assign_rows _ _ e1) as [e2|]; [|reflexivity].
  apply assign_twice_shape.
Qed.

Lemma filling_shape k v mode : Np.shape (Py.final (filling k v mode)) = Np.shape k.
Proof.
  unfold filling.
  destruct (_ =? _)%Z; [reflexivity|].
  destruct (_ =? _)%Z; [apply filling_centric_shape|].
  destruct (_ =? _)%Z; [apply filling_ss_epi_blipped_shape | reflexivity].
Qed.

Lemma np_fft_shape i out : Np.shape (Py.final (np_fft i out)) = Np.shape out.
Proof. unfold np_fft. destruct (_ =? _); [reflexivity | apply store_shape]. Qed.

Lemma np_ifft_shape k out : Np.shape (Py.final (np_ifft k out)) = Np.shape out.
Proof. unfold np_ifft. destruct (_ =? _); [reflexivity | apply store_shape]. Qed.

Lemma normalise_shape f : Np.shape (Py.final (normalise f)) = Np.shape f.
Proof.
  unfold normalise. destruct (Np.amin f), (Np.amax f); try reflexivity.
  destruct (Reqb _ _); reflexivity.
Qed.

Lemma apply_window_shape f w : Np.shape (Py.final (apply_window f w)) = Np.shape f.
Proof.
  unfold apply_window. destruct (Np.amax f), (Np.amin f); try reflexivity.
  destruct (Reqb _ _); reflexivity.
Qed.

(** ** The shape invariant *)

Lemma same_shapes_refl s : same_shapes s s.
Proof. repeat split. Qed.

Lemma same_shapes_trans s1 s2 s3 :
  same_shapes s1 s2 -> same_shapes s2 s3 -> same_shapes s1 s3.
Proof.
  unfold same_shapes. intros [A1 [A2 [A3 A4]]] [B1 [B2 [B3 B4]]].
  repeat split; congruence.
Qed.

Lemma same_shapes_agree s s' :
  same_shapes s s' -> shapes_agree s -> shapes_agree s'.
Proof.
  unfold same_shapes, shapes_agree. intros [A1 [A2 [A3 A4]]] [B1 [B2 B3]].
  repeat split; congruence.
Qed.

Lemma final_upd {T} (o : Py.outcome T) set : Py.final (upd o set) = set (Py.final o).
Proof. now destruct o. Qed.

Lemma bind_same s (o : Py.outcome ImageManipulators) f :
  same_shapes s (Py.final o) ->
  (forall t, same_shapes t (Py.final (f t))) ->
  same_shapes s (Py.final (Py.bind o f)).
Proof.
  intros Ho Hf. destruct o as [t|e t]; simpl in *; [|exact Ho].
  apply same_shapes_trans with t; auto.
Qed.

Lemma bind_agree (o : Py.outcome ImageManipulators) f :
  shapes_agree (Py.final o) ->
  (forall t, shapes_agree t -> shapes_agree (Py.final (f t))) ->
  shapes_agree (Py.final (Py.bind o f)).
Proof. intros Ho Hf. destruct o as [t|e t]; simpl in *; auto. Qed.

Lemma upd_kspacedata_same s (o : Py.outcome (ndarray complex)) :
  Np.shape (Py.final o) = Np.shape (kspacedata s) ->
  same_shapes s (Py.final (upd o (with_kspacedata s))).
Proof. intros H. rewrite final_upd. repeat split. exact H. Qed.

Lemma with_kspacedata_same s k :
  Np.shape k = Np.shape (kspacedata s) -> same_shapes s (with_kspacedata s k).
Proof. intros H. repeat split. exact H. Qed.

Lemma upd_img_same s (o : Py.outcome (ndarray R)) :
  Np.shape (Py.final o) = Np.shape (img s) ->
  same_shapes s (Py.final (upd o (with_img s))).
Proof. intros H. rewrite final_upd. repeat split. exact H. Qed.

Lemma upd_kspace_abs_same s (o : Py.outcome (ndarray R)) :
  same_shapes s (Py.final (upd o (with_kspace_abs s))).
Proof. rewrite final_upd. repeat split. Qed.

Lemma upd_image_display_data_same s (o : Py.outcome (ndarray Z)) :
  Np.shape (Py.final o) = Np.shape (image_display_data s) ->
  same_shapes s (Py.final (upd o (with_image_display_data s))).
Proof. intros H. rewrite final_upd. repeat split. exact H. Qed.

Lemma upd_kspace_display_data_same s (o : Py.outcome (ndarray Z)) :
  Np.shape (Py.final o) = Np.shape (kspace_display_data s) ->
  same_shapes s (Py.final (upd o (with_kspace_display_data s))).
Proof. intros H. rewrite final_upd. repeat split. exact H. Qed.

Lemma prepare_displays_same kscale lut s :
  same_shapes s (Py.final (prepare_displays kscale lut s)).
Proof.
  unfold prepare_displays.
  apply bind_same; [apply upd_img_same, apply_window_shape|]. intros s1.
  apply bind_same; [apply upd_kspace_abs_same|]. intros s2.
  apply bind_same.
  { destruct (Np.amax (kspace_abs s2)); [|apply same_shapes_refl].
    destruct (Rltb 0 r); [|apply same_shapes_refl].
    apply bind_same; [apply upd_kspace_abs_same|]. intros s3.
    apply upd_kspace_abs_same. }
  intros s4.
  apply bind_same; [apply upd_image_display_data_same, store_shape|]. intros s5.
  apply upd_kspace_display_data_same, store_shape.
Qed.

Lemma resize_arrays_agree size s : shapes_agree (resize_arrays size s).
Proof. destruct size as [m n]. repeat split. Qed.

Lemma undersample_agree s factor compress :
  shapes_agree s -> shapes_agree (Py.final (undersample s factor compress)).
Proof.
  intros Hs. unfold undersample.
  destruct (1 <? factor)%Z; [|exact Hs].
  destruct compress.
  - destruct (ncols (kspacedata s) =? 0); [exact Hs|].
    destruct (_ =? _); [|exact Hs].
    eapply same_shapes_agree.
    + apply upd_kspacedata_same, store_shape.
    + apply resize_arrays_agree.
  - simpl. apply (same_shapes_agree (s := s)); [|exact Hs].
    apply with_kspacedata_same. reflexivity.
Qed.

Lemma undersample_same s factor :
  same_shapes s (Py.final (undersample s factor false)).
Proof.
  unfold undersample. destruct (1 <? factor)%Z; [|apply same_shapes_refl].
  simpl. apply with_kspacedata_same. reflexivity.
Qed.

Lemma run_same op s :
  calls_resize_arrays op = false -> same_shapes s (Py.final (run op s)).
Proof.
  destruct op as [| | | | | | |factor [|]| | | | | | | |]; simpl;
    try discriminate; intros _.
  - rewrite final_upd. repeat split. simpl. apply add_noise_shape.
  - apply upd_kspacedata_same, apply_spikes_shape.
  - apply with_kspacedata_same, apply_patches_shape.
  - apply with_kspacedata_same, reduced_scan_percentage_shape.
  - apply upd_kspacedata_same, partial_fourier_shape.
  - apply with_kspacedata_same, high_pass_filter_shape.
  - apply with_kspacedata_same, low_pass_filter_shape.
  - apply undersample_same.
  - apply upd_kspacedata_same, decrease_dc_shape.
  - apply upd_kspacedata_same, hamming_shape.
  - apply upd_kspacedata_same, filling_shape.
  - apply upd_kspacedata_same, np_fft_shape.
  - apply upd_img_same, np_ifft_shape.
  - apply prepare_displays_same.
Qed.

Lemma upd_kspacedata_agree s (o : Py.outcome (ndarray complex)) :
  shapes_agree s ->
  Np.shape (Py.final o) = Np.shape (kspacedata s) ->
  shapes_agree (Py.final (upd o (with_kspacedata s))).
Proof.
  intros Hs H. eapply same_shapes_agree; [|exact Hs].
  now apply upd_kspacedata_same.
Qed.

Lemma with_kspacedata_agree s k :
  shapes_agree s -> Np.shape k = Np.shape (kspacedata s) ->
  shapes_agree (with_kspacedata s k).
Proof.
  intros Hs H. eapply same_shapes_agree; [|exact Hs].
  now apply with_kspacedata_same.
Qed.

Lemma upd_img_agree s (o : Py.outcome (ndarray R)) :
  shapes_agree s ->
  Np.shape (Py.final o) = Np.shape (img s) ->
  shapes_agree (Py.final (upd o (with_img s))).
Proof.
  intros Hs H. eapply same_shapes_agree; [|exact Hs].
  now apply upd_img_same.
Qed.

Lemma add_noise_agree s snr g randn :
  shapes_agree s ->
  shapes_agree
    (Py.final (upd (add_noise (kspacedata s) snr (noise_map s) g randn)
                 (fun kn => with_noise_map (with_kspacedata s (fst kn)) (snd kn)))).
Proof.
  intros Hs. eapply same_shapes_agree; [|exact Hs].
  rewrite final_upd. repeat split. simpl. apply add_noise_shape.
Qed.

Lemma prepare_displays_agree kscale lut s :
  shapes_agree s -> shapes_agree (Py.final (prepare_displays kscale lut s)).
Proof.
  intros Hs. eapply same_shapes_agree; [apply prepare_displays_same | exact Hs].
Qed.

Lemma done_agree s : shapes_agree s -> shapes_agree (Py.final (Py.Done s)).
Proof. auto. Qed.

Create HintDb shapes.

#[local] Hint Resolve upd_kspacedata_agree with_kspacedata_agree upd_img_agree
  add_noise_agree prepare_displays_agree undersample_agree done_agree
  store_shape apply_spikes_shape apply_patches_shape
  reduced_scan_percentage_shape partial_fourier_shape high_pass_filter_shape
  low_pass_filter_shape decrease_dc_shape hamming_shape filling_shape
  np_ifft_shape np_fft_shape : shapes.

Ltac agree :=
  repeat match goal with
         | |- shapes_agree (Py.final (if ?c then _ else _)) => destruct c
         | |- shapes_agree (if ?c then _ else _) => destruct c
         end;
  auto 6 with shapes.

(** Name the slice a stage works on, once it is known to satisfy the
    invariant. *)
Ltac name_state E :=
  let H := fresh "H" in
  assert (H : shapes_agree E) by agree;
  revert H; generalize E; intros ? ?.

Lemma image_change_agree ui randn im :
  shapes_agree (Py.final (image_change ui randn im)).
Proof.
  unfold image_change.
  pose proof (resize_arrays_agree (Np.shape (orig_kspacedata im)) im) as H0.
  revert H0. generalize (resize_arrays (Np.shape (orig_kspacedata im)) im).
  intros s0 H0. cbv zeta.
  apply bind_agree; [agree|]. intros ? ?.
  match goal with |- context [add_noise (kspacedata ?E)] => name_state E end.
  apply bind_agree; [agree|]. intros ? ?.
  apply bind_agree; [agree|]. intros ? ?.
  match goal with |- context [partial_fourier (kspacedata ?E)] => name_state E end.
  apply bind_agree; [agree|]. intros ? ?.
  match goal with |- context [undersample ?E] => name_state E end.
  apply bind_agree; [agree|]. intros ? ?.
  apply bind_agree; [agree|]. intros ? ?.
  apply bind_agree; [agree|]. intros ? ?.
  apply bind_agree; [agree|]. intros ? ?.
  apply bind_agree; [agree|]. intros ? ?.
  agree.
Qed.

Lemma init_agree pd : shapes_agree (Py.final (init pd)).
Proof.
  unfold init. cbv zeta.
  apply bind_agree.
  - destruct pd as [a|a]; [apply upd_kspacedata_agree | apply upd_img_agree];
      try (repeat split); auto with shapes.
  - intros s1 H1. apply bind_agree; [|auto with shapes].
    rewrite final_upd. exact H1.
Qed.

(** C9. After construction and after every engine operation the image
    buffer, the image display buffer, the k-space display buffer and the
    working k-space have one 2D shape, whether the operation returned or
    raised; and an operation that does not call [resize_arrays], that is any
    other than an explicit resize, undersampling with compression and the
    recompute, leaves the shape of the working k-space as it was. *)
Theorem shape_consistency :
  (forall pd, shapes_agree (Py.final (init pd))) /\
  (forall op s,
     shapes_agree s ->
     shapes_agree (Py.final (run op s)) /\
     (calls_resize_arrays op = false ->
      Np.shape (kspacedata (Py.final (run op s))) = Np.shape (kspacedata s))).
Proof.
  split; [exact init_agree|].
  intros op s Hs. split.
  - destruct (calls_resize_arrays op) eqn:E.
    + destruct op as [| | | | | | |factor [|]| | | | | | |size|ui randn];
        try discriminate E; simpl.
      * now apply undersample_agree.
      * apply resize_arrays_agree.
      * apply image_change_agree.
    + apply (same_shapes_agree (s := s)); [now apply run_same | exact Hs].
  - intros E. now destruct (@run_same op s E) as [_ [H _]].
Qed.

(** ** Instances on concrete inputs *)

Lemma two_pixels_max : Np.amax (mkarr 1 2 [0%R; 1%R]) = Some 1%R.
Proof. unfold Np.amax; simpl. f_equal. apply Rmax_right. lra. Qed.

Lemma two_pixels_min : Np.amin (mkarr 1 2 [0%R; 1%R]) = Some 0%R.
Proof. unfold Np.amin; simpl. f_equal. apply Rmin_left. lra. Qed.

(** The round trip of the 1x2 image [[1, 2]] (odd by even). *)
Lemma transform_round_trip_witness :
  let img := mkarr 1 2 [1%R; 2%R] in
  exists k,
    np_fft img (Np.zeros_like img) = Py.Done k /\
    np_ifft k (Np.zeros_like img) = Py.Done img.
Proof.
  intros img.
  destruct (@transform_round_trip img (Np.zeros_like img) (Np.zeros_like img))
    as [k [H1 [_ H3]]]; [reflexivity | discriminate | reflexivity | reflexivity |].
  exists k. split; [exact H1|]. apply H3.
  intros x [<-|[<-|[]]]; lra.
Defined.

(** A spike at column -1 of the k-space [[3, 1]]. *)
Lemma apply_spikes_cells_witness :
  let k := mkarr 1 2 [mkC 3 0; mkC 1 0] in
  exists k' m,
    apply_spikes k [(0, -1)%Z] = Py.Done k' /\
    In m (flat k) /\
    Np.cell k' 0 1 = C.scale m 2 /\
    Np.cell k' 0 0 = Np.cell k 0 0.
Proof.
  intros k.
  destruct (@apply_spikes_cells k [(0, -1)%Z]) as [k' [m [E [_ [Hin [_ Hcell]]]]]].
  - discriminate.
  - repeat constructor; simpl; lia.
  - exists k', m. split; [exact E|]. split; [exact Hin|]. split.
    + now rewrite Hcell by (simpl; lia).
    + now rewrite Hcell by (simpl; lia).
Defined.





(** Cached noise at 10 dB on a single sample. *)
Lemma add_noise_reuses_cached_map_witness :
  let k := Np.full 1 1 C.one in
  let noise := Np.full 1 1 2%R in
  exists k1 k2,
    add_noise k 10 noise false (fun _ _ => 0%R) = Py.Done (k1, noise) /\
    add_noise k 10 noise false (fun _ _ => 1%R) = Py.Done (k2, noise) /\
    Np.cell k1 0 0 = Np.cell k2 0 0.
Proof.
  intros k noise.
  destruct (proj2 (add_noise_reuses_cached_map k k 10 noise false
                     (fun _ _ => 0%R) (fun _ _ => 1%R)) eq_refl eq_refl eq_refl)
    as [k1 [k2 [n1 [E1 [E2 [-> [_ [_ Hcell]]]]]]]].
  exists k1, k2. split; [exact E1|]. split; [exact E2|].
  destruct (Hcell 0 0) as [H1 H2]; try (simpl; lia). congruence.
Defined.

(** Acceleration factor 1 and radius 0 on a slice of one sample. *)
Lemma boundary_parameters_disable_witness :
  let k := Np.full 1 1 C.one in
  let im := mkIM (Np.full 1 1 1%R) k (Np.full 1 1 1%Z) (Np.full 1 1 0%Z) k
                 (Np.full 1 1 1%R) (Np.full 1 1 0%R) 30 [] [] in
  undersample im 1 true = Py.Done im /\
  high_pass_filter k 0 = k.
Proof.
  intros k im.
  apply (@boundary_parameters_disable im k 1 true 0).
  - lia.
  - discriminate.
Defined.

(** A high-pass filter on the slice built from the image [[1, 2]]. *)
Lemma shape_consistency_witness :
  let s := Py.final (init (Image (mkarr 1 2 [1%R; 2%R]))) in
  shapes_agree s /\ shapes_agree (Py.final (run (HighPassFilter 10) s)).
Proof.
  intros s.
  assert (Hs : shapes_agree s) by apply (proj1 shape_consistency).
  split; [exact Hs|].
  apply (proj2 shape_consistency (HighPassFilter 10) s Hs).
Defined.

(** The full-range window on the array [[0, 1]]. *)
Lemma apply_window_clips_witness :
  let f := mkarr 1 2 [0%R; 1%R] in
  exists f', apply_window f (Some (mkWindow 1 (1 # 2))) = Py.Done f' /\
             Np.cell f' 0 0 = 0%R.
Proof.
  intros f.
  destruct (@apply_window_clips f (mkWindow 1 (1 # 2)) 1%R 0%R)
    as [f' [E [_ Hcell]]].
  - reflexivity.
  - exact two_pixels_max.
  - exact two_pixels_min.
  - lra.
  - exists f'. split; [exact E|].
    assert (H1 : Q2R 1 = 1%R) by (unfold Q2R; simpl; lra).
    assert (H2 : Q2R (1 # 2) = (1 / 2)%R) by (unfold Q2R; simpl; lra).
    destruct (Hcell 0 0) as [_ H0]; [simpl; lia | simpl; lia |].
    apply H0; cbn [ww wc]; rewrite H1, ?H2; unfold Np.cell; cbn [nth flat f Nat.add Nat.mul ncols];
      lra.
Defined.

(** * Further properties of the engine *)

(** ** What a recompute leaves alone *)

Lemma bind_keeps {X} (proj : ImageManipulators -> X) s
  (o : Py.outcome ImageManipulators) f :
  proj (Py.final o) = proj s ->
  (forall t, proj (Py.final (f t)) = proj t) ->
  proj (Py.final (Py.bind o f)) = proj s.
Proof.
  intros Ho Hf. destruct o as [t|e t]; simpl in *; [|exact Ho].
  now rewrite Hf.
Qed.

(** One step of a proof that a call leaves the attribute [proj] alone. *)
Ltac keeps_step proj :=
  match goal with
  | |- proj (Py.final (Py.bind _ _)) = _ =>
      apply (@bind_keeps _ proj); [|intros ?; cbv zeta]
  | |- context [Py.final (upd _ _)] => rewrite final_upd
  | |- context [if ?c then _ else _] => destruct c
  | |- context [match ?x with Some _ => _ | None => _ end] => destruct x
  | |- context [let (_, _) := ?x in _] => destruct x
  end.

Ltac keeps proj := unfold proj; repeat keeps_step proj; try reflexivity.

Lemma undersample_keeps_config s factor compress :
  orig_kspacedata (Py.final (undersample s factor compress)) = orig_kspacedata s /\
  spikes (Py.final (undersample s factor compress)) = spikes s /\
  patches (Py.final (undersample s factor compress)) = patches s.
Proof.
  unfold undersample.
  repeat match goal with
         | |- context [if ?c then _ else _] => destruct c
         end; rewrite ?final_upd; repeat split.
Qed.

Lemma prepare_displays_keeps kscale lut s :
  kspacedata (Py.final (prepare_displays kscale lut s)) = kspacedata s /\
  orig_kspacedata (Py.final (prepare_displays kscale lut s)) = orig_kspacedata s /\
  spikes (Py.final (prepare_displays kscale lut s)) = spikes s /\
  patches (Py.final (prepare_displays kscale lut s)) = patches s.
Proof.
  unfold prepare_displays. repeat split.
  - repeat keeps_step kspacedata; reflexivity.
  - repeat keeps_step orig_kspacedata; reflexivity.
  - repeat keeps_step spikes; reflexivity.
  - repeat keeps_step patches; reflexivity.
Qed.

Ltac keeps_undersample :=
  match goal with
  | |- context [Py.final (undersample ?E ?f ?c)] =>
      destruct (undersample_keeps_config E f c) as [? [? ?]]
  end.

Lemma image_change_keeps_config ui randn im :
  orig_kspacedata (Py.final (image_change ui randn im)) = orig_kspacedata im /\
  spikes (Py.final (image_change ui randn im)) = spikes im /\
  patches (Py.final (image_change ui randn im)) = patches im.
Proof.
  unfold image_change. cbv zeta. repeat split.
  - repeat keeps_step orig_kspacedata; try reflexivity;
      try apply prepare_displays_keeps;
      try (keeps_undersample; simpl in *; congruence).
  - repeat keeps_step spikes; try reflexivity;
      try apply prepare_displays_keeps;
      try (keeps_undersample; simpl in *; congruence).
  - repeat keeps_step patches; try reflexivity;
      try apply prepare_displays_keeps;
      try (keeps_undersample; simpl in *; congruence).
Qed.


(** X1. No operation of the engine, the whole recompute included, modifies
    the snapshot of the original k-space or the recorded lists of spikes and
    patches, whether it returns or raises. *)
Theorem engine_keeps_snapshot (op : operation) (s : ImageManipulators) :
  orig_kspacedata (Py.final (run op s)) = orig_kspacedata s /\
  spikes (Py.final (run op s)) = spikes s /\
  patches (Py.final (run op s)) = patches s.
Proof.
  destruct op; simpl; rewrite ?final_upd;
    try (repeat split; reflexivity).
  - apply undersample_keeps_config.
  - apply prepare_displays_keeps.
  - destruct size; repeat split.
  - apply image_change_keeps_config.
Qed.

Lemma bind_pred (P : ImageManipulators -> Prop)
  (o : Py.outcome ImageManipulators) f :
  P (Py.final o) -> (forall t, P t -> P (Py.final (f t))) ->
  P (Py.final (Py.bind o f)).
Proof. intros Ho Hf. destruct o as [t|e t]; simpl in *; auto. Qed.

Lemma reduced_scan_percentage_skip k p :
  (100 <= Py.int p)%Z -> reduced_scan_percentage k p = k.
Proof.
  intros H. unfold reduced_scan_percentage.
  destruct (Z.ltb_spec (Py.int p) 100); [lia | reflexivity].
Qed.

Lemma partial_fourier_skip k p zf :
  Py.int p = 100%Z -> partial_fourier k p zf = Py.Done k.
Proof. intros H. unfold partial_fourier. now rewrite H. Qed.

Lemma undersample_skip s factor c :
  (factor <= 1)%Z -> undersample s factor c = Py.Done s.
Proof.
  intros H. unfold undersample. destruct (Z.ltb_spec 1 factor); [lia | reflexivity].
Qed.

Lemma add_noise_skip k snr noise g randn :
  (30 <= snr)%Q -> add_noise k snr noise g randn = Py.Done (k, noise).
Proof. intros H. unfold add_noise. now rewrite ltb_false_of_le. Qed.

(** X2. Reset: with no spike and no patch recorded and every filter disabled
    or set to its neutral value, a recompute leaves the working k-space equal
    to the snapshot of the original k-space, whatever the working buffers held
    before. *)
Theorem image_change_reset ui randn im :
  filters_disabled ui ->
  Np.well_shaped (orig_kspacedata im) ->
  spikes im = [] -> patches im = [] ->
  kspacedata (Py.final (image_change ui randn im)) = orig_kspacedata im.
Proof.
  intros (Hn & Hr & Hp & Hh & Hl & Hu & Hd & Hham & Hf) Hws Hsp Hpa.
  set (P := fun t => kspacedata t = orig_kspacedata im /\ spikes t = []
                     /\ patches t = []).
  enough (HP : P (Py.final (image_change ui randn im))) by apply HP.
  unfold image_change. cbv zeta.
  apply bind_pred.
  { rewrite store_same by (try assumption; reflexivity).
    simpl. repeat split; assumption. }
  intros t (Hk & Hs & Hq).
  apply bind_pred.
  { rewrite add_noise_skip by assumption. simpl.
    destruct (negb _); repeat split; assumption. }
  clear t Hk Hs Hq. intros t (Hk & Hs & Hq).
  apply bind_pred.
  { rewrite Hs. unfold apply_spikes.
    destruct (Np.cmax (kspacedata t)); simpl; repeat split; assumption. }
  clear t Hk Hs Hq. intros t (Hk & Hs & Hq).
  match goal with |- context [partial_fourier (kspacedata ?E)] =>
    assert (HE : P E);
    [|revert HE; generalize E; clear t Hk Hs Hq; intros t (Hk & Hs & Hq)]
  end.
  { rewrite Hq. simpl apply_patches.
    destruct (rdc_slider_enabled ui); [|repeat split; assumption].
    destruct Hr as [Hr|Hr]; [discriminate|].
    rewrite reduced_scan_percentage_skip by assumption.
    repeat split; assumption. }
  apply bind_pred.
  { destruct (partial_fourier_slider_enabled ui); [|repeat split; assumption].
    destruct Hp as [Hp|Hp]; [discriminate|].
    rewrite partial_fourier_skip by assumption. repeat split; assumption. }
  clear t Hk Hs Hq. intros t (Hk & Hs & Hq).
  match goal with |- context [undersample ?E] =>
    assert (HE : P E);
    [|revert HE; generalize E; clear t Hk Hs Hq; intros t (Hk & Hs & Hq)]
  end.
  { unfold high_pass_filter, low_pass_filter.
    rewrite !ltb_false_of_le by assumption. repeat split; assumption. }
  apply bind_pred.
  { destruct (negb _); [|repeat split; assumption].
    rewrite undersample_skip by assumption. repeat split; assumption. }
  clear t Hk Hs Hq. intros t (Hk & Hs & Hq).
  apply bind_pred.
  { destruct (Z.ltb_spec 1 (Py.int (decrease_dc_value ui))); [lia|].
    repeat split; assumption. }
  clear t Hk Hs Hq. intros t (Hk & Hs & Hq).
  apply bind_pred.
  { rewrite Hham. repeat split; assumption. }
  clear t Hk Hs Hq. intros t (Hk & Hs & Hq).
  apply bind_pred.
  { rewrite ltb_false_of_le by assumption. repeat split; assumption. }
  clear t Hk Hs Hq. intros t (Hk & Hs & Hq).
  apply bind_pred.
  { rewrite final_upd. repeat split; assumption. }
  clear t Hk Hs Hq. intros t (Hk & Hs & Hq).
  destruct (prepare_displays_keeps (Py.int (ksp_const ui))
              (Some (mkWindow (window_ww ui) (window_wc ui))) t)
    as (E1 & _ & E3 & E4).
  unfold P. rewrite E1, E3, E4. repeat split; assumption.
Qed.

Lemma image_change_reset_witness :
  let k := mkarr 1 2 [mkC 3 0; mkC 1 0] in
  let im := mkIM (Np.full 2 2 7%R) (Np.full 2 2 C.one) (Np.full 2 2 1%Z)
                 (Np.full 2 2 0%Z) k (Np.full 2 2 1%R) (Np.full 1 2 0%R)
                 30 [] [] in
  let ui := mkControls 30 false 50 true 100 false 0 100 1 true 0 false 100 0
                       (-3) 1 (1 # 2) in
  kspacedata (Py.final (image_change ui (fun _ _ => 0%R) im)) = k.
Proof.
  intros k im ui.
  apply (@image_change_reset ui (fun _ _ => 0%R) im).
  - unfold filters_disabled, ui; simpl.
    repeat split; try discriminate; try (left; reflexivity);
      try (right; reflexivity).
  - reflexivity.
  - reflexivity.
  - reflexivity.
Defined.

(** ** Recorded spikes and patches *)

Lemma with_spikes_same s : with_spikes s (spikes s) = s.
Proof. now destruct s. Qed.

Lemma with_patches_same s : with_patches s (patches s) = s.
Proof. now destruct s. Qed.

(** X3. Undoing right after adding a spike, or a patch, gives back the slice
    as it was; undoing on an empty list leaves it empty and does not raise;
    and a click at [(mouse_x, mouse_y)] is recorded as the cell of row
    [int(mouse_y)] and column [int(mouse_x)]. *)
Theorem undo_restores_marks (im : ImageManipulators) (x y : Q) (r : Z) :
  undo_spike (add_spike x y im) = im /\
  undo_patch (add_patch x y r im) = im /\
  undo_spike (delete_spikes im) = delete_spikes im /\
  undo_patch (delete_patches im) = delete_patches im /\
  last (spikes (add_spike x y im)) (0, 0)%Z = (Py.int y, Py.int x).
Proof.
  split; [|split; [|split; [|split]]].
  - unfold undo_spike, add_spike.
    change (spikes (with_spikes im ?l)) with l.
    destruct (spikes im ++ [(Py.int y, Py.int x)]) eqn:E.
    + destruct (spikes im); discriminate.
    + rewrite <- E, removelast_last. destruct im; reflexivity.
  - unfold undo_patch, add_patch.
    change (patches (with_patches im ?l)) with l.
    destruct (patches im ++ [(Py.int y, Py.int x, r)]) eqn:E.
    + destruct (patches im); discriminate.
    + rewrite <- E, removelast_last. destruct im; reflexivity.
  - reflexivity.
  - reflexivity.
  - unfold add_spike. change (spikes (with_spikes im ?l)) with l.
    apply last_last.
Qed.

(** ** Patches *)

Section BlockFacts.
Context {A : Type} {ZA : Zero A}.

Lemma cell_set_block rs cs (v : A) a i j :
  i < nrows a -> j < ncols a ->
  Np.cell (Np.set_block rs cs v a) i j
  = if Py.selects (Py.indices rs (nrows a)) i
       && Py.selects (Py.indices cs (ncols a)) j
    then v else Np.cell a i j.
Proof. intros. unfold Np.set_block. now rewrite cell_where_set. Qed.

(** [a[max(x - size, 0) : x + size + 1]] reaches the indices within [size]
    of [x], when the stop is not negative. *)
Lemma selects_window x size len i :
  (0 <= x + size + 1)%Z -> i < len ->
  Py.selects (Py.indices (Py.from_to (Z.max (x - size) 0) (x + size + 1)) len) i
  = ((x - size <=? Z.of_nat i) && (Z.of_nat i <=? x + size))%Z.
Proof.
  intros Hstop Hi.
  apply selects_iff with (P := (x - size <= Z.of_nat i <= x + size)%Z).
  - rewrite in_from_to. unfold Py.adjust.
    change (1 <? 0)%Z with false; cbv iota.
    repeat match goal with
           | |- context [(?a <? ?b)%Z] => destruct (Z.ltb_spec a b)
           | |- context [(?a <=? ?b)%Z] => destruct (Z.leb_spec a b)
           end; lia.
  - rewrite andb_true_iff, !Z.leb_le. tauto.
Qed.

End BlockFacts.

(** X4. For patches whose centre and half width are not negative,
    [apply_patches] zeroes exactly the cells lying in the square of one of
    the patches, the squares being clipped by the array bounds, and leaves
    every other cell unchanged. *)
Theorem apply_patches_blocks (patches : list (Z * Z * Z)) :
  forall (k : ndarray complex) (i j : nat),
  Forall (fun p : Z * Z * Z =>
            let '(x, y, size) := p in (0 <= x)%Z /\ (0 <= y)%Z /\ (0 <= size)%Z)
         patches ->
  i < nrows k -> j < ncols k ->
  Np.shape (apply_patches k patches) = Np.shape k /\
  Np.cell (apply_patches k patches) i j
  = if existsb (in_patch i j) patches then zero else Np.cell k i j.
Proof.
  unfold apply_patches.
  induction patches as [|[[x y] size] rest IH]; intros k i j Hall Hi Hj.
  - split; reflexivity.
  - inversion Hall as [|p l Hp Hrest]; subst.
    simpl in Hp. destruct Hp as (Hx & Hy & Hs).
    cbn [fold_left existsb].
    set (k1 := Np.set_block _ _ zero k).
    destruct (IH k1 i j Hrest) as [Hshape Hcell]; try assumption.
    split; [exact Hshape|]. rewrite Hcell.
    unfold k1. rewrite cell_set_block by assumption.
    rewrite !selects_window by (try assumption; lia).
    destruct (existsb (in_patch i j) rest);
      [now rewrite orb_true_r | rewrite orb_false_r].
    unfold in_patch. now rewrite andb_assoc.
Qed.

Lemma apply_patches_blocks_witness :
  let k := Np.full 3 3 C.one in
  Np.cell (apply_patches k [(0, 0, 1)%Z]) 1 1 = zero /\
  Np.cell (apply_patches k [(0, 0, 1)%Z]) 2 2 = Np.cell k 2 2.
Proof.
  intros k.
  assert (H : Forall (fun p : Z * Z * Z =>
                        let '(x, y, size) := p in
                        (0 <= x)%Z /\ (0 <= y)%Z /\ (0 <= size)%Z)
                     [(0, 0, 1)%Z])
    by (repeat constructor; discriminate).
  split.
  - apply (proj2 (@apply_patches_blocks [(0, 0, 1)%Z] k 1 1 H
                    ltac:(simpl; lia) ltac:(simpl; lia))).
  - apply (proj2 (@apply_patches_blocks [(0, 0, 1)%Z] k 2 2 H
                    ltac:(simpl; lia) ltac:(simpl; lia))).
Defined.

(** ** The DC term *)

Lemma Q2R_percent (p : Z) :
  Q2R ((100 - inject_Z p) / 100) = ((100 - IZR p) / 100)%R.
Proof.
  rewrite Q2R_div by discriminate.
  rewrite Q2R_minus, Q2R_inject_Z.
  replace (Q2R 100) with 100%R by (unfold Q2R; simpl; field).
  reflexivity.
Qed.

(** X5. On an array with at least one row and one column [decrease_dc]
    returns and scales the single central cell [(rows // 2, cols // 2)] by
    [(100 - percentage) / 100], leaving every other cell unchanged; on an
    array with an empty axis it raises [IndexError] and changes nothing. *)
Theorem decrease_dc_centre (k : ndarray complex) (p : Z) :
  (0 < nrows k -> 0 < ncols k ->
   exists k',
     decrease_dc k p = Py.Done k' /\
     Np.shape k' = Np.shape k /\
     forall i j, i < nrows k -> j < ncols k ->
       Np.cell k' i j
       = if (i =? nrows k / 2) && (j =? ncols k / 2)
         then C.scale (Np.cell k i j) ((100 - IZR p) / 100)
         else Np.cell k i j) /\
  (nrows k = 0 \/ ncols k = 0 -> decrease_dc k p = Py.Raised Py.IndexError k).
Proof.
  split.
  - intros Hr Hc. unfold decrease_dc.
    assert (Hx : nrows k / 2 < nrows k) by (apply Nat.div_lt; lia).
    assert (Hy : ncols k / 2 < ncols k) by (apply Nat.div_lt; lia).
    apply Nat.ltb_lt in Hx as Hx', Hy as Hy'. rewrite Hx', Hy'. cbv [andb].
    eexists. split; [reflexivity|]. split; [reflexivity|].
    intros i j Hi Hj. unfold Np.set_cell. rewrite cell_where_set by assumption.
    rewrite Q2R_percent.
    destruct (Nat.eqb_spec i (nrows k / 2)) as [->|]; [|reflexivity].
    destruct (Nat.eqb_spec j (ncols k / 2)) as [->|]; reflexivity.
  - intros H. unfold decrease_dc.
    destruct H as [H|H]; rewrite H; simpl; [reflexivity|].
    now rewrite andb_false_r.
Qed.

Lemma decrease_dc_centre_witness :
  let k := Np.full 3 2 C.one in
  exists k', decrease_dc k 40 = Py.Done k' /\
             Np.cell k' 1 1 = C.scale (Np.cell k 1 1) ((100 - 40) / 100) /\
             Np.cell k' 0 0 = Np.cell k 0 0.
Proof.
  intros k.
  destruct (proj1 (decrease_dc_centre k 40)) as [k' [E [_ Hcell]]];
    [simpl; lia | simpl; lia |].
  exists k'. split; [exact E|]. split.
  - now rewrite Hcell by (simpl; lia).
  - now rewrite Hcell by (simpl; lia).
Defined.

(** ** Spikes out of range *)

Lemma norm_index_out_of_range len z :
  (z < - Z.of_nat len \/ Z.of_nat len <= z)%Z -> Np.norm_index len z = None.
Proof.
  intros Hz. unfold Np.norm_index.
  destruct (Z.leb_spec 0 z), (Z.ltb_spec z (Z.of_nat len)),
           (Z.leb_spec (- Z.of_nat len) z), (Z.ltb_spec z 0); simpl;
    try reflexivity; lia.
Qed.

Lemma write_spikes_stops v good r c rest : forall k k' : ndarray complex,
  write_spikes v good k = Py.Done k' ->
  Np.norm_index (nrows k) r = None \/ Np.norm_index (ncols k) c = None ->
  write_spikes v (good ++ (r, c) :: rest) k = Py.Raised Py.IndexError k'.
Proof.
  induction good as [|[r0 c0] good IH]; intros k k' Hdone Hbad.
  - injection Hdone as <-. simpl.
    destruct Hbad as [H|H]; rewrite H; [reflexivity|].
    destruct (Np.norm_index (nrows k) r); reflexivity.
  - simpl in *.
    destruct (Np.norm_index (nrows k) r0) as [i|]; [|discriminate].
    destruct (Np.norm_index (ncols k) c0) as [j|]; [|discriminate].
    apply IH; assumption.
Qed.

(** X6. [apply_spikes] raises [ValueError] on an empty k-space, which it
    leaves unchanged.  When a recorded coordinate is out of the array bounds
    it raises [IndexError] at that spike: the spikes recorded before it are
    already written, at twice the maximum sample, the cells they do not
    designate are unchanged, and the spikes after it are not applied. *)
Theorem apply_spikes_raises (k : ndarray complex)
  (good : list (Z * Z)) (r c : Z) (rest : list (Z * Z)) :
  (flat k = [] ->
   apply_spikes k (good ++ (r, c) :: rest) = Py.Raised Py.ValueError k) /\
  (flat k <> [] ->
   Forall (fun s : Z * Z =>
             (- Z.of_nat (nrows k) <= fst s < Z.of_nat (nrows k))%Z /\
             (- Z.of_nat (ncols k) <= snd s < Z.of_nat (ncols k))%Z) good ->
   (r < - Z.of_nat (nrows k) \/ Z.of_nat (nrows k) <= r \/
    c < - Z.of_nat (ncols k) \/ Z.of_nat (ncols k) <= c)%Z ->
   exists k' m,
     apply_spikes k (good ++ (r, c) :: rest) = Py.Raised Py.IndexError k' /\
     Np.cmax k = Some m /\
     forall i j, i < nrows k -> j < ncols k ->
       Np.cell k' i j
       = if spike_at (nrows k) (ncols k) good i j
         then C.scale m 2 else Np.cell k i j).
Proof.
  split.
  - intros He. unfold apply_spikes, Np.cmax. now rewrite He.
  - intros Hne Hgood Hbad. unfold apply_spikes.
    destruct (Np.cmax k) as [m|] eqn:Em.
    + destruct (@write_spikes_cells (C.scale m 2) good k Hgood)
        as [k' [E [_ [_ Hcell]]]].
      exists k', m. split; [|split; [reflexivity | exact Hcell]].
      apply write_spikes_stops; [exact E|].
      destruct Hbad as [H|[H|[H|H]]];
        [left | left | right | right]; apply norm_index_out_of_range; lia.
    + unfold Np.cmax in Em. destruct (flat k); [contradiction | discriminate].
Qed.

Lemma apply_spikes_raises_witness :
  let k := mkarr 1 2 [mkC 3 0; mkC 1 0] in
  exists k' m,
    apply_spikes k ([(0, 1)%Z] ++ (5, 0)%Z :: [(0, 0)%Z])
    = Py.Raised Py.IndexError k' /\
    Np.cell k' 0 1 = C.scale m 2 /\ Np.cell k' 0 0 = Np.cell k 0 0.
Proof.
  intros k.
  destruct (proj2 (@apply_spikes_raises k [(0, 1)%Z] 5 0 [(0, 0)%Z]))
    as [k' [m [E [_ Hcell]]]].
  - discriminate.
  - repeat constructor; simpl; lia.
  - simpl; lia.
  - exists k', m. split; [exact E|]. split.
    + now rewrite Hcell by (simpl; lia).
    + now rewrite Hcell by (simpl; lia).
Defined.

(** ** The Hamming filter *)

Lemma np_hamming_length M : length (Np.np_hamming M) = M.
Proof.
  unfold Np.np_hamming. destruct (M <=? 1).
  - apply repeat_length.
  - now rewrite length_map, length_seq.
Qed.

Lemma np_hamming_bounds M i :
  i < M -> (0.08 <= nth i (Np.np_hamming M) 0 <= 1)%R.
Proof.
  intros Hi. unfold Np.np_hamming. destruct (Nat.leb_spec M 1) as [H1|H1].
  - rewrite nth_repeat_lt by exact Hi. lra.
  - set (g := fun n : nat => (0.54 - 0.46 * cos (2 * PI * INR n / INR (M - 1)))%R).
    rewrite nth_indep with (d' := g 0) by now rewrite length_map, length_seq.
    rewrite (map_nth g), seq_nth by exact Hi. unfold g.
    pose proof (COS_bound (2 * PI * INR (0 + i) / INR (M - 1))) as [Hlo Hhi].
    lra.
Qed.

Lemma abs_scale (a : complex) (x : R) : C.abs (C.scale a x) = (Rabs x * C.abs a)%R.
Proof.
  unfold C.abs, C.scale; simpl.
  replace (re a * x * (re a * x) + im a * x * (im a * x))%R
    with (Rsqr x * (re a * re a + im a * im a))%R by (unfold Rsqr; ring).
  rewrite sqrt_mult; [|apply Rle_0_sqr | nra].
  now rewrite sqrt_Rsqr_abs.
Qed.

Lemma abs_nonneg (a : complex) : (0 <= C.abs a)%R.
Proof. unfold C.abs. apply sqrt_pos. Qed.

(** X7. [hamming] always returns and keeps the shape; every sample is
    multiplied by the product of the two window values of its row and of its
    column, a factor between 0.08 * 0.08 and 1, so that no sample grows in
    magnitude. *)
Theorem hamming_attenuates (k : ndarray complex) :
  exists k',
    hamming k = Py.Done k' /\
    Np.shape k' = Np.shape k /\
    forall i j, i < nrows k -> j < ncols k ->
      let w := (nth i (Np.np_hamming (nrows k)) 0
                * nth j (Np.np_hamming (ncols k)) 0)%R in
      Np.cell k' i j = C.scale (Np.cell k i j) w /\
      (0.08 * 0.08 <= w <= 1)%R /\
      (C.abs (Np.cell k' i j) <= C.abs (Np.cell k i j))%R.
Proof.
  unfold hamming.
  rewrite zip_into_same
    by (unfold Np.outer; simpl; apply np_hamming_length).
  eexists. split; [reflexivity|]. split; [reflexivity|].
  intros i j Hi Hj.
  set (w := (nth i (Np.np_hamming (nrows k)) 0
             * nth j (Np.np_hamming (ncols k)) 0)%R).
  rewrite cell_tabulate by assumption.
  rewrite bcell_same
    by (unfold Np.outer; simpl; rewrite np_hamming_length; assumption).
  unfold Np.outer. rewrite cell_tabulate by (rewrite np_hamming_length; assumption).
  fold w.
  pose proof (np_hamming_bounds Hi) as Bi. pose proof (np_hamming_bounds Hj) as Bj.
  assert (Hw : (0.08 * 0.08 <= w <= 1)%R) by (unfold w; nra).
  split; [reflexivity|]. split; [exact Hw|].
  rewrite abs_scale, Rabs_pos_eq by lra.
  pose proof (abs_nonneg (Np.cell k i j)). nra.
Qed.

(** ** Normalisation *)

Lemma fold_max_ge l : forall x y,
  (y = x \/ In y l) -> (y <= fold_left Rmax l x)%R.
Proof.
  induction l as [|z l IH]; intros x y H; simpl.
  - destruct H as [->|[]]. lra.
  - destruct H as [->|[->|H]].
    + apply Rle_trans with (Rmax x z); [apply Rmax_l | apply IH; now left].
    + apply Rle_trans with (Rmax x y); [apply Rmax_r | apply IH; now left].
    + apply IH. now right.
Qed.

Lemma fold_min_le l : forall x y,
  (y = x \/ In y l) -> (fold_left Rmin l x <= y)%R.
Proof.
  induction l as [|z l IH]; intros x y H; simpl.
  - destruct H as [->|[]]. lra.
  - destruct H as [->|[->|H]].
    + apply Rle_trans with (Rmin x z); [apply IH; now left | apply Rmin_l].
    + apply Rle_trans with (Rmin x y); [apply IH; now left | apply Rmin_r].
    + apply IH. now right.
Qed.

Lemma fold_max_in l : forall x, fold_left Rmax l x = x \/ In (fold_left Rmax l x) l.
Proof.
  induction l as [|z l IH]; intros x; simpl; [now left|].
  destruct (IH (Rmax x z)) as [H|H]; [|right; now right].
  rewrite H. unfold Rmax. destruct (Rle_dec x z); [right; now left | now left].
Qed.

Lemma fold_min_in l : forall x, fold_left Rmin l x = x \/ In (fold_left Rmin l x) l.
Proof.
  induction l as [|z l IH]; intros x; simpl; [now left|].
  destruct (IH (Rmin x z)) as [H|H]; [|right; now right].
  rewrite H. unfold Rmin. destruct (Rle_dec x z); [now left | right; now left].
Qed.

Lemma amax_spec (f : ndarray R) hi :
  Np.amax f = Some hi ->
  In hi (flat f) /\ forall x, In x (flat f) -> (x <= hi)%R.
Proof.
  unfold Np.amax. destruct (flat f) as [|x l]; [discriminate|].
  intros [= <-]. split.
  - destruct (fold_max_in l x) as [H|H]; [left; now symmetry | now right].
  - intros y [<-|Hy]; apply fold_max_ge; auto.
Qed.

Lemma amin_spec (f : ndarray R) lo :
  Np.amin f = Some lo ->
  In lo (flat f) /\ forall x, In x (flat f) -> (lo <= x)%R.
Proof.
  unfold Np.amin. destruct (flat f) as [|x l]; [discriminate|].
  intros [= <-]. split.
  - destruct (fold_min_in l x) as [H|H]; [left; now symmetry | now right].
  - intros y [<-|Hy]; apply fold_min_le; auto.
Qed.

Lemma Rfloor_spec (x : R) : (IZR (Rfloor x) <= x < IZR (Rfloor x) + 1)%R.
Proof.
  unfold Rfloor. rewrite minus_IZR.
  destruct (archimed x) as [H1 H2]. lra.
Qed.

Lemma Rfloor_IZR (z : Z) : Rfloor (IZR z) = z.
Proof.
  pose proof (Rfloor_spec (IZR z)) as [H1 H2].
  rewrite <- plus_IZR in H2.
  apply le_IZR in H1. apply lt_IZR in H2. lia.
Qed.

Lemma Rfloor_range (x : R) (a b : Z) :
  (IZR a <= x <= IZR b)%R -> (a <= Rfloor x <= b)%Z.
Proof.
  intros [Ha Hb]. pose proof (Rfloor_spec x) as [H1 H2]. split.
  - assert (IZR a < IZR (Rfloor x + 1))%R by (rewrite plus_IZR; lra).
    apply lt_IZR in H. lia.
  - apply le_IZR. lra.
Qed.

Lemma cell_in_flat (f : ndarray R) i j :
  Np.well_shaped f -> i < nrows f -> j < ncols f -> In (Np.cell f i j) (flat f).
Proof.
  intros Hf Hi Hj. unfold Np.cell. apply nth_In.
  rewrite Hf. now apply index_in_range.
Qed.

(** X8. [normalise] raises [ValueError] on an empty array and leaves a flat
    array (minimum equal to maximum) as it is; otherwise it returns, every
    sample becomes an integer between 0 and 255, a sample equal to the minimum
    becomes 0 and a sample equal to the maximum becomes 255. *)
Theorem normalise_range (f : ndarray R) :
  (flat f = [] -> normalise f = Py.Raised Py.ValueError f) /\
  (forall lo hi,
     Np.amin f = Some lo -> Np.amax f = Some hi ->
     (lo = hi -> normalise f = Py.Done f) /\
     (lo <> hi -> Np.well_shaped f ->
      exists f',
        normalise f = Py.Done f' /\
        Np.shape f' = Np.shape f /\
        forall i j, i < nrows f -> j < ncols f ->
          (exists n : Z, Np.cell f' i j = IZR n /\ (0 <= n <= 255)%Z) /\
          (Np.cell f i j = lo -> Np.cell f' i j = 0%R) /\
          (Np.cell f i j = hi -> Np.cell f' i j = 255%R))).
Proof.
  split.
  - intros He. unfold normalise, Np.amin. now rewrite He.
  - intros lo hi Hmin Hmax. unfold normalise. rewrite Hmin, Hmax. split.
    + intros ->. unfold Reqb. destruct (Req_dec_T hi hi); [reflexivity | contradiction].
    + intros Hne Hf.
      replace (Reqb hi lo) with false
        by (unfold Reqb; destruct (Req_dec_T hi lo); [congruence | reflexivity]).
      eexists. split; [reflexivity|]. split; [reflexivity|].
      intros i j Hi Hj. rewrite cell_map by assumption.
      pose proof (cell_in_flat Hf Hi Hj) as Hin.
      destruct (amax_spec f Hmax) as [_ Hhi]. destruct (amin_spec f Hmin) as [Hlo' Hlo].
      specialize (Hhi _ Hin). specialize (Hlo _ Hin).
      assert (Hgap : (0 < hi - lo)%R).
      { destruct (amax_spec f Hmax) as [_ H]. specialize (H lo Hlo'). lra. }
      set (v := Np.cell f i j) in *.
      assert (Hq : (0 <= (v - lo) / (hi - lo) * 255 <= 255)%R).
      { assert (0 <= (v - lo) / (hi - lo) <= 1)%R; [|lra].
        split;
          [unfold Rdiv; apply Rmult_le_pos;
           [lra | left; apply Rinv_0_lt_compat; lra]|].
        apply Rmult_le_reg_r with (hi - lo)%R; [exact Hgap|].
        unfold Rdiv. rewrite Rmult_assoc, Rinv_l by lra. lra. }
      split; [|split].
      * eexists. split; [reflexivity|]. now apply Rfloor_range.
      * intros ->. replace ((lo - lo) / (hi - lo) * 255)%R with (IZR 0)
          by (unfold Rdiv; ring).
        now rewrite Rfloor_IZR.
      * intros ->. replace ((hi - lo) / (hi - lo) * 255)%R with (IZR 255)
          by (field; lra).
        now rewrite Rfloor_IZR.
Qed.

Lemma normalise_range_witness :
  let f := mkarr 1 2 [0%R; 1%R] in
  exists f', normalise f = Py.Done f' /\
             Np.cell f' 0 0 = 0%R /\ Np.cell f' 0 1 = 255%R.
Proof.
  intros f.
  destruct (proj2 (proj2 (normalise_range f) 0%R 1%R two_pixels_min two_pixels_max))
    as [f' [E [_ Hcell]]]; [lra | reflexivity |].
  exists f'. split; [exact E|]. split.
  - apply (Hcell 0 0); try (simpl; lia). reflexivity.
  - apply (Hcell 0 1); try (simpl; lia). reflexivity.
Defined.

(** ** The range of the windowed image *)

Lemma apply_window_cells_any (f : ndarray R) (w : option Window) (fmax fmin : R) :
  Np.well_shaped f ->
  Np.amax f = Some fmax -> Np.amin f = Some fmin -> fmax <> fmin ->
  let width := match w with Some w => (Q2R (ww w) * fmax)%R | None => fmax end in
  let centre :=
    match w with Some w => (Q2R (wc w) * fmax)%R | None => (width / 2)%R end in
  exists f',
    apply_window f w = Py.Done f' /\
    Np.shape f' = Np.shape f /\
    forall i j, i < nrows f -> j < ncols f ->
      Np.cell f' i j
      = if Rltb (centre + width / 2) (Np.cell f i j) then 255%R
        else if Rleb (Np.cell f i j) (centre - width / 2) then 0%R
        else (((Np.cell f i j - centre) / width + 0.5) * 255)%R.
Proof.
  intros Hf Hmax Hmin Hne width centre.
  unfold apply_window. rewrite Hmax, Hmin.
  replace (Reqb fmax fmin) with false
    by (unfold Reqb; destruct (Req_dec_T fmax fmin); [contradiction | reflexivity]).
  fold width. fold centre.
  eexists. split; [reflexivity|]. split; [reflexivity|].
  intros i j Hi Hj. unfold Np.piecewise.
  rewrite cell_map by assumption. now rewrite window_piece.
Qed.

(** X9. On a well-shaped array whose maximum exceeds its minimum and for a
    window of non-negative width, or for no window on an array of positive
    maximum, [apply_window] returns and every sample of the result lies
    between 0 and 255.  Without a window the non-positive samples become 0
    and every other sample [v] becomes [v / max * 255], the maximum 255. *)
Theorem apply_window_range (f : ndarray R) (w : option Window) (fmax fmin : R) :
  Np.well_shaped f ->
  Np.amax f = Some fmax -> Np.amin f = Some fmin -> (fmin < fmax)%R ->
  (0 <= match w with Some w => Q2R (ww w) * fmax | None => fmax end)%R ->
  exists f',
    apply_window f w = Py.Done f' /\
    Np.shape f' = Np.shape f /\
    forall i j, i < nrows f -> j < ncols f ->
      (0 <= Np.cell f' i j <= 255)%R /\
      (w = None ->
       Np.cell f' i j
       = if Rleb (Np.cell f i j) 0 then 0%R else (Np.cell f i j / fmax * 255)%R).
Proof.
  intros Hf Hmax Hmin Hlt Hw.
  destruct (@apply_window_cells_any f w fmax fmin Hf Hmax Hmin)
    as [f' [E [Hs Hcell]]]; [lra|].
  exists f'. split; [exact E|]. split; [exact Hs|].
  intros i j Hi Hj. rewrite Hcell by assumption. clear Hcell.
  pose proof (cell_in_flat Hf Hi Hj) as Hin.
  destruct (amax_spec f Hmax) as [_ Hhi]. specialize (Hhi _ Hin).
  set (v := Np.cell f i j) in *.
  set (width := match w with Some w => (Q2R (ww w) * fmax)%R | None => fmax end) in *.
  set (centre := match w with Some w => (Q2R (wc w) * fmax)%R
                         | None => (width / 2)%R end).
  unfold Rltb, Rleb. split.
  - destruct (Rlt_dec (centre + width / 2) v); [lra|].
    destruct (Rle_dec v (centre - width / 2)); [lra|].
    assert (Hpos : (0 < width)%R) by lra.
    set (q := ((v - centre) / width)%R).
    assert (Hq : (q * width = v - centre)%R) by (unfold q; field; lra).
    assert (- (1 / 2) < q <= 1 / 2)%R by nra.
    lra.
  - intros ->. unfold centre, width.
    destruct (Rlt_dec (fmax / 2 + fmax / 2) v); [lra|].
    replace (fmax / 2 - fmax / 2)%R with 0%R by field.
    destruct (Rle_dec v 0); [reflexivity|].
    replace 0.5%R with (1 / 2)%R by lra.
    field. lra.
Qed.

Lemma apply_window_range_witness :
  let f := mkarr 1 2 [0%R; 1%R] in
  exists f', apply_window f None = Py.Done f' /\
             (0 <= Np.cell f' 0 1 <= 255)%R.
Proof.
  intros f.
  destruct (@apply_window_range f None 1%R 0%R)
    as [f' [E [_ Hcell]]];
    [reflexivity | exact two_pixels_max | exact two_pixels_min | lra | lra |].
  exists f'. split; [exact E|].
  apply (Hcell 0 1); simpl; lia.
Defined.

(** ** The scale of the regenerated noise *)

Lemma ln_10_pos : (0 < ln 10)%R.
Proof. rewrite <- ln_1. apply ln_increasing; lra. Qed.

(** X10. When the noise map is regenerated ([generate_new_noise], SNR below
    30) on a k-space of non-zero mean magnitude, [add_noise] returns, the new
    map is the drawn sample scaled by a factor [sigma > 0] with
    [20 * log10 (mean |kspace| / sigma) = SNR], and the k-space receives
    exactly that new map. *)
Theorem add_noise_scales_to_snr (k : ndarray complex) (snr : Q)
  (noise : ndarray R) (randn : nat -> nat -> R) :
  (snr < 30)%Q -> Np.shape noise = Np.shape k ->
  (0 < Np.mean (Np.map C.abs k))%R ->
  let sigma := (Np.mean (Np.map C.abs k) / Rpower 10 (Q2R snr / 20))%R in
  exists k1 noise1,
    add_noise k snr noise true randn = Py.Done (k1, noise1) /\
    (0 < sigma)%R /\
    (20 * (ln (Np.mean (Np.map C.abs k) / sigma) / ln 10) = Q2R snr)%R /\
    Np.shape noise1 = Np.shape noise /\ Np.shape k1 = Np.shape k /\
    forall i j, i < nrows k -> j < ncols k ->
      Np.cell noise1 i j = (sigma * randn i j)%R /\
      Np.cell k1 i j = C.add (Np.cell k i j) (C.of_real (sigma * randn i j)).
Proof.
  intros Hs Hn Hmean sigma. unfold Np.shape in Hn. injection Hn as Hnr Hnc.
  unfold add_noise. rewrite ltb_true_of_lt by exact Hs. fold sigma.
  set (draw := Np.map (Rmult sigma) (Np.tabulate (nrows k) (ncols k) randn)).
  assert (Hdraw : Np.well_shaped draw)
    by (apply map_well_shaped, tabulate_well_shaped).
  rewrite (@store_same _ _ draw noise Hdraw) by (unfold draw; simpl; auto).
  rewrite zip_into_same by (unfold draw; reflexivity).
  assert (Hp : (0 < Rpower 10 (Q2R snr / 20))%R) by (unfold Rpower; apply exp_pos).
  assert (Hsig : (0 < sigma)%R)
    by (unfold sigma, Rdiv; apply Rmult_lt_0_compat;
        [assumption | now apply Rinv_0_lt_compat]).
  eexists. eexists. split; [reflexivity|]. split; [exact Hsig|]. split.
  { replace (Np.mean (Np.map C.abs k) / sigma)%R with (Rpower 10 (Q2R snr / 20)).
    - unfold Rpower. rewrite ln_exp. pose proof ln_10_pos. field. lra.
    - unfold sigma. field. split; lra. }
  split; [unfold draw, Np.shape; simpl; now rewrite Hnr, Hnc|]. split; [reflexivity|].
  intros i j Hi Hj.
  assert (Hc : Np.cell draw i j = (sigma * randn i j)%R).
  { unfold draw. rewrite cell_map by (try apply tabulate_well_shaped; assumption).
    now rewrite cell_tabulate. }
  split; [exact Hc|].
  rewrite cell_tabulate by assumption.
  rewrite bcell_same by assumption. now rewrite Hc.
Qed.

Lemma add_noise_scales_to_snr_witness :
  let k := Np.full 1 1 C.one in
  exists k1 noise1,
    add_noise k 10 (Np.full 1 1 0%R) true (fun _ _ => 1%R) = Py.Done (k1, noise1) /\
    Np.cell k1 0 0 = C.add (Np.cell k 0 0) (C.of_real (Np.cell noise1 0 0)).
Proof.
  intros k.
  destruct (@add_noise_scales_to_snr k 10 (Np.full 1 1 0%R) (fun _ _ => 1%R))
    as [k1 [noise1 [E [_ [_ [_ [_ Hcell]]]]]]].
  - reflexivity.
  - reflexivity.
  - unfold Np.mean, k; simpl.
    unfold C.abs, C.one; simpl.
    replace (1 * 1 + 0 * 0)%R with (1 * 1)%R by ring.
    rewrite sqrt_square by lra. lra.
  - exists k1, noise1. split; [exact E|].
    destruct (Hcell 0 0) as [H1 H2]; try (simpl; lia). now rewrite H2, H1.
Defined.

(** ** The centre and the corners of the circular masks *)






(** ** Zeroing filters compose *)

Section ComposeFacts.
Context {A : Type} {ZA : Zero A}.

Lemma tabulate_ext m n (f g : nat -> nat -> A) :
  (forall i j, i < m -> j < n -> f i j = g i j) ->
  Np.tabulate m n f = Np.tabulate m n g.
Proof.
  intros H. unfold Np.tabulate. f_equal. apply map_ext_in.
  intros t Ht. apply in_seq in Ht.
  assert (Hn : n <> 0) by (intros ->; lia).
  apply H.
  - apply Nat.Div0.div_lt_upper_bound; lia.
  - now apply Nat.mod_upper_bound.
Qed.

Lemma where_set_twice m1 m2 (v : A) a :
  Np.where_set m1 v (Np.where_set m2 v a)
  = Np.where_set (fun i j => m1 i j || m2 i j) v a.
Proof.
  unfold Np.where_set at 1 3.
  change (nrows (Np.where_set m2 v a)) with (nrows a).
  change (ncols (Np.where_set m2 v a)) with (ncols a).
  apply tabulate_ext. intros i j Hi Hj.
  rewrite cell_where_set by assumption.
  destruct (m1 i j), (m2 i j); reflexivity.
Qed.

Lemma where_set_mask_ext m1 m2 (v : A) a :
  (forall i j, i < nrows a -> j < ncols a -> m1 i j = m2 i j) ->
  Np.where_set m1 v a = Np.where_set m2 v a.
Proof.
  intros H. unfold Np.where_set. apply tabulate_ext.
  intros i j Hi Hj. now rewrite H.
Qed.

End ComposeFacts.

Lemma high_pass_filter_on (k' k : ndarray complex) r :
  nrows k' = nrows k -> ncols k' = ncols k ->
  high_pass_filter k' r
  = if Py.ltb 0 r
    then Np.where_set (circle_mask (nrows k) (ncols k) r) zero k' else k'.
Proof. intros Hr Hc. unfold high_pass_filter. now rewrite Hr, Hc. Qed.

Lemma low_pass_filter_on (k' k : ndarray complex) r :
  nrows k' = nrows k -> ncols k' = ncols k ->
  low_pass_filter k' r
  = if Py.ltb r 100
    then Np.where_set (fun i j => negb (circle_mask (nrows k) (ncols k) r i j))
           zero k'
    else k'.
Proof. intros Hr Hc. unfold low_pass_filter. now rewrite Hr, Hc. Qed.

Lemma pass_filter_dims (k : ndarray complex) r :
  (nrows (high_pass_filter k r) = nrows k /\ ncols (high_pass_filter k r) = ncols k) /\
  (nrows (low_pass_filter k r) = nrows k /\ ncols (low_pass_filter k r) = ncols k).
Proof.
  unfold high_pass_filter, low_pass_filter.
  destruct (Py.ltb 0 r), (Py.ltb r 100); repeat split.
Qed.

(** X12. The circular filters compose as masks: applying [high_pass_filter]
    or [low_pass_filter] a second time with the same radius changes nothing
    more; a high pass and a low pass commute; and a high pass followed by a
    low pass of the same radius, between 0 and 100, zeroes the whole
    k-space. *)
Theorem pass_filters_compose (k : ndarray complex) (r1 r2 : Q) :
  high_pass_filter (high_pass_filter k r1) r1 = high_pass_filter k r1 /\
  low_pass_filter (low_pass_filter k r1) r1 = low_pass_filter k r1 /\
  high_pass_filter (low_pass_filter k r2) r1
  = low_pass_filter (high_pass_filter k r1) r2 /\
  ((0 < r1)%Q -> (r1 < 100)%Q ->
   low_pass_filter (high_pass_filter k r1) r1
   = Np.full (nrows k) (ncols k) zero).
Proof.
  destruct (pass_filter_dims k r1) as [[E1 E2] [E3 E4]].
  destruct (pass_filter_dims k r2) as [_ [E5 E6]].
  split; [|split; [|split]].
  - rewrite (@high_pass_filter_on _ _ r1 E1 E2).
    unfold high_pass_filter. destruct (Py.ltb 0 r1); [|reflexivity].
    rewrite where_set_twice. apply where_set_mask_ext.
    intros i j _ _. apply orb_diag.
  - rewrite (@low_pass_filter_on _ _ r1 E3 E4).
    unfold low_pass_filter. destruct (Py.ltb r1 100); [|reflexivity].
    rewrite where_set_twice. apply where_set_mask_ext.
    intros i j _ _. apply orb_diag.
  - rewrite (@high_pass_filter_on _ _ r1 E5 E6), (@low_pass_filter_on _ _ r2 E1 E2).
    unfold high_pass_filter, low_pass_filter.
    destruct (Py.ltb 0 r1), (Py.ltb r2 100); try reflexivity.
    rewrite !where_set_twice. apply where_set_mask_ext.
    intros i j _ _. apply orb_comm.
  - intros H0 H100. rewrite (@low_pass_filter_on _ _ r1 E1 E2).
    unfold high_pass_filter.
    rewrite !ltb_true_of_lt by assumption.
    rewrite where_set_twice. unfold Np.where_set, Np.full.
    apply tabulate_ext. intros i j _ _.
    now destruct (circle_mask (nrows k) (ncols k) r1 i j).
Qed.

(** ** The inverse transform yields magnitudes *)

(** X13. [np_ifft] raises [ValueError] on a k-space with an empty axis,
    leaving the output buffer unchanged; on a non-empty k-space and an output
    buffer of the same shape it returns, and no sample of the image it
    writes is negative. *)
Theorem np_ifft_non_negative (k : ndarray complex) (out : ndarray R) :
  (Np.size k = 0 -> np_ifft k out = Py.Raised Py.ValueError out) /\
  (Np.size k <> 0 -> Np.shape out = Np.shape k ->
   exists image,
     np_ifft k out = Py.Done image /\
     Np.shape image = Np.shape k /\
     forall i j, (0 <= Np.cell image i j)%R).
Proof.
  split.
  - intros H. unfold np_ifft. now rewrite H.
  - intros Hs Ho. unfold Np.shape in Ho. injection Ho as Hr Hc.
    unfold np_ifft. apply Nat.eqb_neq in Hs. rewrite Hs.
    rewrite store_same by (try (simpl; congruence);
                           apply map_well_shaped, tabulate_well_shaped).
    eexists. split; [reflexivity|]. split; [reflexivity|].
    intros i j. unfold Np.cell, Np.map. cbn [flat ncols].
    set (l := flat _). set (t := _ + j).
    destruct (Nat.lt_ge_cases t (length l)) as [Ht|Ht].
    + rewrite nth_indep with (d' := C.abs zero) by now rewrite length_map.
      rewrite map_nth. apply abs_nonneg.
    + rewrite nth_overflow by now rewrite length_map. apply Rle_refl.
Qed.

Lemma np_ifft_non_negative_witness :
  let k := mkarr 1 1 [mkC (-2) 0] in
  exists image, np_ifft k (Np.zeros_like k) = Py.Done image /\
                (0 <= Np.cell image 0 0)%R.
Proof.
  intros k.
  destruct (proj2 (np_ifft_non_negative k (Np.zeros_like k)))
    as [image [E [_ H]]]; [discriminate | reflexivity |].
  exists image. split; [exact E | apply H].
Defined.

(** ** Construction *)

(** X14. Constructing a slice from a non-empty image returns with the
    centred Fourier transform of the image as working k-space; constructing
    it from non-empty raw data returns with the raw data as working k-space.
    In both cases the snapshot of the original k-space equals the working
    k-space, and no spike and no patch is recorded. *)
Theorem init_snapshot (pd : pixel_data) :
  match pd with
  | Image a => Np.well_shaped a /\ Np.size a <> 0
  | RawData a => Np.well_shaped a /\ Np.size a <> 0
  end ->
  let s := Py.final (init pd) in
  kspacedata s
  = match pd with
    | Image a => Np.fftshift (Np.fft2 (Np.ifftshift (Np.map C.of_real a)))
    | RawData a => a
    end /\
  orig_kspacedata s = kspacedata s /\
  spikes s = [] /\ patches s = [].
Proof.
  intros Hpd s. unfold s, init. cbv zeta.
  destruct pd as [a|a]; destruct Hpd as [Ha Hs]; apply Nat.eqb_neq in Hs.
  - unfold np_fft. cbn [img kspacedata]. rewrite Hs.
    rewrite store_same by (try reflexivity; apply tabulate_well_shaped).
    cbn [upd Py.bind]. cbn [kspacedata orig_kspacedata with_kspacedata].
    rewrite store_same by (try reflexivity; apply tabulate_well_shaped).
    cbn [upd Py.bind].
    match goal with |- context [prepare_displays ?a ?b ?c] =>
      destruct (prepare_displays_keeps a b c) as (E1 & E2 & E3 & E4)
    end.
    rewrite E1, E2, E3, E4. repeat split.
  - unfold np_ifft. cbn [img kspacedata]. rewrite Hs.
    rewrite store_same
      by (try reflexivity; apply map_well_shaped, tabulate_well_shaped).
    cbn [upd Py.bind]. cbn [kspacedata orig_kspacedata with_img].
    rewrite store_same by (try reflexivity; assumption).
    cbn [upd Py.bind].
    match goal with |- context [prepare_displays ?a ?b ?c] =>
      destruct (prepare_displays_keeps a b c) as (E1 & E2 & E3 & E4)
    end.
    rewrite E1, E2, E3, E4. repeat split.
Qed.

Lemma init_snapshot_witness :
  let a := mkarr 1 2 [mkC 3 0; mkC 1 0] in
  let s := Py.final (init (RawData a)) in
  kspacedata s = a /\ orig_kspacedata s = a.
Proof.
  intros a s.
  destruct (@init_snapshot (RawData a)) as (H1 & H2 & _).
  - split; [reflexivity | discriminate].
  - fold s in H1, H2. split; congruence.
Defined.

(** ** The transform of a constant image *)

Lemma mod_wrap (n z : Z) :
  (0 < n)%Z -> (- n <= z < n)%Z ->
  (z mod n = if z <? 0 then z + n else z)%Z.
Proof.
  intros Hn Hz. destruct (Z.ltb_spec z 0).
  - rewrite <- (Z.mod_small (z + n) n) by lia.
    replace (z + n)%Z with (z + 1 * n)%Z by lia.
    now rewrite Z_mod_plus_full.
  - apply Z.mod_small. lia.
Qed.

Lemma kernel_split M N (i j k l : nat) :
  C.cis (- (2 * PI * (INR i * INR k / INR M + INR j * INR l / INR N)))
  = C.mul (rot M (INR i * - INR k)) (rot N (INR j * - INR l)).
Proof. unfold rot. rewrite <- cis_add. f_equal. unfold Rdiv. ring. Qed.

Lemma rot_sum_neg M k :
  k < M ->
  C.sum M (fun i => rot M (INR i * - INR k))
  = if k =? 0 then C.of_real (INR M) else zero.
Proof.
  intros Hk.
  rewrite (@sum_ext M _ (fun i => rot M (INR i * IZR (- Z.of_nat k)))).
  - rewrite rot_sum by lia.
    destruct (Z.eqb_spec (- Z.of_nat k) 0), (Nat.eqb_spec k 0);
      try reflexivity; lia.
  - intros i _. now rewrite opp_IZR, <- INR_IZR_INZ.
Qed.

Lemma fft2_full M N (z : complex) k l :
  k < M -> l < N ->
  Np.cell (Np.fft2 (Np.full M N z)) k l
  = if (k =? 0) && (l =? 0) then C.mul z (C.of_real (INR M * INR N)) else zero.
Proof.
  intros Hk Hl. unfold Np.fft2. cbn [nrows ncols Np.full Np.tabulate].
  change (mkarr M N (map (fun t => z) (seq 0 (M * N)))) with (Np.full M N z).
  rewrite cell_tabulate by assumption.
  rewrite (@sum_ext M _ (fun i => C.sum N (fun j =>
             C.mul z (C.mul (rot M (INR i * - INR k)) (rot N (INR j * - INR l)))))).
  - rewrite sum_product, !rot_sum_neg by assumption.
    destruct (k =? 0), (l =? 0); simpl;
      unfold C.mul, C.of_real, zero, complex_zero; simpl; f_equal; ring.
  - intros i Hi. apply sum_ext. intros j Hj.
    unfold Np.full. rewrite cell_tabulate by assumption.
    now rewrite kernel_split.
Qed.

Lemma roll_full M N (z : complex) s0 s1 :
  Np.roll s0 s1 (Np.full M N z) = Np.full M N z.
Proof.
  unfold Np.roll, Np.full at 3. cbn [nrows ncols Np.full Np.tabulate].
  change (mkarr M N (map (fun t => z) (seq 0 (M * N)))) with (Np.full M N z).
  apply tabulate_ext. intros i j Hi Hj.
  unfold Np.full. apply cell_tabulate; apply roll_index_range; lia.
Qed.

Lemma shifted_index_zero M i :
  i < M ->
  (Z.to_nat ((Z.of_nat i - Z.of_nat (M / 2)) mod Z.of_nat M) =? 0) = (i =? M / 2).
Proof.
  intros Hi.
  assert (Hh : M / 2 < M) by (apply Nat.div_lt; lia).
  rewrite mod_wrap by lia.
  destruct (Z.ltb_spec (Z.of_nat i - Z.of_nat (M / 2)) 0),
           (Nat.eqb_spec i (M / 2));
    try (apply Nat.eqb_neq; lia); apply Nat.eqb_eq; lia.
Qed.

(** X15. The forward transform of a constant image [c] of shape
    [(M, N)], both positive, has a single non-zero coefficient, the DC term
    [c * M * N], and [np_fft] places it at the central cell
    [(M // 2, N // 2)], the cell that [decrease_dc] scales. *)
Theorem constant_image_transform (M N : nat) (c : R) (out : ndarray complex) :
  0 < M -> 0 < N -> Np.shape out = (M, N) ->
  exists k,
    np_fft (Np.full M N c) out = Py.Done k /\
    Np.shape k = (M, N) /\
    forall i j, i < M -> j < N ->
      Np.cell k i j
      = if (i =? M / 2) && (j =? N / 2)
        then C.of_real (c * INR M * INR N) else zero.
Proof.
  intros HM HN Hout. unfold Np.shape in Hout. injection Hout as Hr Hc.
  unfold np_fft.
  replace (Np.size (Np.full M N c) =? 0) with false
    by (symmetry; apply Nat.eqb_neq; unfold Np.size; simpl; nia).
  replace (Np.map C.of_real (Np.full M N c)) with (Np.full M N (C.of_real c))
    by (unfold Np.map, Np.full, Np.tabulate; simpl; now rewrite map_map).
  unfold Np.ifftshift. rewrite roll_full.
  rewrite store_same by (try apply tabulate_well_shaped; simpl; congruence).
  eexists. split; [reflexivity|]. split; [reflexivity|].
  intros i j Hi Hj. unfold Np.fftshift.
  rewrite cell_roll by assumption.
  cbn [nrows ncols Np.fft2 Np.full Np.tabulate].
  change (mkarr M N (map (fun t => C.of_real c) (seq 0 (M * N))))
    with (Np.full M N (C.of_real c)).
  change (mkarr M N (map ?f (seq 0 (M * N)))) with (Np.tabulate M N
    (fun k l => C.sum M (fun i0 => C.sum N (fun j0 =>
       C.mul (Np.cell (Np.full M N (C.of_real c)) i0 j0)
         (C.cis (- (2 * PI * (INR i0 * INR k / INR M + INR j0 * INR l / INR N)))))))).
  change (Np.tabulate M N _) with (Np.fft2 (Np.full M N (C.of_real c))).
  rewrite fft2_full by (apply roll_index_range; lia).
  rewrite !shifted_index_zero by assumption.
  destruct ((i =? M / 2) && (j =? N / 2)); [|reflexivity].
  unfold C.mul, C.of_real; simpl. f_equal; ring.
Qed.

Lemma constant_image_transform_witness :
  exists k,
    np_fft (Np.full 4 4 1%R) (Np.full 4 4 zero) = Py.Done k /\
    Np.cell k 2 2 = C.of_real (1 * INR 4 * INR 4) /\
    Np.cell k 0 0 = zero.
Proof.
  destruct (@constant_image_transform 4 4 1%R (Np.full 4 4 zero))
    as [k [E [_ Hcell]]]; [lia | lia | reflexivity |].
  exists k. split; [exact E|]. split.
  - now rewrite Hcell by lia.
  - now rewrite Hcell by lia.
Defined.

(** ** Conjugate symmetry *)

Lemma conj_add a b : C.conj (C.add a b) = C.add (C.conj a) (C.conj b).
Proof. unfold C.conj, C.add; simpl. f_equal. ring. Qed.

Lemma conj_mul a b : C.conj (C.mul a b) = C.mul (C.conj a) (C.conj b).
Proof. unfold C.conj, C.mul; simpl. f_equal; ring. Qed.

Lemma conj_conj a : C.conj (C.conj a) = a.
Proof. destruct a. unfold C.conj; simpl. f_equal. ring. Qed.

Lemma conj_zero : C.conj zero = zero.
Proof. unfold C.conj, zero, complex_zero; simpl. f_equal. ring. Qed.

Lemma conj_sum n f : C.conj (C.sum n f) = C.sum n (fun i => C.conj (f i)).
Proof.
  induction n as [|n IH]; simpl; [apply conj_zero|].
  now rewrite conj_add, IH.
Qed.

Lemma conj_rot M x : C.conj (rot M x) = rot M (- x).
Proof.
  unfold rot, C.cis, C.conj; simpl.
  replace (2 * PI * - x / INR M)%R with (- (2 * PI * x / INR M))%R
    by (unfold Rdiv; ring).
  now rewrite cos_neg, sin_neg.
Qed.

Lemma rot_opposite M i k :
  k < M -> rot M (INR i * - INR (opposite M k)) = rot M (INR i * INR k).
Proof.
  intros Hk. unfold opposite. destruct (Nat.eqb_spec k 0) as [->|Hne].
  - simpl. f_equal. ring.
  - rewrite minus_INR by lia.
    replace (INR i * - (INR M - INR k))%R
      with (INR i * INR k + INR M * IZR (- Z.of_nat i))%R
      by (rewrite opp_IZR, <- INR_IZR_INZ; ring).
    rewrite rot_add, rot_full by lia. ring.
Qed.

Lemma opposite_lt M k : k < M -> opposite M k < M.
Proof. intros Hk. unfold opposite. destruct (Nat.eqb_spec k 0); lia. Qed.

(** The transform of an array of real samples is conjugate symmetric. *)
Lemma fft2_conjugate_symmetric (G : ndarray complex) k l :
  (forall i j, i < nrows G -> j < ncols G ->
     C.conj (Np.cell G i j) = Np.cell G i j) ->
  k < nrows G -> l < ncols G ->
  Np.cell (Np.fft2 G) (opposite (nrows G) k) (opposite (ncols G) l)
  = C.conj (Np.cell (Np.fft2 G) k l).
Proof.
  intros Hreal Hk Hl. unfold Np.fft2.
  rewrite !cell_tabulate by (try apply opposite_lt; assumption).
  rewrite conj_sum. apply sum_ext. intros i Hi.
  rewrite conj_sum. apply sum_ext. intros j Hj.
  rewrite conj_mul, Hreal by assumption. f_equal.
  rewrite !kernel_split, conj_mul, !conj_rot.
  rewrite !rot_opposite by assumption.
  f_equal; f_equal; ring.
Qed.

Lemma parity_half M :
  (Nat.even M = true /\ M = 2 * (M / 2))
  \/ (Nat.even M = false /\ M = 2 * (M / 2) + 1).
Proof.
  pose proof (Nat.div_mod_eq M 2) as Hd.
  pose proof (Nat.mod_upper_bound M 2 ltac:(lia)) as Hm.
  pose proof (even_mod2 M) as He.
  destruct (Nat.eqb_spec (M mod 2) 0) as [H0|H0].
  - left. split; [now symmetry | lia].
  - right. split; [now symmetry | lia].
Qed.

Lemma mirror_index_lt M i : i < M -> mirror_index M i < M.
Proof. intros Hi. unfold mirror_index. lia. Qed.

(** On the centred axis the mirrored position holds the opposite
    frequency. *)
Lemma mirror_is_opposite M i :
  i < M ->
  Z.to_nat ((Z.of_nat (mirror_index M i) - Z.of_nat (M / 2)) mod Z.of_nat M)
  = opposite M (Z.to_nat ((Z.of_nat i - Z.of_nat (M / 2)) mod Z.of_nat M)).
Proof.
  intros Hi. unfold mirror_index, opposite.
  assert (Hh : M / 2 < M) by (apply Nat.div_lt; lia).
  destruct (parity_half M) as [[He HM]|[He HM]]; rewrite He.
  - rewrite (mod_wrap (n := Z.of_nat M) (z := Z.of_nat i - 1)) by lia.
    rewrite (mod_wrap (n := Z.of_nat M) (z := Z.of_nat i - Z.of_nat (M / 2))) by lia.
    destruct (Z.ltb_spec (Z.of_nat i - 1) 0), (Z.ltb_spec (Z.of_nat i - Z.of_nat (M / 2)) 0);
      rewrite mod_wrap by lia;
      repeat match goal with
             | |- context [(?a <? ?b)%Z] => destruct (Z.ltb_spec a b)
             | |- context [?a =? ?b] => destruct (Nat.eqb_spec a b)
             end; lia.
  - rewrite (mod_wrap (n := Z.of_nat M) (z := Z.of_nat i - 0)) by lia.
    rewrite (mod_wrap (n := Z.of_nat M) (z := Z.of_nat i - Z.of_nat (M / 2))) by lia.
    destruct (Z.ltb_spec (Z.of_nat i - 0) 0), (Z.ltb_spec (Z.of_nat i - Z.of_nat (M / 2)) 0);
      rewrite mod_wrap by lia;
      repeat match goal with
             | |- context [(?a <? ?b)%Z] => destruct (Z.ltb_spec a b)
             | |- context [?a =? ?b] => destruct (Nat.eqb_spec a b)
             end; lia.
Qed.

Lemma centred_conjugate_symmetric (G : ndarray complex) i j :
  (forall i j, i < nrows G -> j < ncols G ->
     C.conj (Np.cell G i j) = Np.cell G i j) ->
  i < nrows G -> j < ncols G ->
  Np.cell (Np.fftshift (Np.fft2 G)) (mirror_index (nrows G) i) (mirror_index (ncols G) j)
  = C.conj (Np.cell (Np.fftshift (Np.fft2 G)) i j).
Proof.
  intros Hreal Hi Hj. unfold Np.fftshift.
  change (nrows (Np.fft2 G)) with (nrows G).
  change (ncols (Np.fft2 G)) with (ncols G).
  rewrite !cell_roll by (try apply mirror_index_lt; assumption).
  change (nrows (Np.fft2 G)) with (nrows G).
  change (ncols (Np.fft2 G)) with (ncols G).
  rewrite !mirror_is_opposite by assumption.
  apply fft2_conjugate_symmetric; try assumption; apply roll_index_range; lia.
Qed.

Lemma partial_fourier_mirror_cells (k : ndarray complex) (pct : Q) :
  Np.well_shaped k -> (pct < 100)%Q ->
  let skip := Py.round ((1 - pct / 100) * (inject_Z (Z.of_nat (nrows k)) / 2 - 1))%Q in
  exists k',
    partial_fourier k pct false = Py.Done k' /\
    Np.well_shaped k' /\
    nrows k' = nrows k /\ ncols k' = ncols k /\
    forall i j, i < nrows k -> j < ncols k ->
      Np.cell k' i j
      = if (Z.of_nat (nrows k) - skip <=? Z.of_nat i)%Z
        then C.conj (Np.cell k (mirror_index (nrows k) i) (mirror_index (ncols k) j))
        else Np.cell k i j.
Proof.
  intros Hws Hp skip. unfold partial_fourier.
  destruct (Z.eqb_spec (Py.int pct) 100) as [Heq|_];
    [pose proof (int_lt_100 Hp); lia|]. cbv [negb].
  fold skip. pose proof (@skip_negative_rows pct (nrows k) Hp) as Hneg.
  fold skip in Hneg.
  destruct (Z.eqb_spec skip 0) as [H0|H0]; cbv [negb andb].
  - exists k. split; [reflexivity|]. split; [exact Hws|].
    split; [reflexivity|]. split; [reflexivity|].
    intros i j Hi Hj.
    destruct (Z.leb_spec (Z.of_nat (nrows k) - skip) (Z.of_nat i)); [lia|reflexivity].
  - set (mirrored := Np.roll _ _ _).
    destruct (@assign_rows_same_slice _ _ (Py.from (- skip)) k mirrored)
      as [a' [Ea [Hr [Hc Hcell]]]].
    { unfold mirrored, Np.roll, Np.take; simpl.
      now rewrite indices_reversed, length_map, length_seq. }
    { unfold mirrored, Np.roll, Np.take; simpl.
      now rewrite indices_reversed, length_map, length_seq. }
    rewrite Ea. simpl.
    eexists. split; [reflexivity|]. split; [apply tabulate_well_shaped|].
    split; [exact Hr|]. split; [exact Hc|].
    intros i j Hi Hj.
    rewrite cell_map_rows by lia.
    rewrite Hr, Hcell by assumption.
    rewrite selects_trailing by assumption.
    destruct (Z.of_nat (nrows k) - skip <=? Z.of_nat i)%Z; [|reflexivity].
    unfold mirrored. now rewrite cell_mirrored.
Qed.

(** X16. Conjugate-symmetry reconstruction is exact on the k-space of a real
    image: for every non-empty real image and every percentage below 100,
    [partial_fourier] without zero filling, applied to the forward transform
    of the image, returns that k-space unchanged, for odd and for even row
    and column counts. *)
Theorem partial_fourier_exact_on_real_image
  (image : ndarray R) (out : ndarray complex) (pct : Q) :
  Np.well_shaped image -> Np.size image <> 0 ->
  Np.shape out = Np.shape image -> (pct < 100)%Q ->
  exists k,
    np_fft image out = Py.Done k /\
    partial_fourier k pct false = Py.Done k.
Proof.
  intros Himg Hsize Hout Hp. unfold Np.shape in Hout. injection Hout as Hr Hc.
  set (G := Np.ifftshift (Np.map C.of_real image)).
  set (K := Np.fftshift (Np.fft2 G)).
  exists K. split.
  - unfold np_fft. apply Nat.eqb_neq in Hsize. rewrite Hsize. fold G. fold K.
    apply store_same; [apply tabulate_well_shaped | now symmetry | now symmetry].
  - destruct (@partial_fourier_mirror_cells K pct) as [k' [E [Hk' [Hnr [Hnc Hcell]]]]];
      [apply tabulate_well_shaped | exact Hp |].
    rewrite E. f_equal.
    apply array_ext; try assumption; try apply tabulate_well_shaped.
    + intros i j Hi Hj. rewrite Hnr in Hi. rewrite Hnc in Hj.
      rewrite Hcell by assumption.
      destruct (_ <=? _)%Z; [|reflexivity].
      unfold K.
      change (nrows (Np.fftshift (Np.fft2 G))) with (nrows G).
      change (ncols (Np.fftshift (Np.fft2 G))) with (ncols G).
      rewrite centred_conjugate_symmetric; try assumption.
      * apply conj_conj.
      * intros i0 j0 Hi0 Hj0. unfold G, Np.ifftshift.
        rewrite cell_roll by assumption.
        rewrite cell_map
          by (try assumption; apply roll_index_range;
              change (nrows G) with (nrows image) in *;
              change (ncols G) with (ncols image) in *; simpl in *; lia).
        unfold C.conj, C.of_real; simpl. f_equal. ring.
Qed.

Lemma partial_fourier_exact_on_real_image_witness :
  let image := mkarr 4 2 [1%R; 2%R; 3%R; 4%R; 5%R; 6%R; 7%R; 8%R] in
  exists k,
    np_fft image (Np.zeros_like image) = Py.Done k /\
    partial_fourier k 0 false = Py.Done k.
Proof.
  intros image.
  apply (@partial_fourier_exact_on_real_image image (Np.zeros_like image) 0);
    [reflexivity | discriminate | reflexivity | reflexivity].
Defined.

(** ** Undersampling *)

Lemma in_from_step_up (m n : nat) (f : Z) (i : nat) :
  (1 < f)%Z -> m < n ->
  In i (Py.indices (Py.from_step (Z.of_nat m) f) n)
  <-> m <= i < n /\ ((Z.of_nat i - Z.of_nat m) mod f = 0)%Z.
Proof.
  intros Hf Hm. cbv [Py.indices Py.from_step Py.step Py.start Py.stop Py.adjust].
  destruct (Z.ltb_spec f 0); [lia|].
  destruct (Z.eqb_spec f 0); [lia|].
  destruct (Z.ltb_spec (Z.of_nat m) 0); [lia|].
  destruct (Z.leb_spec (Z.of_nat n) (Z.of_nat m)); [lia|].
  destruct (Z.ltb_spec (Z.of_nat m) (Z.of_nat n)); [|lia].
  rewrite in_map_iff. setoid_rewrite in_seq.
  set (c := ((Z.of_nat n - Z.of_nat m - 1) / f)%Z).
  assert (Hc : (0 <= c)%Z) by (apply Z.div_pos; lia).
  assert (Hcf : (f * c <= Z.of_nat n - Z.of_nat m - 1)%Z)
    by (apply Z.mul_div_le; lia).
  split.
  - intros [t [<- Ht]].
    assert (Z.of_nat t * f <= c * f)%Z by (apply Z.mul_le_mono_nonneg_r; lia).
    split; [lia|].
    rewrite Z2Nat.id by lia.
    replace (Z.of_nat m + Z.of_nat t * f - Z.of_nat m)%Z with (Z.of_nat t * f)%Z by lia.
    apply Z_mod_mult.
  - intros [[Hlo Hhi] Hmod].
    apply Z_div_exact_full_2 in Hmod; [|lia].
    set (d := ((Z.of_nat i - Z.of_nat m) / f)%Z) in *.
    assert (Hd : (0 <= d)%Z) by (apply Z.div_pos; lia).
    assert (Hdc : (d <= c)%Z) by (apply Z.div_le_mono; lia).
    exists (Z.to_nat d). split; [|lia].
    rewrite Z2Nat.id by lia. lia.
Qed.

Lemma in_from_step_down (m n : nat) (f : Z) (i : nat) :
  (1 < f)%Z -> m < n ->
  In i (Py.indices (Py.from_step (Z.of_nat m) (- f)) n)
  <-> i <= m /\ ((Z.of_nat m - Z.of_nat i) mod f = 0)%Z.
Proof.
  intros Hf Hm. cbv [Py.indices Py.from_step Py.step Py.start Py.stop Py.adjust].
  destruct (Z.ltb_spec (- f) 0); [|lia].
  destruct (Z.ltb_spec (Z.of_nat m) 0); [lia|].
  destruct (Z.leb_spec (Z.of_nat n) (Z.of_nat m)); [lia|].
  destruct (Z.ltb_spec (-1) (Z.of_nat m)); [|lia].
  rewrite Z.opp_involutive.
  rewrite in_map_iff. setoid_rewrite in_seq.
  replace (Z.of_nat m - -1 - 1)%Z with (Z.of_nat m) by lia.
  set (c := (Z.of_nat m / f)%Z).
  assert (Hc : (0 <= c)%Z) by (apply Z.div_pos; lia).
  assert (Hcf : (f * c <= Z.of_nat m)%Z) by (apply Z.mul_div_le; lia).
  split.
  - intros [t [<- Ht]].
    assert (Z.of_nat t * f <= c * f)%Z by (apply Z.mul_le_mono_nonneg_r; lia).
    split; [lia|].
    rewrite Z2Nat.id by lia.
    replace (Z.of_nat m - (Z.of_nat m + Z.of_nat t * - f))%Z
      with (Z.of_nat t * f)%Z by lia.
    apply Z_mod_mult.
  - intros [Hlo Hmod].
    apply Z_div_exact_full_2 in Hmod; [|lia].
    set (d := ((Z.of_nat m - Z.of_nat i) / f)%Z) in *.
    assert (Hd : (0 <= d)%Z) by (apply Z.div_pos; lia).
    assert (Hdc : (d <= c)%Z) by (apply Z.div_le_mono; lia).
    exists (Z.to_nat d). split; [|lia].
    lia.
Qed.

Lemma mod_zero_opp (x f : Z) : (0 < f)%Z -> (x mod f = 0 <-> (- x) mod f = 0)%Z.
Proof.
  intros Hf. rewrite !Z.mod_divide by lia.
  now rewrite Z.divide_opp_r.
Qed.

(** The value of the keep-mask of [undersample] on row [i]: false on the
    sampled rows. *)
Lemma undersample_mask (rows cols : nat) (f : Z) i j :
  (1 < f)%Z -> i < rows -> j < cols ->
  Np.cell
    (Np.set_rows (Py.from_step (Z.of_nat (rows / 2)) (- f)) false
       (Np.set_rows (Py.from_step (Z.of_nat (rows / 2)) f) false
          (Np.full rows cols true))) i j
  = negb (row_kept rows f i).
Proof.
  intros Hf Hi Hj.
  assert (Hm : rows / 2 < rows) by (apply Nat.div_lt; lia).
  rewrite cell_set_rows by assumption.
  rewrite cell_set_rows by assumption.
  cbn [nrows Np.set_rows Np.where_set Np.full Np.tabulate].
  unfold Np.full. rewrite cell_tabulate by assumption.
  unfold row_kept.
  destruct (Z.eqb_spec ((Z.of_nat i - Z.of_nat (rows / 2)) mod f) 0) as [Hk|Hk];
    cbv [negb].
  - destruct (Nat.le_ge_cases i (rows / 2)) as [Hle|Hge].
    + replace (Py.selects _ i) with true; [reflexivity|].
      symmetry. apply selects_In, in_from_step_down; try assumption.
      split; [exact Hle|].
      apply mod_zero_opp in Hk; [|lia].
      now replace (Z.of_nat (rows / 2) - Z.of_nat i)%Z
        with (- (Z.of_nat i - Z.of_nat (rows / 2)))%Z by lia.
    + destruct (Py.selects (Py.indices (Py.from_step _ (- f)) rows) i);
        [reflexivity|].
      replace (Py.selects _ i) with true; [reflexivity|].
      symmetry. apply selects_In, in_from_step_up; try assumption.
      split; [lia | exact Hk].
  - replace (Py.selects (Py.indices (Py.from_step _ (- f)) rows) i) with false.
    + replace (Py.selects _ i) with false; [reflexivity|].
      symmetry. destruct (Py.selects _ i) eqn:E; [|reflexivity].
      apply selects_In, in_from_step_up in E; try assumption. tauto.
    + symmetry. destruct (Py.selects _ i) eqn:E; [|reflexivity].
      apply selects_In, in_from_step_down in E; try assumption.
      destruct E as [_ E]. exfalso. apply Hk.
      apply mod_zero_opp; [lia|].
      now replace (- (Z.of_nat i - Z.of_nat (rows / 2)))%Z
        with (Z.of_nat (rows / 2) - Z.of_nat i)%Z by lia.
Qed.

(** X17. Without compression and for a factor above 1, [undersample]
    returns, touches only the working k-space and keeps its shape: a row is
    left unchanged when its distance to the midline [rows // 2] is a multiple
    of the factor, and zeroed otherwise; the midline itself is always kept. *)
Theorem undersample_rows (s : ImageManipulators) (f : Z) :
  (1 < f)%Z ->
  exists k',
    undersample s f false = Py.Done (with_kspacedata s k') /\
    Np.shape k' = Np.shape (kspacedata s) /\
    (forall i j, i < nrows (kspacedata s) -> j < ncols (kspacedata s) ->
       Np.cell k' i j
       = if row_kept (nrows (kspacedata s)) f i
         then Np.cell (kspacedata s) i j else zero) /\
    row_kept (nrows (kspacedata s)) f (nrows (kspacedata s) / 2) = true.
Proof.
  intros Hf. unfold undersample.
  destruct (Z.ltb_spec 1 f); [|lia].
  eexists. split; [reflexivity|]. split; [reflexivity|]. split.
  - intros i j Hi Hj. rewrite cell_where_set by assumption.
    rewrite undersample_mask by assumption.
    now destruct (row_kept _ f i).
  - unfold row_kept. now rewrite Z.sub_diag, Z.mod_0_l by lia.
Qed.

Lemma undersample_rows_witness :
  let s := mkIM (Np.full 5 1 1%R) (Np.full 5 1 C.one) (Np.full 5 1 1%Z)
                (Np.full 5 1 0%Z) (Np.full 5 1 C.one) (Np.full 5 1 1%R)
                (Np.full 5 1 0%R) 30 [] [] in
  exists k',
    undersample s 2 false = Py.Done (with_kspacedata s k') /\
    Np.cell k' 1 0 = zero /\ Np.cell k' 4 0 = Np.cell (kspacedata s) 4 0.
Proof.
  intros s.
  destruct (@undersample_rows s 2) as [k' [E [_ [Hcell _]]]]; [lia|].
  exists k'. split; [exact E|]. split.
  - now rewrite Hcell by (simpl; lia).
  - now rewrite Hcell by (simpl; lia).
Defined.

Lemma flat_as_cells {A : Type} {ZA : Zero A} (a : ndarray A) :
  Np.well_shaped a ->
  flat a = map (fun t => Np.cell a (t / ncols a) (t mod ncols a)) (seq 0 (Np.size a)).
Proof.
  intros Ha. apply nth_ext with (d := zero) (d' := Np.cell a (0 / ncols a) (0 mod ncols a)).
  - now rewrite length_map, length_seq.
  - intros t Ht. rewrite Ha in Ht.
    rewrite (map_nth (fun t => Np.cell a (t / ncols a) (t mod ncols a))).
    rewrite seq_nth by exact Ht. simpl. symmetry. apply cell_div_mod.
Qed.

Section CompressFacts.
Context {A : Type} {ZA : Zero A}.

Lemma combine_map {X Y Z0} (f : X -> Y) (g : X -> Z0) (l : list X) :
  combine (map f l) (map g l) = map (fun t => (f t, g t)) l.
Proof. induction l as [|x l IH]; simpl; [reflexivity | now rewrite IH]. Qed.

Lemma filter_map {X Y} (p : Y -> bool) (h : X -> Y) (l : list X) :
  filter p (map h l) = map h (filter (fun t => p (h t)) l).
Proof.
  induction l as [|x l IH]; simpl; [reflexivity|].
  destruct (p (h x)); simpl; now rewrite IH.
Qed.

Lemma filter_const {X} (b : bool) (l : list X) :
  filter (fun _ => b) l = if b then l else [].
Proof.
  induction l as [|x l IH]; simpl; [now destruct b|].
  rewrite IH. now destruct b.
Qed.

(** Filtering the raster positions by a predicate on their row keeps whole
    rows. *)
Lemma filter_by_row (keep : nat -> bool) (m n : nat) :
  filter (fun t => keep (t / n)) (seq 0 (m * n))
  = flat_map (fun i => seq (i * n) n) (filter keep (seq 0 m)).
Proof.
  induction m as [|m IH]; [reflexivity|].
  replace (S m * n) with (m * n + n) by lia.
  rewrite seq_app, filter_app, IH, seq_S, filter_app, flat_map_app. f_equal.
  simpl.
  rewrite filter_ext_in with (g := fun _ => keep m).
  - rewrite filter_const. destruct (keep m); simpl; [now rewrite app_nil_r | reflexivity].
  - intros t Ht. apply in_seq in Ht. f_equal.
    symmetry. apply Nat.div_unique with (r := t - m * n); nia.
Qed.

Lemma length_row_blocks (n : nat) (L : list nat) :
  length (flat_map (fun i => seq (i * n) n) L) = length L * n.
Proof.
  induction L as [|x L IH]; simpl; [reflexivity|].
  now rewrite length_app, length_seq, IH.
Qed.

Lemma nth_row_blocks (n : nat) (L : list nat) p j :
  p < length L -> j < n ->
  nth (p * n + j) (flat_map (fun i => seq (i * n) n) L) 0 = nth p L 0 * n + j.
Proof.
  revert p. induction L as [|x L IH]; intros p Hp Hj; simpl in Hp; [lia|].
  cbn [flat_map]. destruct p as [|p].
  - rewrite app_nth1 by (rewrite length_seq; lia).
    rewrite seq_nth by lia. reflexivity.
  - rewrite app_nth2 by (rewrite length_seq; simpl; lia).
    rewrite length_seq.
    replace (S p * n + j - n) with (p * n + j) by (simpl; lia).
    rewrite IH by lia. reflexivity.
Qed.

(** [a[mask]] with a mask that is constant along every row: the selected
    rows, in order. *)
Lemma compress_rows (keep : nat -> bool) (mask : ndarray bool) (k : ndarray A) :
  Np.well_shaped mask -> Np.well_shaped k ->
  nrows mask = nrows k -> ncols mask = ncols k ->
  (forall i j, i < nrows k -> j < ncols k -> Np.cell mask i j = keep i) ->
  let L := filter keep (seq 0 (nrows k)) in
  length (Np.compress mask k) = length L * ncols k /\
  forall p j, p < length L -> j < ncols k ->
    nth (p * ncols k + j) (Np.compress mask k) zero = Np.cell k (nth p L 0) j.
Proof.
  intros Hm Hk Hr Hc Hcell L.
  assert (E : Np.compress mask k
              = map (fun t => Np.cell k (t / ncols k) (t mod ncols k))
                    (flat_map (fun i => seq (i * ncols k) (ncols k)) L)).
  { unfold Np.compress.
    rewrite (flat_as_cells Hm), (flat_as_cells Hk).
    unfold Np.size. rewrite Hr, Hc.
    rewrite combine_map, filter_map, map_map. cbn [fst snd].
    rewrite filter_ext_in with (g := fun t => keep (t / ncols k)).
    - now rewrite filter_by_row.
    - intros t Ht. apply in_seq in Ht.
      assert (ncols k <> 0) by (intros E0; rewrite E0 in Ht; lia).
      apply Hcell.
      + apply Nat.Div0.div_lt_upper_bound. lia.
      + now apply Nat.mod_upper_bound. }
  split.
  - now rewrite E, length_map, length_row_blocks.
  - intros p j Hp Hj. rewrite E.
    rewrite nth_indep with (d' := Np.cell k (0 / ncols k) (0 mod ncols k))
      by (rewrite length_map, length_row_blocks; now apply index_in_range).
    rewrite (map_nth (fun t => Np.cell k (t / ncols k) (t mod ncols k))).
    rewrite nth_row_blocks by assumption.
    now rewrite index_div, index_mod.
Qed.

End CompressFacts.

(** X18. With compression, a factor above 1 and a k-space of at least one
    column, [undersample] returns: the five working buffers take the shape
    (number of kept rows, columns), the snapshot of the original k-space is
    untouched, and the working k-space holds exactly the kept rows (those at
    a multiple of the factor from the midline) in their original order. *)
Theorem undersample_compress (s : ImageManipulators) (f : Z) :
  (1 < f)%Z -> Np.well_shaped (kspacedata s) -> ncols (kspacedata s) <> 0 ->
  let k := kspacedata s in
  let kept := filter (row_kept (nrows k) f) (seq 0 (nrows k)) in
  exists s',
    undersample s f true = Py.Done s' /\
    Np.shape (kspacedata s') = (length kept, ncols k) /\
    Np.shape (img s') = (length kept, ncols k) /\
    Np.shape (image_display_data s') = (length kept, ncols k) /\
    Np.shape (kspace_display_data s') = (length kept, ncols k) /\
    Np.shape (kspace_abs s') = (length kept, ncols k) /\
    orig_kspacedata s' = orig_kspacedata s /\
    Np.well_shaped (kspacedata s') /\
    forall p j, p < length kept -> j < ncols k ->
      Np.cell (kspacedata s') p j = Np.cell k (nth p kept 0) j.
Proof.
  intros Hf Hk Hn k kept. unfold undersample. fold k.
  destruct (Z.ltb_spec 1 f); [|lia].
  set (mask := Np.set_rows _ false (Np.set_rows _ false _)).
  destruct (@compress_rows _ _ (row_kept (nrows k) f) (Np.map negb mask) k)
    as [Hlen Hnth]; try assumption.
  { apply map_well_shaped, tabulate_well_shaped. }
  { reflexivity. }
  { reflexivity. }
  { intros i j Hi Hj. rewrite cell_map.
    - unfold mask. rewrite undersample_mask by assumption. apply negb_involutive.
    - apply tabulate_well_shaped.
    - exact Hi.
    - exact Hj. }
  fold kept in Hlen, Hnth.
  destruct (Nat.eqb_spec (ncols k) 0); [contradiction|].
  set (q := Np.compress (Np.map negb mask) k) in *.
  assert (Hr : length q / ncols k = length kept)
    by (rewrite Hlen; now apply Nat.div_mul).
  rewrite Hr. rewrite <- Hlen, Nat.eqb_refl.
  rewrite store_same.
  - eexists. split; [reflexivity|].
    repeat (split; [reflexivity|]). split.
    + exact Hlen.
    + intros p j Hp Hj. exact (Hnth p j Hp Hj).
  - exact Hlen.
  - reflexivity.
  - reflexivity.
Qed.

Lemma undersample_compress_witness :
  let s := mkIM (Np.full 5 1 1%R) (Np.full 5 1 C.one) (Np.full 5 1 1%Z)
                (Np.full 5 1 0%Z) (Np.full 5 1 C.one) (Np.full 5 1 1%R)
                (Np.full 5 1 0%R) 30 [] [] in
  exists s',
    undersample s 2 true = Py.Done s' /\
    Np.shape (kspacedata s') = (3, 1) /\
    Np.cell (kspacedata s') 2 0 = Np.cell (kspacedata s) 4 0.
Proof.
  intros s.
  destruct (@undersample_compress s 2) as [s' [E [Hs [_ [_ [_ [_ [_ [_ Hcell]]]]]]]]].
  - lia.
  - apply tabulate_well_shaped.
  - simpl. lia.
  - exists s'. split; [exact E|]. split; [exact Hs|].
    apply (Hcell 2 0); simpl; lia.
Defined.

(** ** K-space filling orders *)

Ltac slice_cases :=
  repeat (match goal with
          | |- context [(?a <? ?b)%Z] => destruct (Z.ltb_spec a b)
          | |- context [(?a <=? ?b)%Z] => destruct (Z.leb_spec a b)
          | |- context [(?a =? ?b)%Z] => destruct (Z.eqb_spec a b)
          end; try lia).

Ltac halves a :=
  pose proof (Nat.div_mod_eq a 2);
  pose proof (Nat.mod_upper_bound a 2 ltac:(lia)).

Ltac div_lia := Z.div_mod_to_equations; lia.

Lemma map_seq_eq (a st count : Z) (g : nat -> nat) (c : nat) :
  Z.to_nat count = c ->
  (forall t, t < c -> Z.to_nat (a + Z.of_nat t * st) = g t) ->
  map (fun t => Z.to_nat (a + Z.of_nat t * st)) (seq 0 (Z.to_nat count))
  = map g (seq 0 c).
Proof.
  intros <- H. apply map_ext_in. intros t Ht. apply in_seq in Ht. apply H. lia.
Qed.

Lemma indices_even_rows n :
  Py.indices (Py.from_step 0 2) n = map (fun p => 2 * p) (seq 0 ((n + 1) / 2)).
Proof.
  halves (n + 1).
  cbv [Py.indices Py.from_step Py.step Py.start Py.stop Py.adjust].
  slice_cases; apply map_seq_eq; intros; div_lia.
Qed.

Lemma indices_every_other n :
  Py.indices (Py.Slice None None (Some 2%Z)) n = Py.indices (Py.from_step 0 2) n.
Proof.
  cbv [Py.indices Py.from_step Py.step Py.start Py.stop Py.adjust].
  slice_cases; reflexivity.
Qed.

Lemma indices_odd_rows n :
  Py.indices (Py.from_step 1 2) n = map (fun p => 2 * p + 1) (seq 0 (n / 2)).
Proof.
  halves n.
  cbv [Py.indices Py.from_step Py.step Py.start Py.stop Py.adjust].
  slice_cases; apply map_seq_eq; intros; div_lia.
Qed.

Lemma indices_lower_rows n :
  Py.indices (Py.from (Z.of_nat (n / 2))) n
  = map (fun p => n / 2 + p) (seq 0 (n - n / 2)).
Proof.
  halves n.
  cbv [Py.indices Py.from Py.step Py.start Py.stop Py.adjust].
  slice_cases; apply map_seq_eq; intros; div_lia.
Qed.

Lemma indices_upper_rows n :
  2 <= n ->
  Py.indices (Py.from_step (Z.of_nat (n / 2) - 1) (-1)) n
  = map (fun p => n / 2 - 1 - p) (seq 0 (n / 2)).
Proof.
  intros Hn. halves n.
  cbv [Py.indices Py.from_step Py.step Py.start Py.stop Py.adjust].
  slice_cases; apply map_seq_eq; intros; div_lia.
Qed.

Lemma nth_map_seq (g : nat -> nat) c p :
  p < c -> nth p (map g (seq 0 c)) 0 = g p.
Proof.
  intros Hp. rewrite nth_indep with (d' := g 0) by now rewrite length_map, length_seq.
  rewrite map_nth. now rewrite seq_nth.
Qed.

Lemma index_of_spec i l :
  match Py.index_of i l with
  | Some p => p < length l /\ nth p l 0 = i
  | None => ~ In i l
  end.
Proof.
  destruct (Py.index_of i l) as [p|] eqn:E.
  - now apply index_of_nth.
  - intros HIn. apply index_of_In in HIn as [p Hp]. congruence.
Qed.

Lemma index_of_map_seq (g : nat -> nat) c i p :
  (forall x y, x < c -> y < c -> g x = g y -> x = y) -> p < c -> g p = i ->
  Py.index_of i (map g (seq 0 c)) = Some p.
Proof.
  intros Hinj Hp Hg. pose proof (index_of_spec i (map g (seq 0 c))) as H.
  destruct (Py.index_of i (map g (seq 0 c))) as [q|].
  - destruct H as [Hq Hn]. rewrite length_map, length_seq in Hq.
    rewrite nth_map_seq in Hn by exact Hq.
    f_equal. apply Hinj; [exact Hq | exact Hp | congruence].
  - exfalso. apply H. apply in_map_iff. exists p. split; [exact Hg|].
    apply in_seq. lia.
Qed.

Lemma index_of_map_seq_none (g : nat -> nat) c i :
  (forall p, p < c -> g p <> i) ->
  Py.index_of i (map g (seq 0 c)) = None.
Proof.
  intros Hne. pose proof (index_of_spec i (map g (seq 0 c))) as H.
  destruct (Py.index_of i (map g (seq 0 c))) as [q|]; [|reflexivity].
  destruct H as [Hq Hn]. rewrite length_map, length_seq in Hq.
  rewrite nth_map_seq in Hn by exact Hq.
  now destruct (Hne q Hq).
Qed.

Section FillingFacts.
Context {A : Type} {ZA : Zero A}.

(** [a[rs] = b[rs', cs]] when the selections have matching sizes. *)
Lemma assign_take rs rs' cs (a b : ndarray A) :
  length (Py.indices rs' (nrows b)) = length (Py.indices rs (nrows a)) ->
  length (Py.indices cs (ncols b)) = ncols a ->
  exists a',
    Np.assign_rows rs (Np.take rs' cs b) a = Py.Done a' /\
    nrows a' = nrows a /\ ncols a' = ncols a /\
    forall i j, i < nrows a -> j < ncols a ->
      Np.cell a' i j
      = match Py.index_of i (Py.indices rs (nrows a)) with
        | Some p => Np.cell b (nth p (Py.indices rs' (nrows b)) 0)
                                (nth j (Py.indices cs (ncols b)) 0)
        | None => Np.cell a i j
        end.
Proof.
  intros Hr Hc. unfold Np.assign_rows.
  assert (Hb : Np.broadcasts (Np.take rs' cs b)
                 (length (Py.indices rs (nrows a))) (ncols a) = true).
  { unfold Np.broadcasts, Np.take; simpl.
    rewrite Hr, Hc, !Nat.eqb_refl. reflexivity. }
  rewrite Hb. eexists. split; [reflexivity|]. split; [reflexivity|].
  split; [reflexivity|].
  intros i j Hi Hj. rewrite cell_tabulate by assumption.
  destruct (Py.index_of i (Py.indices rs (nrows a))) as [p|] eqn:E; [|reflexivity].
  apply index_of_nth in E as [Hp Hn].
  rewrite bcell_same.
  - rewrite cell_take; [reflexivity | now rewrite Hr | now rewrite Hc].
  - unfold Np.take; simpl. now rewrite Hr.
  - unfold Np.take; simpl. now rewrite Hc.
Qed.

(** [a[rs] = b[rs, cs]] for two arrays of one shape and a column slice that
    keeps every column. *)
Lemma assign_rows_same_rows rs cs (a b : ndarray A) :
  nrows b = nrows a -> ncols b = ncols a ->
  length (Py.indices cs (ncols a)) = ncols a ->
  exists a',
    Np.assign_rows rs (Np.take rs cs b) a = Py.Done a' /\
    nrows a' = nrows a /\ ncols a' = ncols a /\
    forall i j, i < nrows a -> j < ncols a ->
      Np.cell a' i j
      = if Py.selects (Py.indices rs (nrows a)) i
        then Np.cell b i (nth j (Py.indices cs (ncols a)) 0)
        else Np.cell a i j.
Proof.
  intros Hr Hc Hl.
  destruct (@assign_take rs rs cs a b) as [a' [E [Hr' [Hc' Hcell]]]].
  - now rewrite Hr.
  - now rewrite Hc.
  - exists a'. split; [exact E|]. split; [exact Hr'|]. split; [exact Hc'|].
    intros i j Hi Hj. rewrite Hcell by assumption. unfold Py.selects.
    pose proof (index_of_spec i (Py.indices rs (nrows a))) as H.
    destruct (Py.index_of i (Py.indices rs (nrows a))) as [p|]; [|reflexivity].
    destruct H as [_ Hn]. now rewrite Hr, Hc, Hn.
Qed.

Lemma assign_rows_done_well_shaped rs (v a a' : ndarray A) :
  Np.assign_rows rs v a = Py.Done a' -> Np.well_shaped a'.
Proof.
  unfold Np.assign_rows. destruct (Np.broadcasts _ _ _); [|discriminate].
  intros [= <-]. apply tabulate_well_shaped.
Qed.

Lemma cell_set_flat s (v : A) (a : ndarray A) i j :
  i < nrows a -> j < ncols a ->
  Np.cell (Np.set_flat s v a) i j
  = if Py.selects (Py.indices s (Np.size a)) (i * ncols a + j)
    then v else Np.cell a i j.
Proof. intros. unfold Np.set_flat. now rewrite cell_tabulate. Qed.

End FillingFacts.

Lemma int_nonneg (x : Q) : (0 <= x)%Q -> (0 <= Py.int x)%Z.
Proof.
  intros Hx. unfold Py.int. apply Z.quot_pos; [|lia].
  unfold Qle in Hx. simpl in Hx. lia.
Qed.

Lemma fill_count_nonneg (size : nat) (v : Q) :
  (0 <= v)%Q -> (0 <= Py.int (inject_Z (Z.of_nat size) * v / 100))%Z.
Proof.
  intros Hv. apply int_nonneg.
  apply Qle_shift_div_l; [reflexivity|]. rewrite Qmult_0_l.
  apply Qmult_le_0_compat; [|exact Hv].
  rewrite <- (Zle_Qle 0). lia.
Qed.

Lemma selects_even_rows n i :
  i < n -> Py.selects (Py.indices (Py.from_step 0 2) n) i = Nat.even i.
Proof.
  intros Hi. rewrite indices_even_rows.
  destruct (parity_half i) as [[He Hh]|[He Hh]]; rewrite He.
  - apply selects_In, in_map_iff. exists (i / 2). split; [lia|].
    apply in_seq. halves n. halves (n + 1). lia.
  - destruct (Py.selects _ i) eqn:E; [|reflexivity].
    apply selects_In, in_map_iff in E as [p [Hp _]]. lia.
Qed.

Lemma selects_odd_rows n i :
  i < n -> Py.selects (Py.indices (Py.from_step 1 2) n) i = negb (Nat.even i).
Proof.
  intros Hi. rewrite indices_odd_rows.
  destruct (parity_half i) as [[He Hh]|[He Hh]]; rewrite He; cbv [negb].
  - destruct (Py.selects _ i) eqn:E; [|reflexivity].
    apply selects_In, in_map_iff in E as [p [Hp _]]. lia.
  - apply selects_In, in_map_iff. exists (i / 2). split; [lia|].
    apply in_seq. halves n. halves (n + 1). lia.
Qed.

Lemma nth_reversed n j : j < n -> nth j (Py.indices Py.reversed n) 0 = n - 1 - j.
Proof. intros Hj. rewrite indices_reversed. now apply nth_map_seq. Qed.

Lemma length_reversed n : length (Py.indices Py.reversed n) = n.
Proof. now rewrite indices_reversed, length_map, length_seq. Qed.

Lemma nth_all n j : j < n -> nth j (Py.indices Py.all n) 0 = j.
Proof. intros Hj. rewrite indices_all. now apply seq_nth. Qed.

Lemma length_all n : length (Py.indices Py.all n) = n.
Proof. now rewrite indices_all, length_seq. Qed.

(** The samples of the reordered echo-planar buffer: odd rows are stored
    backwards. *)
Lemma epi_order (a b : ndarray complex) :
  nrows b = nrows a -> ncols b = ncols a ->
  exists e1 e2,
    Np.assign_rows (Py.Slice None None (Some 2%Z))
      (Np.take (Py.Slice None None (Some 2%Z)) Py.all b) a = Py.Done e1 /\
    Np.assign_rows (Py.from_step 1 2)
      (Np.take (Py.from_step 1 2) Py.reversed b) e1 = Py.Done e2 /\
    nrows e2 = nrows a /\ ncols e2 = ncols a /\
    forall i j, i < nrows a -> j < ncols a ->
      Np.cell e2 i j
      = if Nat.even i then Np.cell b i j else Np.cell b i (ncols a - 1 - j).
Proof.
  intros Hr Hc.
  destruct (@assign_rows_same_rows _ _ (Py.Slice None None (Some 2%Z)) Py.all a b)
    as [e1 [E1 [Hr1 [Hc1 Hcell1]]]]; [exact Hr | exact Hc | apply length_all |].
  destruct (@assign_rows_same_rows _ _ (Py.from_step 1 2) Py.reversed e1 b)
    as [e2 [E2 [Hr2 [Hc2 Hcell2]]]];
    [congruence | congruence | apply length_reversed |].
  exists e1, e2. split; [exact E1|]. split; [exact E2|].
  split; [congruence|]. split; [congruence|].
  intros i j Hi Hj.
  rewrite Hcell2 by congruence. rewrite Hr1, Hc1.
  rewrite selects_odd_rows by exact Hi.
  rewrite nth_reversed by exact Hj.
  rewrite Hcell1 by assumption.
  rewrite indices_every_other, selects_even_rows by exact Hi.
  rewrite nth_all by exact Hj.
  now destruct (Nat.even i).
Qed.

Lemma epi_cells (k : ndarray complex) (v : Q) :
  (0 <= v)%Q ->
  exists k',
    filling_ss_epi_blipped k v = Py.Done k' /\
    Np.well_shaped k' /\
    Np.shape k' = Np.shape k /\
    forall i j, i < nrows k -> j < ncols k ->
      Np.cell k' i j
      = if (Py.int (inject_Z (Z.of_nat (Np.size k)) * v / 100)
            <=? Z.of_nat (zigzag (ncols k) i j))%Z
        then zero else Np.cell k i j.
Proof.
  intros Hv. unfold filling_ss_epi_blipped.
  destruct (@epi_order (Np.zeros_like k) k) as [e1 [e2 [E1 [E2 [Hr2 [Hc2 Hcell2]]]]]];
    [reflexivity | reflexivity |].
  rewrite E1. cbn [try]. rewrite E2. cbn [try].
  change (nrows (Np.zeros_like k)) with (nrows k) in *.
  change (ncols (Np.zeros_like k)) with (ncols k) in *.
  set (cnt := Py.int (inject_Z (Z.of_nat (Np.size k)) * v / 100)).
  set (e3 := Np.set_flat (Py.from cnt) zero e2).
  destruct (@epi_order k e3) as [k1 [k2 [K1 [K2 [Hr' [Hc' Hcell']]]]]];
    [exact Hr2 | exact Hc2 |].
  rewrite K1. cbn [Py.bind]. rewrite K2.
  exists k2. split; [reflexivity|].
  split; [exact (@assign_rows_done_well_shaped _ _ _ _ _ _ K2)|].
  split; [unfold Np.shape; congruence|].
  assert (Hcnt : (0 <= cnt)%Z) by now apply fill_count_nonneg.
  assert (He3 : forall i j, i < nrows k -> j < ncols k ->
            Np.cell e3 i j
            = if (cnt <=? Z.of_nat (i * ncols k + j))%Z then zero
              else Np.cell e2 i j).
  { intros i j Hi Hj. unfold e3. rewrite cell_set_flat by congruence.
    unfold Np.size. rewrite Hr2, Hc2.
    rewrite selects_tail; [reflexivity | exact Hcnt |].
    now apply index_in_range. }
  intros i j Hi Hj. rewrite Hcell' by assumption. unfold zigzag.
  destruct (Nat.even i) eqn:He.
  - rewrite He3 by assumption. rewrite Hcell2 by assumption. now rewrite He.
  - rewrite He3 by lia. rewrite Hcell2 by lia. rewrite He.
    replace (ncols k - 1 - (ncols k - 1 - j)) with j by lia. reflexivity.
Qed.



(** The samples of the buffer in centric order: even ranks hold the rows
    from the midline down, odd ranks the rows above it, going up. *)
Lemma centric_order (a b : ndarray complex) :
  2 <= nrows a -> nrows b = nrows a -> ncols b = ncols a ->
  exists c1 c2,
    Np.assign_rows (Py.from_step 0 2)
      (Np.take (Py.from (Z.of_nat (nrows a / 2))) Py.all b) a = Py.Done c1 /\
    Np.assign_rows (Py.from_step 1 2)
      (Np.take (Py.from_step (Z.of_nat (nrows a / 2) - 1) (-1)) Py.all b) c1
      = Py.Done c2 /\
    nrows c2 = nrows a /\ ncols c2 = ncols a /\
    forall i j, i < nrows a -> j < ncols a ->
      Np.cell c2 (centric_row (nrows a) i) j = Np.cell b i j.
Proof.
  intros Hn Hr Hc. set (n := nrows a) in *.
  halves n. halves (n + 1).
  destruct (@assign_take _ _ (Py.from_step 0 2) (Py.from (Z.of_nat (n / 2))) Py.all a b)
    as [c1 [E1 [Hr1 [Hc1 Hcell1]]]].
  { fold n. rewrite Hr, indices_lower_rows, indices_even_rows.
    rewrite !length_map, !length_seq. lia. }
  { rewrite length_all. exact Hc. }
  fold n in Hr1, Hcell1.
  destruct (@assign_take _ _ (Py.from_step 1 2)
              (Py.from_step (Z.of_nat (n / 2) - 1) (-1)) Py.all c1 b)
    as [c2 [E2 [Hr2 [Hc2 Hcell2]]]].
  { rewrite Hr, Hr1, indices_upper_rows, indices_odd_rows by exact Hn.
    now rewrite !length_map, !length_seq. }
  { rewrite length_all. congruence. }
  exists c1, c2. split; [exact E1|]. split; [exact E2|].
  split; [congruence|]. split; [congruence|].
  intros i j Hi Hj. unfold centric_row. fold n.
  rewrite Hr1, Hc1 in Hcell2. rewrite Hr, Hc in Hcell1, Hcell2.
  rewrite indices_odd_rows, indices_upper_rows in Hcell2 by exact Hn.
  rewrite indices_even_rows, indices_lower_rows in Hcell1.
  destruct (Nat.leb_spec (n / 2) i) as [Hge|Hlt].
  - rewrite Hcell2 by lia.
    rewrite index_of_map_seq_none by (intros; lia).
    rewrite Hcell1 by lia.
    rewrite index_of_map_seq with (p := i - n / 2) by (intros; lia).
    rewrite nth_map_seq by lia. rewrite nth_all by exact Hj.
    f_equal. lia.
  - rewrite Hcell2 by lia.
    rewrite index_of_map_seq with (p := n / 2 - 1 - i) by (intros; lia).
    rewrite nth_map_seq by lia. rewrite nth_all by exact Hj.
    f_equal. lia.
Qed.

(** Copying back from centric order: row [i] receives the row of its rank. *)
Lemma centric_restore (a b : ndarray complex) :
  2 <= nrows a -> nrows b = nrows a -> ncols b = ncols a ->
  exists k1 k2,
    Np.assign_rows (Py.from_step (Z.of_nat (nrows a / 2) - 1) (-1))
      (Np.take (Py.from_step 1 2) Py.all b) a = Py.Done k1 /\
    Np.assign_rows (Py.from (Z.of_nat (nrows a / 2)))
      (Np.take (Py.from_step 0 2) Py.all b) k1 = Py.Done k2 /\
    nrows k2 = nrows a /\ ncols k2 = ncols a /\
    forall i j, i < nrows a -> j < ncols a ->
      Np.cell k2 i j = Np.cell b (centric_row (nrows a) i) j.
Proof.
  intros Hn Hr Hc. set (n := nrows a) in *.
  halves n. halves (n + 1).
  destruct (@assign_take _ _ (Py.from_step (Z.of_nat (n / 2) - 1) (-1))
              (Py.from_step 1 2) Py.all a b)
    as [k1 [E1 [Hr1 [Hc1 Hcell1]]]].
  { fold n. rewrite Hr, indices_upper_rows, indices_odd_rows by exact Hn.
    now rewrite !length_map, !length_seq. }
  { rewrite length_all. exact Hc. }
  fold n in Hr1, Hcell1.
  destruct (@assign_take _ _ (Py.from (Z.of_nat (n / 2))) (Py.from_step 0 2) Py.all k1 b)
    as [k2 [E2 [Hr2 [Hc2 Hcell2]]]].
  { rewrite Hr, Hr1, indices_lower_rows, indices_even_rows.
    rewrite !length_map, !length_seq. lia. }
  { rewrite length_all. congruence. }
  exists k1, k2. split; [exact E1|]. split; [exact E2|].
  split; [congruence|]. split; [congruence|].
  intros i j Hi Hj. unfold centric_row. fold n.
  rewrite Hr1, Hc1 in Hcell2. rewrite Hr, Hc in Hcell1, Hcell2.
  rewrite indices_odd_rows, indices_upper_rows in Hcell1 by exact Hn.
  rewrite indices_even_rows, indices_lower_rows in Hcell2.
  rewrite Hcell2 by assumption.
  destruct (Nat.leb_spec (n / 2) i) as [Hge|Hlt].
  - rewrite index_of_map_seq with (p := i - n / 2) by (intros; lia).
    rewrite nth_map_seq by lia. now rewrite nth_all by exact Hj.
  - rewrite index_of_map_seq_none by (intros; lia).
    rewrite Hcell1 by assumption.
    rewrite index_of_map_seq with (p := n / 2 - 1 - i) by (intros; lia).
    rewrite nth_map_seq by lia. now rewrite nth_all by exact Hj.
Qed.

Lemma centric_row_range rows i : 2 <= rows -> i < rows -> centric_row rows i < rows.
Proof.
  intros Hn Hi. unfold centric_row. halves rows.
  destruct (Nat.leb_spec (rows / 2) i); lia.
Qed.

Lemma centric_cells (k : ndarray complex) (v : Q) :
  (0 <= v)%Q -> 2 <= nrows k ->
  exists k',
    filling_centric k v = Py.Done k' /\
    Np.well_shaped k' /\
    Np.shape k' = Np.shape k /\
    forall i j, i < nrows k -> j < ncols k ->
      Np.cell k' i j
      = if (Py.int (inject_Z (Z.of_nat (Np.size k)) * v / 100)
            <=? Z.of_nat (centric_row (nrows k) i * ncols k + j))%Z
        then zero else Np.cell k i j.
Proof.
  intros Hv Hn. unfold filling_centric.
  destruct (@centric_order (Np.zeros_like k) k) as [c1 [c2 [E1 [E2 [Hr2 [Hc2 Hcell2]]]]]];
    [exact Hn | reflexivity | reflexivity |].
  change (nrows (Np.zeros_like k)) with (nrows k) in *.
  change (ncols (Np.zeros_like k)) with (ncols k) in *.
  rewrite E1. cbn [try]. rewrite E2. cbn [try].
  set (cnt := Py.int (inject_Z (Z.of_nat (Np.size k)) * v / 100)).
  set (c3 := Np.set_flat (Py.from cnt) zero c2).
  destruct (@centric_restore k c3) as [k1 [k2 [K1 [K2 [Hr' [Hc' Hcell']]]]]];
    [exact Hn | exact Hr2 | exact Hc2 |].
  rewrite K1. cbn [Py.bind]. rewrite K2.
  exists k2. split; [reflexivity|].
  split; [exact (@assign_rows_done_well_shaped _ _ _ _ _ _ K2)|].
  split; [unfold Np.shape; congruence|].
  assert (Hcnt : (0 <= cnt)%Z) by now apply fill_count_nonneg.
  intros i j Hi Hj. rewrite Hcell' by assumption.
  pose proof (centric_row_range Hn Hi) as Hrow.
  unfold c3. rewrite cell_set_flat by congruence.
  unfold Np.size. rewrite Hr2, Hc2.
  rewrite selects_tail; [| exact Hcnt | now apply index_in_range].
  now rewrite Hcell2 by assumption.
Qed.



Lemma int_floor (x : Q) : (0 <= x)%Q -> Py.int x = Qfloor x.
Proof.
  intros Hx. destruct x as [n d]. unfold Py.int, Qfloor. simpl.
  apply Z.quot_div_nonneg; [|lia].
  unfold Qle in Hx. simpl in Hx. lia.
Qed.

Lemma fill_fraction_complete (size : nat) (v : Q) :
  (100 <= v)%Q ->
  (inject_Z (Z.of_nat size) <= inject_Z (Z.of_nat size) * v / 100)%Q.
Proof.
  intros Hv. apply Qle_shift_div_l; [reflexivity|].
  rewrite (Qmult_comm _ 100), (Qmult_comm _ v).
  apply Qmult_le_compat_r; [exact Hv|].
  rewrite <- (Zle_Qle 0). lia.
Qed.

Lemma fill_count_complete (size : nat) (v : Q) :
  (100 <= v)%Q ->
  (Z.of_nat size <= Py.int (inject_Z (Z.of_nat size) * v / 100))%Z.
Proof.
  intros Hv. pose proof (fill_fraction_complete size Hv) as Hf.
  rewrite int_floor.
  - rewrite <- (Qfloor_Z (Z.of_nat size)) at 1. now apply Qfloor_resp_le.
  - eapply Qle_trans; [|exact Hf]. rewrite <- (Zle_Qle 0). lia.
Qed.

Lemma zigzag_range rows cols i j :
  i < rows -> j < cols -> zigzag cols i j < rows * cols.
Proof.
  intros Hi Hj. unfold zigzag.
  destruct (Nat.even i); apply index_in_range; lia.
Qed.

(** X21. Once the acquisition is complete (fill value of 100 or more) no
    filling mode removes anything: [filling] returns the k-space as it was
    in the linear, centric (on at least two rows) and echo-planar modes; any
    other mode number, such as the unimplemented spiral mode 3, leaves the
    k-space untouched whatever the fill value. *)
Theorem filling_complete (k : ndarray complex) (v : Q) (mode : Z) :
  Np.well_shaped k ->
  ((100 <= v)%Q /\ (mode = 1%Z -> 2 <= nrows k)) \/ (mode < 0 \/ 2 < mode)%Z ->
  filling k v mode = Py.Done k.
Proof.
  intros Hk H. unfold filling.
  destruct H as [[Hv Hrows]|Hmode].
  2:{ destruct (Z.eqb_spec mode 0); [lia|].
      destruct (Z.eqb_spec mode 1); [lia|].
      destruct (Z.eqb_spec mode 2); [lia | reflexivity]. }
  assert (Hv0 : (0 <= v)%Q).
  { eapply Qle_trans; [|exact Hv]. unfold Qle; simpl; lia. }
  pose proof (fill_count_complete (Np.size k) Hv) as Hcnt.
  destruct (Z.eqb_spec mode 0) as [_|_].
  { f_equal.
    apply array_ext;
      [apply tabulate_well_shaped | exact Hk | reflexivity | reflexivity |].
    intros i j Hi Hj.
    change (i < nrows k) in Hi. change (j < ncols k) in Hj.
    unfold filling_linear.
    rewrite cell_set_flat by assumption. rewrite int_floordiv.
    assert (Hs : (Z.of_nat (Np.size k)
                  <= Qfloor (inject_Z (Z.of_nat (Np.size k)) * v / 100))%Z).
    { rewrite <- (Qfloor_Z (Z.of_nat (Np.size k))) at 1.
      apply Qfloor_resp_le. now apply fill_fraction_complete. }
    pose proof (index_in_range Hi Hj) as Ht.
    rewrite selects_tail; [| lia | exact Ht].
    destruct (Z.leb_spec (Qfloor (inject_Z (Z.of_nat (Np.size k)) * v / 100))
                (Z.of_nat (i * ncols k + j))); [unfold Np.size in *; lia | reflexivity]. }
  destruct (Z.eqb_spec mode 1) as [H1|_].
  { destruct (centric_cells k Hv0 (Hrows H1)) as [k' [E [Hw [Hs Hcell]]]].
    rewrite E. f_equal. injection Hs as Hr Hc.
    apply array_ext; auto.
    intros i j Hi Hj. rewrite Hcell by congruence.
    rewrite Hr in Hi. rewrite Hc in Hj.
    pose proof (centric_row_range (Hrows H1) Hi) as Hrow.
    pose proof (index_in_range Hrow Hj) as Ht.
    destruct (Z.leb_spec (Py.int (inject_Z (Z.of_nat (Np.size k)) * v / 100))
                (Z.of_nat (centric_row (nrows k) i * ncols k + j)));
      [unfold Np.size in *; lia | reflexivity]. }
  destruct (Z.eqb_spec mode 2) as [_|_]; [|reflexivity].
  destruct (epi_cells k Hv0) as [k' [E [Hw [Hs Hcell]]]].
  rewrite E. f_equal. injection Hs as Hr Hc.
  apply array_ext; auto.
  intros i j Hi Hj. rewrite Hcell by congruence.
  rewrite Hr in Hi. rewrite Hc in Hj.
  pose proof (zigzag_range Hi Hj) as Ht.
  destruct (Z.leb_spec (Py.int (inject_Z (Z.of_nat (Np.size k)) * v / 100))
              (Z.of_nat (zigzag (ncols k) i j)));
    [unfold Np.size in *; lia | reflexivity].
Qed.

Lemma filling_complete_witness :
  let k := mkarr 2 2 [C.one; C.one; C.one; C.one] in
  filling k 100 1 = Py.Done k /\ filling k 100 2 = Py.Done k /\
  filling k 40 3 = Py.Done k.
Proof.
  intros k.
  assert (Hk : Np.well_shaped k) by reflexivity.
  assert (H100 : (100 <= 100)%Q) by (unfold Qle; simpl; lia).
  split; [|split].
  - apply filling_complete; [exact Hk|]. left. split; [exact H100|]. intros _. simpl. lia.
  - apply filling_complete; [exact Hk|]. left. split; [exact H100|]. intros H. discriminate H.
  - apply filling_complete; [exact Hk|]. right. right. lia.
Defined.
